(** * littleconf: a shallow embedding of the configuration loader

    The development follows [lib/littleconf.ts] (class [LittleConf]) and
    [lib/index.ts] ([getConfig]).  JavaScript values are a small tagged
    tree, objects are association lists in insertion order, and the
    methods of the class live in a state-and-exception monad over the
    loader instance.

    Modelling conventions:
    - strings are byte strings and are read as ASCII text;
    - numbers are integers;
    - objects carry their own enumerable properties only (no prototype
      chain), listed in insertion order (keys that look like integers
      are not moved to the front);
    - an array slot is either a value or a hole (what [delete arr[i]]
      leaves behind);
    - values are trees: two references to one object are two equal
      values, and the identity of an object is modelled only for the
      result of [loadConfig], which [getConfig] caches.  The source
      stores the values of [options.argv] themselves in the overrides
      (line 295), so that a later assignment below the same path writes
      into the caller's object: what becomes of the caller's options
      object is outside the model, and nothing is stated about it;
    - a call of [getConfig] is run from its call to its return;
      [getConfig_begin] and [getConfig_end] are its two halves, before
      and after the [await], for calls that overlap.  The order in which
      overlapping loads reach the file system is not modelled;
    - the options of a loader are read at their declared type
      [LittleConfOptions]; the values of [argv] are any values. *)

From Stdlib Require Import List String Ascii ZArith Bool Lia DecimalString.
From Stdlib Require Import RelationClasses.
Set Warnings "-register-all".
Import ListNotations.
Open Scope string_scope.

(* ================================================================= *)
(** ** JavaScript values *)

Inductive value : Type :=
| VUndefined
| VNull
| VBool (b : bool)
| VNum (n : Z)
| VStr (s : string)
| VArr (elems : list (option value))
| VObj (props : list (string * value)).

(** A plain object: its properties, in insertion order. *)
Definition obj : Type := list (string * value).

(** Induction over the whole tree: the generated principle says nothing
    about the values below an array or an object. *)
Section value_induction.
Variable P : value -> Prop.
Hypothesis P_undefined : P VUndefined.
Hypothesis P_null : P VNull.
Hypothesis P_bool : forall b, P (VBool b).
Hypothesis P_num : forall n, P (VNum n).
Hypothesis P_str : forall s, P (VStr s).
Hypothesis P_arr :
  forall elems, Forall (fun e => forall x, e = Some x -> P x) elems ->
                P (VArr elems).
Hypothesis P_obj :
  forall props, Forall (fun kv => P (snd kv)) props -> P (VObj props).

Fixpoint value_ind' (v : value) : P v :=
  match v with
  | VUndefined => P_undefined
  | VNull => P_null
  | VBool b => P_bool b
  | VNum n => P_num n
  | VStr s => P_str s
  | VArr elems =>
      P_arr elems
        ((fix all (l : list (option value))
            : Forall (fun e => forall x, e = Some x -> P x) l :=
            match l with
            | [] => Forall_nil _
            | e :: l' =>
                Forall_cons e
                  (match e as e0 return forall x, e0 = Some x -> P x with
                   | Some y =>
                       fun x H =>
                         match H in _ = sx
                               return match sx with
                                      | Some z => P z
                                      | None => True
                                      end
                         with eq_refl => value_ind' y end
                   | None => fun x H =>
                       match H in _ = sx
                             return match sx with
                                    | Some z => P x
                                    | None => True
                                    end
                       with eq_refl => I end
                   end)
                  (all l')
            end) elems)
  | VObj props =>
      P_obj props
        ((fix all (l : list (string * value))
            : Forall (fun kv => P (snd kv)) l :=
            match l with
            | [] => Forall_nil _
            | kv :: l' =>
                Forall_cons kv
                  (match kv as kv0 return P (snd kv0) with
                   | (_, x) => value_ind' x
                   end)
                  (all l')
            end) props)
  end.
End value_induction.

(** [if (v)]: the falsy values are undefined, null, false, 0 and the
    empty string. *)
Definition truthy (v : value) : bool :=
  match v with
  | VUndefined | VNull => false
  | VBool b => b
  | VNum n => negb (n =? 0)%Z
  | VStr s => negb (s =? "")
  | VArr _ | VObj _ => true
  end.

(** [typeof v === 'object'] (true of null as well). *)
Definition typeof_object (v : value) : bool :=
  match v with
  | VNull | VArr _ | VObj _ => true
  | _ => false
  end.

(** [a || b] on values. *)
Definition js_or (a b : value) : value := if truthy a then a else b.

Fixpoint join (sep : string) (l : list string) : string :=
  match l with
  | [] => ""
  | [s] => s
  | s :: l' => s ++ sep ++ join sep l'
  end.

(** The string a value turns into when it is concatenated to a string or
    used as a property name. *)
Fixpoint to_string (v : value) : string :=
  match v with
  | VUndefined => "undefined"
  | VNull => "null"
  | VBool true => "true"
  | VBool false => "false"
  | VNum n => NilZero.string_of_int (Z.to_int n)
  | VStr s => s
  | VArr elems =>
      join ","
        ((fix each (l : list (option value)) : list string :=
            match l with
            | [] => []
            | Some VUndefined :: l' | Some VNull :: l' | None :: l' =>
                "" :: each l'
            | Some x :: l' => to_string x :: each l'
            end) elems)
  | VObj _ => "[object Object]"
  end.

(* ----------------------------------------------------------------- *)
(** *** Own properties of an object *)

(** [o[k]] when [k] is an own property. *)
Fixpoint get_prop (k : string) (o : obj) : option value :=
  match o with
  | [] => None
  | (k', v) :: o' => if k' =? k then Some v else get_prop k o'
  end.

(** [o[k]] as JavaScript evaluates it: undefined when absent. *)
Definition prop (k : string) (o : obj) : value :=
  match get_prop k o with
  | Some v => v
  | None => VUndefined
  end.

(** [k in o]. *)
Definition has_prop (k : string) (o : obj) : bool :=
  match get_prop k o with
  | Some _ => true
  | None => false
  end.

(** [o[k] = v]: an existing property keeps its place, a new one goes
    last. *)
Fixpoint set_prop (k : string) (v : value) (o : obj) : obj :=
  match o with
  | [] => [(k, v)]
  | (k', v') :: o' =>
      if k' =? k then (k, v) :: o' else (k', v') :: set_prop k v o'
  end.

(** [delete o[k]]. *)
Fixpoint delete_prop (k : string) (o : obj) : obj :=
  match o with
  | [] => []
  | (k', v') :: o' =>
      if k' =? k then delete_prop k o' else (k', v') :: delete_prop k o'
  end.

Definition keys (o : obj) : list string := map fst o.

(* ----------------------------------------------------------------- *)
(** *** Strings *)

(** [s.split(c)] for a one-character separator: never empty, the empty
    string splits into one empty piece. *)
Fixpoint split_on (c : ascii) (s : string) : list string :=
  match s with
  | EmptyString => [""]
  | String a s' =>
      if Ascii.eqb a c then "" :: split_on c s'
      else match split_on c s' with
           | [] => [String a ""]
           | p :: ps => String a p :: ps
           end
  end.

Fixpoint string_forallb (f : ascii -> bool) (s : string) : bool :=
  match s with
  | EmptyString => true
  | String a s' => f a && string_forallb f s'
  end.

Fixpoint string_map (f : ascii -> ascii) (s : string) : string :=
  match s with
  | EmptyString => EmptyString
  | String a s' => String (f a) (string_map f s')
  end.

(** [strip_prefix p s = Some r] exactly when [s = p ++ r]. *)
Fixpoint strip_prefix (p s : string) : option string :=
  match p, s with
  | EmptyString, _ => Some s
  | String a p', String b s' =>
      if Ascii.eqb a b then strip_prefix p' s' else None
  | String _ _, EmptyString => None
  end.

Fixpoint ends_with_rev (p s : list ascii) : bool :=
  match p, s with
  | [], _ => true
  | a :: p', b :: s' => Ascii.eqb a b && ends_with_rev p' s'
  | _ :: _, [] => false
  end.

Definition ends_with (suffix s : string) : bool :=
  ends_with_rev (rev (list_ascii_of_string suffix))
                (rev (list_ascii_of_string s)).

Definition in_range (lo hi : nat) (a : ascii) : bool :=
  (lo <=? nat_of_ascii a)%nat && (nat_of_ascii a <=? hi)%nat.

Definition is_upper (a : ascii) : bool := in_range 65 90 a.
Definition is_lower (a : ascii) : bool := in_range 97 122 a.
Definition is_digit (a : ascii) : bool := in_range 48 57 a.

(** [toUpperCase] on ASCII text. *)
Definition upcase (a : ascii) : ascii :=
  if is_lower a then ascii_of_nat (nat_of_ascii a - 32) else a.

Definition toUpperCase (s : string) : string := string_map upcase s.

(** [.replace(/[^A-Z0-9]/g, '_')]. *)
Definition replace_non_A_Z_0_9 (s : string) : string :=
  string_map (fun a => if is_upper a || is_digit a then a else "_"%char) s.

(** [name.toUpperCase().replace(/[^A-Z0-9]/g, '_')]: the prefix of every
    environment variable that belongs to the project. *)
Definition upper_snake (name : string) : string :=
  replace_non_A_Z_0_9 (toUpperCase name).

(** A character that [.] of a regular expression does not match. *)
Definition line_terminator (a : ascii) : bool :=
  Ascii.eqb a "010"%char || Ascii.eqb a "013"%char.

(** The regular expression made of [^], a prefix without operators, a
    group of any characters and [$], run on [key]: the group, when
    there is a match.  The group takes the rest of the key, which must
    hold no line terminator. *)
Definition exec_prefix (prefix key : string) : option string :=
  match strip_prefix prefix key with
  | Some rest =>
      if string_forallb (fun a => negb (line_terminator a)) rest
      then Some rest else None
  | None => None
  end.

(* ================================================================= *)
(** ** The object helpers of the [objtools] package

    [littleconf.ts] imports three functions of the package [objtools].
    What the loader does with their results is stated for every
    implementation of this interface; what the results are is stated
    for the implementation below. *)

Class Objtools : Type := {
  (** [objtools.merge(target, ...sources)], on the properties of the
      target. *)
  merge : obj -> list value -> obj;
  (** [objtools.getPath(v, path)]. *)
  getPath : value -> string -> value;
  (** [objtools.setPath(o, path, v)], on the properties of [o]. *)
  setPath : obj -> string -> value -> obj
}.

(** Modelled from the spec: the deep merge of [objtools.merge], whose
    source is not part of the repository.  For each key, if both the
    existing and the incoming value are mappings they are merged
    recursively; otherwise the incoming value replaces the existing one
    entirely (arrays are replaced wholesale).  These are the words of
    the specification and not a rendering of the package: the worked
    examples below run it on mappings with scalar leaves, and no
    theorem states what the package itself does under a key. *)
Fixpoint merge_value (existing incoming : value) {struct incoming} : value :=
  match existing, incoming with
  | VObj t, VObj s =>
      VObj ((fix each (s : list (string * value)) (t : obj) : obj :=
               match s with
               | [] => t
               | (k, v) :: s' =>
                   each s' (set_prop k (match get_prop k t with
                                        | Some e => merge_value e v
                                        | None => v
                                        end) t)
               end) s t)
  | _, _ => incoming
  end.

(** Modelled from the spec: one source of [objtools.merge] merged into
    the target, key by key (the loop of [merge_value], on its own). *)
Fixpoint merge_props (s : obj) (t : obj) : obj :=
  match s with
  | [] => t
  | (k, v) :: s' =>
      merge_props s' (set_prop k (match get_prop k t with
                                  | Some e => merge_value e v
                                  | None => v
                                  end) t)
  end.

(** Modelled from the spec: [objtools.merge(target, ...sources)],
    sources merged left to right, later sources taking precedence.  The
    spec gives the sources as mappings; a source that is not a mapping
    has no keys to merge. *)
Definition spec_merge (target : obj) (sources : list value) : obj :=
  fold_left (fun t s => match s with
                        | VObj props => merge_props props t
                        | _ => t
                        end) sources target.

(** Modelled from the spec: the walk of [objtools.getPath] along the
    segments of a path. *)
Fixpoint get_segments (segs : list string) (v : value) : value :=
  match segs with
  | [] => v
  | k :: rest =>
      match v with
      | VObj o => get_segments rest (prop k o)
      | _ => VUndefined
      end
  end.

(** Modelled from the spec: the dotted-path read of [objtools.getPath],
    whose source is not part of the repository: the path is cut at its
    dots and followed through nested mappings, and the result is
    undefined as soon as a segment is missing. *)
Definition spec_getPath (v : value) (path : string) : value :=
  get_segments (split_on "." path) v.

(** Modelled from the spec: the walk of [objtools.setPath] along the
    segments of a path, the last of which is assigned. *)
Fixpoint set_segments (segs : list string) (v : value) (o : obj) : obj :=
  match segs with
  | [] => o
  | [k] => set_prop k v o
  | k :: rest =>
      set_prop k (VObj (set_segments rest v
                          (match get_prop k o with
                           | Some (VObj child) => child
                           | _ => []
                           end))) o
  end.

(** Modelled from the spec: the dotted-path assignment of
    [objtools.setPath], whose source is not part of the repository: it
    creates intermediate nested mappings as needed, and an intermediate
    value that is not a mapping is overwritten by a new one. *)
Definition spec_setPath (o : obj) (path : string) (v : value) : obj :=
  set_segments (split_on "." path) v o.

#[export] Instance spec_objtools : Objtools := {
  merge := spec_merge;
  getPath := spec_getPath;
  setPath := spec_setPath
}.

(* ================================================================= *)
(** ** Paths (POSIX [path] module) *)

(** The segments of a path, [.] and empty segments dropped and [..]
    resolved; [above] says whether a [..] may climb past the start, as
    it does in a relative path. *)
Fixpoint normalize_segments (above : bool) (acc segs : list string)
  : list string :=
  match segs with
  | [] => rev acc
  | s :: segs' =>
      if (s =? "") || (s =? ".") then normalize_segments above acc segs'
      else if s =? ".." then
        match acc with
        | [] => normalize_segments above (if above then [".."] else []) segs'
        | a :: acc' =>
            if a =? ".." then normalize_segments above (s :: acc) segs'
            else normalize_segments above acc' segs'
        end
      else normalize_segments above (s :: acc) segs'
  end.

(** [path.isAbsolute(p)]. *)
Definition path_isAbsolute (p : string) : bool :=
  match p with
  | String "/" _ => true
  | _ => false
  end.

Fixpoint resolve_gather (l : list string) (acc : string) : string * bool :=
  match l with
  | [] => (acc, false)
  | p :: l' =>
      if p =? "" then resolve_gather l' acc
      else if path_isAbsolute p then (p ++ "/" ++ acc, true)
      else resolve_gather l' (p ++ "/" ++ acc)
  end.

(** [path.resolve(...args)] with the working directory [cwd]: the
    arguments are taken from the right until an absolute one is met,
    the working directory coming last; empty arguments are skipped. *)
Definition path_resolve (cwd : string) (args : list string) : string :=
  let (resolved, absolute) := resolve_gather (rev args ++ [cwd])%list "" in
  let body :=
    join "/" (normalize_segments (negb absolute) [] (split_on "/" resolved)) in
  if absolute then "/" ++ body
  else if body =? "" then "." else body.

(** [path.join(...args)]. *)
Definition path_join (args : list string) : string :=
  let joined := join "/" (filter (fun s => negb (s =? "")) args) in
  if joined =? "" then "."
  else
    let absolute := path_isAbsolute joined in
    let body :=
      join "/" (normalize_segments (negb absolute) [] (split_on "/" joined)) in
    let body := if (body =? "") && negb absolute then "." else body in
    let body := if negb (body =? "") && ends_with "/" joined
                then body ++ "/" else body in
    if absolute then "/" ++ body else body.

(* ================================================================= *)
(** ** The host: file system, loaders and process environment *)

Inductive exn : Type :=
| TypeError (msg : string)
| HostError (msg : string).

Inductive result (A : Type) : Type :=
| Ok (a : A)
| Throw (e : exn).
Arguments Ok {A} a.
Arguments Throw {A} e.

(** What the loader asks of Node and of the packages it imports.  A
    loader that can throw returns a [result]. *)
Record Host : Type := {
  (** [fs.existsSync(path)] *)
  existsSync : string -> bool;
  (** [fs.readFileSync(path)], the bytes of the file *)
  readFileSync : string -> result string;
  (** [yaml.safeLoad(data, 'utf8')] *)
  yaml_safeLoad : string -> result value;
  (** [(await import(path)).default] *)
  import_default : string -> result value;
  (** [JSON.parse(text)] *)
  JSON_parse : string -> result value;
  (** [process.env], in enumeration order *)
  process_env : list (string * string);
  (** [process.cwd()] *)
  process_cwd : string
}.

(** [process.env[name]]. *)
Fixpoint env_lookup (name : string) (env : list (string * string))
  : option string :=
  match env with
  | [] => None
  | (k, v) :: env' => if k =? name then Some v else env_lookup name env'
  end.

(** An optional string that passes [if (s)]: present and not empty. *)
Definition nonempty (s : option string) : option string :=
  match s with
  | Some EmptyString | None => None
  | Some _ => s
  end.

(** [a || b] for an optional string and a default. *)
Definition str_or (a : option string) (b : string) : string :=
  match nonempty a with
  | Some s => s
  | None => b
  end.

(* ================================================================= *)
(** ** Options and the loader instance *)

Module LittleConfOptions.
(** The type [LittleConfOptions]: every field is optional. *)
Record t : Type := {
  argv : option obj;
  environmentOverride : option string;
  cliArgumentEnvironment : option string;
  rootDir : option string;
  envVariableEnvironment : option string;
  defaultEnvironment : option string;
  defaultsFilename : option string;
  filenameOverride : option string;
  filename : option string;
  cliArgumentFile : option string;
  envVariableFile : option string;
  projectName : option string
}.

(** The options object [{}]. *)
Definition empty : t :=
  {| argv := None; environmentOverride := None;
     cliArgumentEnvironment := None; rootDir := None;
     envVariableEnvironment := None; defaultEnvironment := None;
     defaultsFilename := None; filenameOverride := None;
     filename := None; cliArgumentFile := None;
     envVariableFile := None; projectName := None |}.
End LittleConfOptions.

(** The fields of a [LittleConf] instance.  The three cached fields are
    undefined until their getter has run. *)
Record LittleConf : Type := {
  options : LittleConfOptions.t;
  projectName : value;
  environment : value;
  rootDir : option string
}.

(** [new LittleConf(options)]. *)
Definition new_LittleConf (o : LittleConfOptions.t) : LittleConf :=
  {| options := o; projectName := VUndefined; environment := VUndefined;
     rootDir := None |}.

(** A file handed to a reader or to the module loader. *)
Inductive event : Type :=
| ReadFile (path : string)
| Import (path : string).

(** What a method of the loader can change: the instance, the log of
    file loads (the call counts of the file-loading collaborators), and
    the number of result objects created so far. *)
Record Run : Type := {
  this : LittleConf;
  trace : list event;
  next_oid : nat
}.

(** A method: it returns or throws, and leaves a state either way. *)
Definition M (A : Type) : Type := Run -> result A * Run.

Definition ret {A} (a : A) : M A := fun st => (Ok a, st).

Definition throw {A} (e : exn) : M A := fun st => (Throw e, st).

Definition bind {A B} (c : M A) (k : A -> M B) : M B :=
  fun st =>
    match c st with
    | (Ok a, st') => k a st'
    | (Throw e, st') => (Throw e, st')
    end.

Declare Scope method_scope.
Delimit Scope method_scope with method.
Bind Scope method_scope with M.
Notation "x <- c ;; k" := (bind c (fun x => k))
  (at level 61, c at next level, right associativity) : method_scope.
Notation "c ;;; k" := (bind c (fun _ => k))
  (at level 61, right associativity) : method_scope.
Open Scope method_scope.

(** A host call that may throw. *)
Definition lift {A} (r : result A) : M A := fun st => (r, st).

Definition get_this : M LittleConf := fun st => (Ok (this st), st).

Definition set_this (f : LittleConf -> LittleConf) : M unit :=
  fun st => (Ok tt, {| this := f (this st); trace := trace st;
                       next_oid := next_oid st |}).

Definition log (e : event) : M unit :=
  fun st => (Ok tt, {| this := this st; trace := (trace st ++ [e])%list;
                       next_oid := next_oid st |}).

(** A number for a newly created object. *)
Definition fresh_oid : M nat :=
  fun st => (Ok (next_oid st), {| this := this st; trace := trace st;
                                   next_oid := S (next_oid st) |}).

Definition read_file (h : Host) (path : string) : M string :=
  log (ReadFile path) ;;; lift (readFileSync h path).

Definition import_module (h : Host) (path : string) : M value :=
  log (Import path) ;;; lift (import_default h path).

(* ================================================================= *)
(** ** The methods of [LittleConf] *)

Section LittleConf_methods.
Context {objtools : Objtools}.
Variable h : Host.

(** [_getCLIArgument(name)]. *)
Definition _getCLIArgument (name : string) : M value :=
  lc <- get_this ;;
  match LittleConfOptions.argv (options lc) with
  | Some args => ret (prop name args)
  | None => ret VUndefined
  end.

(** The loop of [_findProjectRootDir].  Each turn replaces the
    directory by its parent, which is shorter, so the length of the
    starting directory bounds the number of turns (see
    [find_package_json_enough_turns]). *)
Fixpoint find_package_json (turns : nat) (mainModuleDir dir : string)
  : string :=
  if existsSync h (path_join [dir; "package.json"]) then dir
  else
    match turns with
    | O => mainModuleDir
    | S turns' =>
        let lastDir := dir in
        let dir := path_resolve (process_cwd h) [dir; ".."] in
        if dir =? lastDir then mainModuleDir
        else find_package_json turns' mainModuleDir dir
    end.

(** [_findProjectRootDir()]. *)
Definition _findProjectRootDir : M string :=
  lc <- get_this ;;
  match nonempty (LittleConfOptions.rootDir (options lc)) with
  | Some dir => ret dir
  | None =>
      let mainModuleDir := path_resolve (process_cwd h) [process_cwd h] in
      ret (find_package_json (String.length mainModuleDir)
             mainModuleDir mainModuleDir)
  end.

(** [getProjectRootDir()]. *)
Definition getProjectRootDir : M string :=
  lc <- get_this ;;
  match nonempty (rootDir lc) with
  | Some dir => ret dir
  | None =>
      dir <- _findProjectRootDir ;;
      set_this (fun lc => {| options := options lc;
                             projectName := projectName lc;
                             environment := environment lc;
                             rootDir := Some dir |}) ;;;
      ret dir
  end.

Definition ident_char (a : ascii) : bool :=
  Ascii.eqb a "-"%char || Ascii.eqb a "_"%char
  || is_upper a || is_lower a || is_digit a.

(** The scoped-name pattern of [_findProjectName], an [@], a scope, a
    slash and a name, scope and name made of one or more of
    [-_A-Za-z0-9]: the name, when the pattern matches. *)
Definition exec_scoped (name : string) : option string :=
  match name with
  | String "@" rest =>
      match split_on "/" rest with
      | [scope; pkg] =>
          if negb (scope =? "") && string_forallb ident_char scope
             && negb (pkg =? "") && string_forallb ident_char pkg
          then Some pkg else None
      | _ => None
      end
  | _ => None
  end.

(** [pkg.name], for what [JSON.parse] returned. *)
Definition pkg_name (pkg : value) : M value :=
  match pkg with
  | VObj o => ret (prop "name" o)
  | VNull | VUndefined =>
      throw (TypeError "Cannot read properties of null")
  | _ => ret VUndefined
  end.

(** [_findProjectName()]. *)
Definition _findProjectName : M value :=
  lc <- get_this ;;
  name <-
    match nonempty (LittleConfOptions.projectName (options lc)) with
    | Some n => ret (VStr n)
    | None =>
        root <- getProjectRootDir ;;
        let pkgPath := path_join [root; "package.json"] in
        if existsSync h pkgPath then
          text <- read_file h pkgPath ;;
          pkg <- lift (JSON_parse h text) ;;
          n <- pkg_name pkg ;;
          if truthy n then ret n else ret VUndefined
        else ret VUndefined
    end ;;
  if negb (truthy name) then ret (VStr "project")
  else
    match exec_scoped (to_string name) with
    | Some pkg => ret (VStr pkg)
    | None => ret name
    end.

(** [getProjectName()]. *)
Definition getProjectName : M value :=
  lc <- get_this ;;
  if truthy (projectName lc) then ret (projectName lc)
  else
    name <- _findProjectName ;;
    set_this (fun lc => {| options := options lc;
                           projectName := name;
                           environment := environment lc;
                           rootDir := rootDir lc |}) ;;;
    ret name.

(** [this.getProjectName().toUpperCase().replace(/[^A-Z0-9]/g, '_')]:
    only a string has [toUpperCase]. *)
Definition project_prefix : M string :=
  name <- getProjectName ;;
  match name with
  | VStr s => ret (upper_snake s)
  | _ => throw (TypeError "toUpperCase is not a function")
  end.

(** [this.getProjectName() + suffix]. *)
Definition project_file (suffix : string) : M value :=
  name <- getProjectName ;;
  ret (VStr (to_string name ++ suffix)).

(** [_findConfigEnvironment()]. *)
Definition _findConfigEnvironment : M value :=
  lc <- get_this ;;
  let o := options lc in
  match nonempty (LittleConfOptions.environmentOverride o) with
  | Some env => ret (VStr env)
  | None =>
      cliEnv <- _getCLIArgument
                  (str_or (LittleConfOptions.cliArgumentEnvironment o)
                          "config-env") ;;
      if truthy cliEnv then ret cliEnv
      else
        envVarName <-
          match nonempty (LittleConfOptions.envVariableEnvironment o) with
          | Some n => ret n
          | None => p <- project_prefix ;; ret (p ++ "_ENV")
          end ;;
        match nonempty (env_lookup envVarName (process_env h)) with
        | Some env => ret (VStr env)
        | None =>
            match nonempty (env_lookup "NODE_ENV" (process_env h)) with
            | Some env => ret (VStr env)
            | None =>
                ret (VStr (str_or (LittleConfOptions.defaultEnvironment o)
                                  "local"))
            end
        end
  end.

(** [getConfigEnvironment()]. *)
Definition getConfigEnvironment : M value :=
  lc <- get_this ;;
  if truthy (environment lc) then ret (environment lc)
  else
    env <- _findConfigEnvironment ;;
    set_this (fun lc => {| options := options lc;
                           projectName := projectName lc;
                           environment := env;
                           rootDir := rootDir lc |}) ;;;
    ret env.

(** [_loadFile(filename)]; [null] is [None]. *)
Definition _loadFile (filename : option string) : M value :=
  match nonempty filename with
  | None => ret (VObj [])
  | Some filename =>
      if negb (existsSync h filename) then ret (VObj [])
      else if ends_with ".js" filename then import_module h filename
      else
        data <- read_file h filename ;;
        result <- lift (yaml_safeLoad h data) ;;
        if negb (typeof_object result) || negb (truthy result)
        then ret (VObj [])
        else ret result
  end.

(** The local function [removeNulls] of [_mergeConfig], returning the
    object it has pruned in place.  [for ... in] visits the properties
    of an object and the filled slots of an array; deleting a slot
    leaves a hole. *)
Fixpoint removeNulls (v : value) : value :=
  match v with
  | VObj props =>
      VObj ((fix each (l : list (string * value)) : obj :=
               match l with
               | [] => []
               | (key, VNull) :: l' => each l'
               | (key, x) :: l' => (key, removeNulls x) :: each l'
               end) props)
  | VArr elems =>
      VArr ((fix each (l : list (option value)) : list (option value) :=
               match l with
               | [] => []
               | None :: l' | Some VNull :: l' => None :: each l'
               | Some x :: l' => Some (removeNulls x) :: each l'
               end) elems)
  | _ => v
  end.

(** [_mergeConfig(...configs)]. *)
Definition _mergeConfig (configs : list value) : value :=
  let merged := VObj (merge [] configs) in
  removeNulls merged.

(** [Array.isArray(v) ? v : [ v ]], a hole read as undefined. *)
Definition as_array (v : value) : list value :=
  match v with
  | VArr elems =>
      map (fun e => match e with Some x => x | None => VUndefined end) elems
  | _ => [v]
  end.

(** The absolute path of one candidate in one search directory;
    [path.isAbsolute] and [path.resolve] take strings only. *)
Definition absolutePath (searchPath filename : value) : result string :=
  match filename with
  | VStr f =>
      if path_isAbsolute f then Ok f
      else
        match searchPath with
        | VStr d => Ok (path_resolve (process_cwd h) [d; f])
        | _ => Throw (TypeError "The path argument must be of type string")
        end
  | _ => Throw (TypeError "The path argument must be of type string")
  end.

(** The inner loop of [_resolvePath]: the candidates in one
    directory.  [None] when the loop ends without a return. *)
Fixpoint resolve_in (searchPath : value) (filenamesArray : list value)
  : result (option string) :=
  match filenamesArray with
  | [] => Ok None
  | filename :: rest =>
      match absolutePath searchPath filename with
      | Ok p => if existsSync h p then Ok (Some p)
                else resolve_in searchPath rest
      | Throw e => Throw e
      end
  end.

(** The outer loop of [_resolvePath]: the directories. *)
Fixpoint resolve_over (searchPaths filenamesArray : list value)
  : result (option string) :=
  match searchPaths with
  | [] => Ok None
  | searchPath :: rest =>
      match resolve_in searchPath filenamesArray with
      | Ok None => resolve_over rest filenamesArray
      | r => r
      end
  end.

(** [_resolvePath(filenames, searchPaths)]; [null] is [None]. *)
Definition _resolvePath (filenames searchPaths : value)
  : result (option string) :=
  resolve_over (as_array searchPaths) (as_array filenames).
End LittleConf_methods.

(** A result object of [loadConfig]: which object it is, and what it
    holds.  Two results are the identical object exactly when they
    carry the same number. *)
Record config : Type := {
  oid : nat;
  content : value
}.

Section LittleConf_loadConfig.
Context {objtools : Objtools}.
Variable h : Host.

(** [process.env[key]] as a value. *)
Definition env_value (key : string) : value :=
  match env_lookup key (process_env h) with
  | Some s => VStr s
  | None => VUndefined
  end.

Definition opt_value (s : option string) : value :=
  match s with
  | Some s => VStr s
  | None => VUndefined
  end.

(** The loop over [process.env] in [loadConfig]. *)
Definition env_overrides (overrideEnvPrefix : string) (overrides : obj)
  : obj :=
  fold_left
    (fun overrides key =>
       match exec_prefix overrideEnvPrefix key with
       | Some rest => setPath overrides rest (env_value key)
       | None => overrides
       end)
    (map fst (process_env h)) overrides.

(** The loop over [this.options.argv || {}] in [loadConfig].  The value
    of an argument enters the overrides as a tree of its own (see the
    conventions at the head of the file). *)
Definition argv_overrides (args : obj) (overrides : obj) : obj :=
  fold_left
    (fun overrides key =>
       match exec_prefix "config-setting-" key with
       | Some rest => setPath overrides rest (prop key args)
       | None => overrides
       end)
    (keys args) overrides.

(** [objtools.getPath(config, 'environments.' + env) || {}]. *)
Definition environment_block (config env : value) : value :=
  js_or (getPath config ("environments." ++ to_string env)) (VObj []).

(** [delete merged.environments]. *)
Definition delete_environments (merged : value) : value :=
  match merged with
  | VObj props => VObj (delete_prop "environments" props)
  | _ => merged
  end.

(** The first part of [loadConfig]: the defaults file. *)
Definition load_defaults : M value :=
  lc <- get_this ;;
  defaultsFilename <-
    match nonempty (LittleConfOptions.defaultsFilename (options lc)) with
    | Some f => ret (VStr f)
    | None =>
        a <- project_file h "-defaults.conf" ;;
        b <- project_file h "-defaults.conf.js" ;;
        ret (VArr [Some a; Some b])
    end ;;
  root <- getProjectRootDir h ;;
  defaultsFilename <- lift (_resolvePath h defaultsFilename (VStr root)) ;;
  _loadFile h defaultsFilename.

(** The second part of [loadConfig]: the main file. *)
Definition load_main : M value :=
  lc <- get_this ;;
  let o := options lc in
  let mainFilename := opt_value (LittleConfOptions.filenameOverride o) in
  mainFilename <-
    (if negb (truthy mainFilename)
     then _getCLIArgument (str_or (LittleConfOptions.cliArgumentFile o) "c")
     else ret mainFilename) ;;
  mainFilename <-
    (if negb (truthy mainFilename) then
       envVar <-
         match nonempty (LittleConfOptions.envVariableFile o) with
         | Some n => ret n
         | None => p <- project_prefix h ;; ret (p ++ "_CONFIG")
         end ;;
       ret (env_value envVar)
     else ret mainFilename) ;;
  let mainFilename :=
    if negb (truthy mainFilename)
    then opt_value (LittleConfOptions.filename o) else mainFilename in
  mainFilename <-
    (if negb (truthy mainFilename) then
       a <- project_file h ".conf" ;;
       b <- project_file h ".conf.js" ;;
       ret (VArr [Some a; Some b])
     else ret mainFilename) ;;
  root <- getProjectRootDir h ;;
  let configSearchPaths := VArr [Some (VStr root); Some (VStr "/etc")] in
  mainFilename <- lift (_resolvePath h mainFilename configSearchPaths) ;;
  match nonempty mainFilename with
  | Some f => _loadFile h (Some f)
  | None => ret (VObj [])
  end.

(** The third part of [loadConfig]: the overrides, from the process
    environment first and from the command line after. *)
Definition collect_overrides : M obj :=
  let overrides := [] in
  p <- project_prefix h ;;
  let overrideEnvPrefix := p ++ "_CONFIG_" in
  let overrides := env_overrides overrideEnvPrefix overrides in
  lc <- get_this ;;
  let args :=
    match LittleConfOptions.argv (options lc) with
    | Some args => args
    | None => []
    end in
  ret (argv_overrides args overrides).

(** [loadConfig()]. *)
Definition loadConfig : M config :=
  defaultsConfig <- load_defaults ;;
  mainConfig <- load_main ;;
  overrides <- collect_overrides ;;
  env <- getConfigEnvironment h ;;
  id <- fresh_oid ;;
  let merged :=
    _mergeConfig
      [defaultsConfig;
       environment_block defaultsConfig env;
       mainConfig;
       environment_block mainConfig env;
       VObj overrides] in
  ret {| oid := id; content := delete_environments merged |}.
End LittleConf_loadConfig.

(* ================================================================= *)
(** ** [JSON.stringify] and the [sha1] package *)

Definition hex_digit (n : Z) : ascii :=
  if (n <? 10)%Z then ascii_of_nat (48 + Z.to_nat n)
  else ascii_of_nat (87 + Z.to_nat n).

Definition quote_char : ascii := ascii_of_nat 34.
Definition backslash : ascii := ascii_of_nat 92.

(** One character inside a JSON string. *)
Definition json_escape (a : ascii) : string :=
  let n := nat_of_ascii a in
  if (n =? 34)%nat then String backslash (String quote_char "")
  else if (n =? 92)%nat then String backslash (String backslash "")
  else if (n =? 8)%nat then String backslash "b"
  else if (n =? 12)%nat then String backslash "f"
  else if (n =? 10)%nat then String backslash "n"
  else if (n =? 13)%nat then String backslash "r"
  else if (n =? 9)%nat then String backslash "t"
  else if (n <? 32)%nat then
    String backslash
      ("u00" ++ String (hex_digit (Z.of_nat n / 16))
                  (String (hex_digit (Z.of_nat n mod 16)) ""))
  else String a "".

Fixpoint json_escape_all (s : string) : string :=
  match s with
  | EmptyString => EmptyString
  | String a s' => json_escape a ++ json_escape_all s'
  end.

Definition json_quote (s : string) : string :=
  String quote_char (json_escape_all s ++ String quote_char "").

(** [JSON.stringify(v)]; [None] is undefined.  An undefined property is
    left out, an undefined or missing array slot is written [null]. *)
Fixpoint JSON_stringify (v : value) : option string :=
  match v with
  | VUndefined => None
  | VNull => Some "null"
  | VBool true => Some "true"
  | VBool false => Some "false"
  | VNum n => Some (NilZero.string_of_int (Z.to_int n))
  | VStr s => Some (json_quote s)
  | VArr elems =>
      Some ("[" ++
            join ","
              ((fix each (l : list (option value)) : list string :=
                  match l with
                  | [] => []
                  | Some x :: l' =>
                      match JSON_stringify x with
                      | Some s => s
                      | None => "null"
                      end :: each l'
                  | None :: l' => "null" :: each l'
                  end) elems)
            ++ "]")
  | VObj props =>
      Some ("{" ++
            join ","
              ((fix each (l : list (string * value)) : list string :=
                  match l with
                  | [] => []
                  | (k, x) :: l' =>
                      match JSON_stringify x with
                      | Some s => (json_quote k ++ ":" ++ s) :: each l'
                      | None => each l'
                      end
                  end) props)
            ++ "}")
  end.

Module SHA1.
Local Open Scope Z_scope.

Definition w32 (x : Z) : Z := Z.land x 4294967295.

Definition rotl (n x : Z) : Z :=
  w32 (Z.lor (Z.shiftl x n) (Z.shiftr x (32 - n))).

Definition bytes_of_string (s : string) : list Z :=
  map (fun a => Z.of_nat (nat_of_ascii a)) (list_ascii_of_string s).

(** The big-endian bytes of [x], [n] of them. *)
Fixpoint be_bytes (n : nat) (x : Z) : list Z :=
  match n with
  | O => []
  | S n' => (Z.land (Z.shiftr x (8 * Z.of_nat n')) 255) :: be_bytes n' x
  end.

(** The message, a one bit, zero bits up to 56 modulo 64 bytes, and
    the length in bits on 8 bytes. *)
Definition pad (msg : list Z) : list Z :=
  let len := Z.of_nat (List.length msg) in
  let zeros := Z.to_nat ((55 - len) mod 64) in
  (msg ++ [128] ++ repeat 0 zeros ++ be_bytes 8 (8 * len))%list.

(** Big-endian 32-bit words of a byte list. *)
Fixpoint words (n : nat) (bytes : list Z) : list Z :=
  match n with
  | O => []
  | S n' =>
      match bytes with
      | a :: b :: c :: d :: rest =>
          (Z.shiftl a 24 + Z.shiftl b 16 + Z.shiftl c 8 + d) :: words n' rest
      | _ => []
      end
  end.

Definition state : Type := Z * Z * Z * Z * Z.

Definition round_f (t : nat) (b c d : Z) : Z :=
  if (t <? 20)%nat then Z.lor (Z.land b c) (Z.land (w32 (Z.lnot b)) d)
  else if (t <? 40)%nat then Z.lxor (Z.lxor b c) d
  else if (t <? 60)%nat then
    Z.lor (Z.lor (Z.land b c) (Z.land b d)) (Z.land c d)
  else Z.lxor (Z.lxor b c) d.

Definition round_k (t : nat) : Z :=
  if (t <? 20)%nat then 1518500249
  else if (t <? 40)%nat then 1859775393
  else if (t <? 60)%nat then 2400959708
  else 3395469782.

(** [n] rounds from round [t]; [w] holds the sixteen schedule words
    from [t] on. *)
Fixpoint rounds (n t : nat) (w : list Z) (s : state) : state :=
  match n with
  | O => s
  | S n' =>
      match w with
      | w0 :: rest =>
          let '(a, b, c, d, e) := s in
          let temp := w32 (rotl 5 a + round_f t b c d + e + round_k t + w0) in
          let next :=
            rotl 1 (Z.lxor (Z.lxor (nth 13 w 0) (nth 8 w 0))
                           (Z.lxor (nth 2 w 0) w0)) in
          rounds n' (S t) (rest ++ [next])%list (temp, a, rotl 30 b, c, d)
      | [] => s
      end
  end.

Definition block (s : state) (w : list Z) : state :=
  let '(a, b, c, d, e) := s in
  let '(a', b', c', d', e') := rounds 80 0 w s in
  (w32 (a + a'), w32 (b + b'), w32 (c + c'), w32 (d + d'), w32 (e + e')).

Fixpoint blocks (n : nat) (ws : list Z) (s : state) : state :=
  match n with
  | O => s
  | S n' => blocks n' (skipn 16 ws) (block s (firstn 16 ws))
  end.

Definition initial : state :=
  (1732584193, 4023233417, 2562383102, 271733878, 3285377520).

Fixpoint hex (digits : nat) (x : Z) : string :=
  match digits with
  | O => EmptyString
  | S d' => String (hex_digit (Z.land (Z.shiftr x (4 * Z.of_nat d')) 15))
                   (hex d' x)
  end.

(** [sha1(message)] of the package [sha1]: the SHA-1 digest of the
    bytes of the message, in lower-case hexadecimal. *)
Definition sha1 (message : string) : string :=
  let bytes := pad (bytes_of_string message) in
  let n := (List.length bytes / 64)%nat in
  let '(a, b, c, d, e) := blocks n (words (16 * n) bytes) initial in
  (hex 8 a ++ hex 8 b ++ hex 8 c ++ hex 8 d ++ hex 8 e)%string.
End SHA1.

(* ================================================================= *)
(** ** [getConfig] and its process-wide cache *)

(** An options object read at the type [LittleConfOptions]: a field is
    an optional string, [argv] an optional object. *)
Definition string_field (k : string) (o : obj) : option string :=
  match get_prop k o with
  | Some (VStr s) => Some s
  | _ => None
  end.

Definition object_field (k : string) (o : obj) : option obj :=
  match get_prop k o with
  | Some (VObj p) => Some p
  | _ => None
  end.

Definition options_of_object (o : obj) : LittleConfOptions.t :=
  {| LittleConfOptions.argv := object_field "argv" o;
     LittleConfOptions.environmentOverride :=
       string_field "environmentOverride" o;
     LittleConfOptions.cliArgumentEnvironment :=
       string_field "cliArgumentEnvironment" o;
     LittleConfOptions.rootDir := string_field "rootDir" o;
     LittleConfOptions.envVariableEnvironment :=
       string_field "envVariableEnvironment" o;
     LittleConfOptions.defaultEnvironment :=
       string_field "defaultEnvironment" o;
     LittleConfOptions.defaultsFilename := string_field "defaultsFilename" o;
     LittleConfOptions.filenameOverride := string_field "filenameOverride" o;
     LittleConfOptions.filename := string_field "filename" o;
     LittleConfOptions.cliArgumentFile := string_field "cliArgumentFile" o;
     LittleConfOptions.envVariableFile := string_field "envVariableFile" o;
     LittleConfOptions.projectName := string_field "projectName" o |}.

(** The module-level state of [index.ts], with the log of file loads
    and the count of result objects of the process. *)
Record Process : Type := {
  configCache : list (string * config);
  fileLoads : list event;
  objects : nat
}.

(** The state of a process that has not called [getConfig] yet. *)
Definition start : Process :=
  {| configCache := []; fileLoads := []; objects := 0 |}.

(** [configCache[optionsHash]]. *)
Fixpoint cache_lookup (optionsHash : string) (cache : list (string * config))
  : option config :=
  match cache with
  | [] => None
  | (k, c) :: cache' =>
      if k =? optionsHash then Some c else cache_lookup optionsHash cache'
  end.

(** [configCache[optionsHash] = c]. *)
Fixpoint cache_store (optionsHash : string) (c : config)
  (cache : list (string * config)) : list (string * config) :=
  match cache with
  | [] => [(optionsHash, c)]
  | (k, c') :: cache' =>
      if k =? optionsHash then (k, c) :: cache'
      else (k, c') :: cache_store optionsHash c cache'
  end.

(** [sha1(JSON.stringify(options))]. *)
Definition options_hash (options : obj) : string :=
  SHA1.sha1 (match JSON_stringify (VObj options) with
             | Some s => s
             | None => "undefined"
             end).

(** A call of [getConfig] that has reached its [await], or has returned
    before it: it has found its configuration in the cache, or it has
    missed and holds what its own [loadConfig] settles with. *)
Inductive pending : Type :=
| Hit (c : config)
| Loaded (optionsHash : string) (r : result config).

Section getConfig.
Context {objtools : Objtools}.

(** [getConfig(options)], called in the host [h] and run to its return
    before another call starts.  A cached result is an object, which is
    truthy. *)
Definition getConfig (h : Host) (options : obj) (p : Process)
  : result config * Process :=
  let optionsHash := options_hash options in
  match cache_lookup optionsHash (configCache p) with
  | Some c => (Ok c, p)
  | None =>
      let lc := new_LittleConf (options_of_object options) in
      match loadConfig h {| this := lc; trace := fileLoads p;
                            next_oid := objects p |} with
      | (Ok c, st) =>
          (Ok c, {| configCache := cache_store optionsHash c (configCache p);
                    fileLoads := trace st;
                    objects := next_oid st |})
      | (Throw e, st) =>
          (Throw e, {| configCache := configCache p;
                       fileLoads := trace st;
                       objects := next_oid st |})
      end
  end.

(** [getConfig(options)] up to the [await] of line 14: the hash, the
    test of the cache and, on a miss, the load on a new instance.
    Nothing is stored yet. *)
Definition getConfig_begin (h : Host) (options : obj) (p : Process)
  : pending * Process :=
  let optionsHash := options_hash options in
  match cache_lookup optionsHash (configCache p) with
  | Some c => (Hit c, p)
  | None =>
      let lc := new_LittleConf (options_of_object options) in
      let (r, st) := loadConfig h {| this := lc; trace := fileLoads p;
                                     next_oid := objects p |} in
      (Loaded optionsHash r,
       {| configCache := configCache p;
          fileLoads := trace st;
          objects := next_oid st |})
  end.

(** [getConfig(options)] from the [await] on: the assignment of line 14,
    which does not test the cache again, and the return of line 15.  A
    load that has thrown is thrown again and nothing is assigned. *)
Definition getConfig_end (w : pending) (p : Process)
  : result config * Process :=
  match w with
  | Hit c => (Ok c, p)
  | Loaded optionsHash (Ok c) =>
      (Ok c, {| configCache := cache_store optionsHash c (configCache p);
                fileLoads := fileLoads p;
                objects := objects p |})
  | Loaded optionsHash (Throw e) => (Throw e, p)
  end.
End getConfig.

(** Deep equality of two values: the same shape and the same leaves,
    whatever the order of the keys of an object. *)
Fixpoint deep_equal (a b : value) {struct a} : bool :=
  match a, b with
  | VUndefined, VUndefined => true
  | VNull, VNull => true
  | VBool x, VBool y => Bool.eqb x y
  | VNum x, VNum y => (x =? y)%Z
  | VStr x, VStr y => (x =? y)%string
  | VArr xs, VArr ys =>
      (fix each (xs ys : list (option value)) : bool :=
         match xs, ys with
         | [], [] => true
         | Some x :: xs', Some y :: ys' => deep_equal x y && each xs' ys'
         | None :: xs', None :: ys' => each xs' ys'
         | _, _ => false
         end) xs ys
  | VObj xs, VObj ys =>
      (List.length xs =? List.length ys)%nat
      && (fix each (xs : list (string * value)) : bool :=
            match xs with
            | [] => true
            | (k, x) :: xs' =>
                match get_prop k ys with
                | Some y => deep_equal x y && each xs'
                | None => false
                end
            end) xs
  | _, _ => false
  end.

(* ================================================================= *)
(** ** A small project to run the loader on *)

Module Example.
(** The files of the project, by path: what each one is parsed or
    loaded into. *)
Definition files : Type := list (string * result value).

Fixpoint file (path : string) (fs : files) : option (result value) :=
  match fs with
  | [] => None
  | (p, r) :: fs' => if p =? path then Some r else file path fs'
  end.

(** A host whose files are [fs]: reading a file returns its path as
    its bytes, and every loader looks the parsed content up. *)
Definition host (fs : files) (env : list (string * string)) : Host :=
  let parse (data : string) : result value :=
    match file data fs with
    | Some r => r
    | None => Throw (HostError "ENOENT")
    end in
  {| existsSync := fun p => match file p fs with
                            | Some _ => true
                            | None => false
                            end;
     readFileSync := fun p => match file p fs with
                              | Some _ => Ok p
                              | None => Throw (HostError "ENOENT")
                              end;
     yaml_safeLoad := parse;
     import_default := parse;
     JSON_parse := parse;
     process_env := env;
     process_cwd := "/srv/app" |}.

(** Options naming the project and its root, so that no manifest is
    looked for. *)
Definition named (name : string) : obj :=
  [("projectName", VStr name); ("rootDir", VStr "/srv/app")].

Definition run (fs : files) (env : list (string * string)) (o : obj)
  : result config * Run :=
  loadConfig (host fs env)
    {| this := new_LittleConf (options_of_object o);
       trace := []; next_oid := 0 |}.
End Example.

(* ================================================================= *)
(** ** Definitions for the statements

    The predicates, the specification-side functions and the small
    projects that the theorems below are stated with. *)

(** *** The pruning pass, list by list *)

(** The properties of an object whose null properties were pruned. *)
Fixpoint removeNulls_props (l : obj) : obj :=
  match l with
  | [] => []
  | (key, VNull) :: l' => removeNulls_props l'
  | (key, x) :: l' => (key, removeNulls x) :: removeNulls_props l'
  end.

(** The slots of an array whose null slots were pruned. *)
Fixpoint removeNulls_elems (l : list (option value)) : list (option value) :=
  match l with
  | [] => []
  | None :: l' | Some VNull :: l' => None :: removeNulls_elems l'
  | Some x :: l' => Some (removeNulls x) :: removeNulls_elems l'
  end.

(** No property and no array slot of [v], at any depth, holds null. *)
Fixpoint no_null_inside (v : value) : bool :=
  match v with
  | VObj props =>
      (fix each (l : list (string * value)) : bool :=
         match l with
         | [] => true
         | (_, VNull) :: _ => false
         | (_, x) :: l' => no_null_inside x && each l'
         end) props
  | VArr elems =>
      (fix each (l : list (option value)) : bool :=
         match l with
         | [] => true
         | Some VNull :: _ => false
         | Some x :: l' => no_null_inside x && each l'
         | None :: l' => each l'
         end) elems
  | _ => true
  end.

(** [no_null_inside] on the properties of an object. *)
Fixpoint no_null_props (l : obj) : bool :=
  match l with
  | [] => true
  | (_, VNull) :: _ => false
  | (_, x) :: l' => no_null_inside x && no_null_props l'
  end.

(** [no_null_inside] on the slots of an array. *)
Fixpoint no_null_elems (l : list (option value)) : bool :=
  match l with
  | [] => true
  | Some VNull :: _ => false
  | Some x :: l' => no_null_inside x && no_null_elems l'
  | None :: l' => no_null_elems l'
  end.

(** A mapping, as opposed to an array or a scalar. *)
Definition is_mapping (v : value) : bool :=
  match v with
  | VObj _ => true
  | _ => false
  end.

(** *** Path resolution *)

(** An array of strings. *)
Definition strings (l : list string) : value :=
  VArr (map (fun s => Some (VStr s)) l).

(** The absolute path of the candidate [f] in the directory [d]: the
    candidate as it is when absolute, else joined to the directory. *)
Definition candidate_path (h : Host) (d f : string) : string :=
  if path_isAbsolute f then f else path_resolve (process_cwd h) [d; f].

(** Every pair of a directory and a candidate, directory by directory. *)
Definition candidates (h : Host) (dirs files : list string) : list string :=
  flat_map (fun d => map (candidate_path h d) files) dirs.

(** *** The configuration environment *)

(** The value of a command-line argument, undefined when there is no
    [argv] or no such argument. *)
Definition cli_argument (o : LittleConfOptions.t) (name : string) : value :=
  match LittleConfOptions.argv o with
  | Some args => prop name args
  | None => VUndefined
  end.

(** The priority chain as the specification words it, for a project
    named [project]: the first of the five mechanisms that supplies a
    value wins.  A string is supplied when it is present and not empty,
    a command-line value when it passes [if (value)]. *)
Definition environment_chain (o : LittleConfOptions.t)
  (env : list (string * string)) (project : string) : value :=
  match nonempty (LittleConfOptions.environmentOverride o) with
  | Some e => VStr e
  | None =>
      let cli :=
        cli_argument o
          (str_or (LittleConfOptions.cliArgumentEnvironment o) "config-env") in
      if truthy cli then cli
      else
        let variable :=
          str_or (LittleConfOptions.envVariableEnvironment o)
                 (upper_snake project ++ "_ENV") in
        match nonempty (env_lookup variable env) with
        | Some e => VStr e
        | None =>
            match nonempty (env_lookup "NODE_ENV" env) with
            | Some e => VStr e
            | None =>
                VStr (str_or (LittleConfOptions.defaultEnvironment o) "local")
            end
        end
  end.

(** Whether the chain is settled, or its variable named, without the
    project name. *)
Definition settled_without_project (o : LittleConfOptions.t) : bool :=
  match nonempty (LittleConfOptions.environmentOverride o) with
  | Some _ => true
  | None =>
      truthy (cli_argument o
                (str_or (LittleConfOptions.cliArgumentEnvironment o)
                        "config-env"))
      || match nonempty (LittleConfOptions.envVariableEnvironment o) with
         | Some _ => true
         | None => false
         end
  end.

(** *** Invariants of the instance *)

(** [keeps P c]: the method [c] keeps the property [P] of the instance,
    whether it returns or throws. *)
Definition keeps (P : LittleConf -> Prop) {A} (c : M A) : Prop :=
  forall st, P (this st) -> P (this (snd (c st))).

(** The instance belongs to the project [name], given by the options
    [o]: its options are [o], and its cached name, once there, is
    [name]. *)
Definition of_project (o : LittleConfOptions.t) (name : string)
  (lc : LittleConf) : Prop :=
  options lc = o
  /\ (truthy (projectName lc) = true -> projectName lc = VStr name).

(** The name that [_findProjectName] makes of a [projectName] option. *)
Definition option_name (n : string) : string :=
  match exec_scoped n with
  | Some pkg => pkg
  | None => n
  end.

(** The state after one more file was handed to a loader. *)
Definition logged (e : event) (st : Run) : Run :=
  {| this := this st; trace := (trace st ++ [e])%list;
     next_oid := next_oid st |}.

(** The one event that [_loadFile] logs for a file that exists: the
    module loader for a name ending in [.js], a read otherwise. *)
Definition load_event (f : string) : event :=
  if ends_with ".js" f then Import f else ReadFile f.

(** *** Overrides *)

(** One turn of a loop of [loadConfig] that collects overrides: [prefix]
    is what the key must start with, [val] reads the value of a key. *)
Definition override_step `{Objtools} (prefix : string) (val : string -> value)
  (overrides : obj) (key : string) : obj :=
  match exec_prefix prefix key with
  | Some rest => setPath overrides rest (val key)
  | None => overrides
  end.

(** The environment variable that overrides the setting at the dotted
    path [rest] in the project [name]. *)
Definition override_variable (name rest : string) : string :=
  (upper_snake name ++ "_CONFIG_") ++ rest.

(** The first segment of a dotted path: the top-level key that an
    assignment at this path writes under. *)
Definition first_segment (path : string) : string :=
  hd "" (split_on "." path).

(** [this.options.argv || {}]. *)
Definition argv_or_empty (o : LittleConfOptions.t) : obj :=
  match LittleConfOptions.argv o with
  | Some args => args
  | None => []
  end.

(** *** Normalized directories *)

(** A segment without a slash. *)
Definition no_slash (s : string) : bool :=
  string_forallb (fun a => negb (Ascii.eqb a "/"%char)) s.

(** A segment of a normalized path. *)
Definition clean (s : string) : bool :=
  no_slash s && negb (s =? "") && negb (s =? ".") && negb (s =? "..").

(** The absolute path made of the segments [segs]. *)
Definition abs_path (segs : list string) : string := "/" ++ join "/" segs.

(** The directories that the loop of [_findProjectRootDir] visits, from
    the deepest up to the root: the first one that holds a manifest. *)
Fixpoint first_manifest (h : Host) (mainModuleDir : string)
  (rev_segs : list string) : string :=
  let dir := abs_path (rev rev_segs) in
  if existsSync h (path_join [dir; "package.json"]) then dir
  else
    match rev_segs with
    | [] => mainModuleDir
    | _ :: up => first_manifest h mainModuleDir up
    end.

(** *** Projects for the worked examples *)

(** A project in which the defaults file, the main file, the process
    environment and the command line all bring an [environments] key. *)
Definition environments_everywhere : Host :=
  Example.host
    [("/srv/app/app-defaults.conf",
      Ok (VObj [("port", VNum 80);
                ("environments", VObj [("local", VObj [("port", VNum 81)])])]));
     ("/srv/app/app.conf",
      Ok (VObj [("environments", VObj [("local", VObj [("host", VStr "x")])])]))]
    [("APP_CONFIG_environments.local.port", "82")].

Definition environments_everywhere_start : Run :=
  {| this :=
       new_LittleConf
         (options_of_object
            (Example.named "app"
             ++ [("argv",
                  VObj [("config-setting-environments.extra", VBool true)])])%list);
     trace := []; next_oid := 0 |}.

(** A project [myapp] whose main file sets [db.host] and [db.port]. *)
Definition myapp_files : Example.files :=
  [("/srv/app/myapp.conf",
    Ok (VObj [("db", VObj [("host", VStr "file"); ("port", VNum 5432)])]))].

(** The project [myapp] with three override variables in its process
    environment, and a loader of it with one override on its command
    line. *)
Definition several_overrides : Host :=
  Example.host myapp_files
    [("NODE_ENV", "production");
     ("MYAPP_CONFIG_log.level", "debug");
     ("MYAPP_CONFIG_db.host", "foo");
     ("MYAPP_CONFIG_cache", "off")].

Definition myapp_start : Run :=
  {| this := new_LittleConf
               (options_of_object
                  (Example.named "myapp"
                   ++ [("argv", VObj [("config-setting-port", VNum 8080)])])%list);
     trace := []; next_oid := 0 |}.

(** A loader whose defaults file is the absolute path [f]. *)
Definition defaults_at (f root : string) : LittleConfOptions.t :=
  {| LittleConfOptions.argv := None;
     LittleConfOptions.environmentOverride := None;
     LittleConfOptions.cliArgumentEnvironment := None;
     LittleConfOptions.rootDir := Some root;
     LittleConfOptions.envVariableEnvironment := None;
     LittleConfOptions.defaultEnvironment := None;
     LittleConfOptions.defaultsFilename := Some f;
     LittleConfOptions.filenameOverride := None;
     LittleConfOptions.filename := None;
     LittleConfOptions.cliArgumentFile := None;
     LittleConfOptions.envVariableFile := None;
     LittleConfOptions.projectName := None |}.

(** A project with a defaults file and a main file. *)
Definition app_host : Host :=
  Example.host
    [("/srv/app/app-defaults.conf", Ok (VObj [("port", VNum 80)]));
     ("/srv/app/app.conf", Ok (VObj [("host", VStr "x")]))]
    [].

(** The same two options, written in the two possible orders. *)
Definition name_then_root : obj :=
  [("projectName", VStr "app"); ("rootDir", VStr "/srv/app")].

Definition root_then_name : obj :=
  [("rootDir", VStr "/srv/app"); ("projectName", VStr "app")].

(** A project whose main file does not parse, and the same project
    once the file is repaired. *)
Definition broken_host : Host :=
  Example.host [("/srv/app/app.conf", Throw (HostError "YAMLException"))] [].


(** A project whose defaults module fails to load. *)
Definition broken_module_host : Host :=
  Example.host
    [("/srv/app/app-defaults.conf.js", Throw (HostError "SyntaxError"));
     ("/srv/app/app.conf", Ok (VObj [("host", VStr "x")]))] [].

(** A project named by its manifest, whose defaults file loads and
    whose main file does not parse, and a loader without options. *)
Definition unparsed_main_host : Host :=
  Example.host
    [("/srv/app/package.json", Ok (VObj [("name", VStr "@acme/web-app")]));
     ("/srv/app/web-app-defaults.conf", Ok (VObj [("port", VNum 80)]));
     ("/srv/app/web-app.conf", Throw (HostError "YAMLException"))] [].

Definition fresh_loader : Run :=
  {| this := new_LittleConf LittleConfOptions.empty;
     trace := []; next_oid := 0 |}.

(** *** Definitions for the further properties *)

(** A character of [A-Z0-9_]. *)
Definition env_name_char (a : ascii) : bool :=
  is_upper a || is_digit a || Ascii.eqb a "_"%char.

(** A cached value that is there stays what it is. *)
Definition kept_value (a b : value) : Prop := truthy a = true -> b = a.

(** A cached directory that is there stays what it is. *)
Definition kept_dir (a b : option string) : Prop :=
  nonempty a <> None -> b = a.

(** From [lc] to [lc']: only the cached root directory may have been
    filled in. *)
Definition fills_root (lc lc' : LittleConf) : Prop :=
  options lc' = options lc
  /\ projectName lc' = projectName lc
  /\ environment lc' = environment lc
  /\ kept_dir (rootDir lc) (rootDir lc').

(** From [lc] to [lc']: only the cached name and root directory may
    have been filled in. *)
Definition fills_name (lc lc' : LittleConf) : Prop :=
  options lc' = options lc
  /\ kept_value (projectName lc) (projectName lc')
  /\ environment lc' = environment lc
  /\ kept_dir (rootDir lc) (rootDir lc').

(** From [lc] to [lc']: the options are the same, and a cached name,
    environment or root directory that was there is the same. *)
Definition fills_cache (lc lc' : LittleConf) : Prop :=
  options lc' = options lc
  /\ kept_value (projectName lc) (projectName lc')
  /\ kept_value (environment lc) (environment lc')
  /\ kept_dir (rootDir lc) (rootDir lc').

(** [follows R c]: the instance after the method [c] is related by [R]
    to the instance before, whether [c] returns or throws. *)
Definition follows (R : LittleConf -> LittleConf -> Prop) {A} (c : M A)
  : Prop :=
  forall st, R (this st) (this (snd (c st))).

(** [existsSync(path.join(dir, 'package.json'))]. *)
Definition has_manifest (h : Host) (dir : string) : bool :=
  existsSync h (path_join [dir; "package.json"]).

(** A directory given by its segments, last first, and the directories
    above it, up to the root. *)
Fixpoint ancestors (rev_segs : list string) : list string :=
  abs_path (rev rev_segs)
  :: match rev_segs with
     | [] => []
     | _ :: up => ancestors up
     end.

(** The segments of the working directory, once resolved. *)
Definition cwd_segments (h : Host) : list string :=
  normalize_segments false [] (split_on "/" (process_cwd h ++ "/")).

(** A host that differs from [h] by its working directory. *)
Definition in_directory (cwd : string) (h : Host) : Host :=
  {| existsSync := existsSync h;
     readFileSync := readFileSync h;
     yaml_safeLoad := yaml_safeLoad h;
     import_default := import_default h;
     JSON_parse := JSON_parse h;
     process_env := process_env h;
     process_cwd := cwd |}.

(** What [_findProjectName] makes of the name it has found, if any:
    [project] for nothing, the name after the scope for a scoped name,
    and the name itself otherwise. *)
Definition project_name_of (name : value) : value :=
  if truthy name then
    match exec_scoped (to_string name) with
    | Some pkg => VStr pkg
    | None => name
    end
  else VStr "project".

(** The manifest of the directory [root]. *)
Definition manifest (root : string) : string :=
  path_join [root; "package.json"].

(** The state whose instance has [name] as its cached project name. *)
Definition named_run (name : value) (st : Run) : Run :=
  {| this := {| options := options (this st);
                projectName := name;
                environment := environment (this st);
                rootDir := rootDir (this st) |};
     trace := trace st;
     next_oid := next_oid st |}.

(** A project whose manifest is [pkg], in the directory [/srv/app]. *)
Definition manifest_host (pkg : result value) : Host :=
  Example.host [("/srv/app/package.json", pkg)] [].

(** A loader that knows its root directory and nothing else. *)
Definition rooted : Run :=
  {| this := new_LittleConf
               (options_of_object [("rootDir", VStr "/srv/app")]);
     trace := []; next_oid := 0 |}.

(** The instance of a loader whose options [o] give the project name
    and the root directory: what it has cached agrees with them. *)
Definition configured (o : LittleConfOptions.t) (name root : string)
  (lc : LittleConf) : Prop :=
  options lc = o
  /\ (truthy (projectName lc) = true -> projectName lc = VStr name)
  /\ (nonempty (rootDir lc) <> None -> rootDir lc = Some root).

(** The defaults file that [loadConfig] looks for: the option, else the
    two names made from the project name. *)
Definition defaults_filename (o : LittleConfOptions.t) (name : string)
  : value :=
  match nonempty (LittleConfOptions.defaultsFilename o) with
  | Some f => VStr f
  | None => VArr [Some (VStr (name ++ "-defaults.conf"));
                  Some (VStr (name ++ "-defaults.conf.js"))]
  end.

(** The main file that [loadConfig] looks for, first match winning: the
    [filenameOverride] option, the command-line argument, the
    environment variable, the [filename] option, and the two names made
    from the project name. *)
Definition main_filename (o : LittleConfOptions.t)
  (env : list (string * string)) (name : string) : value :=
  let f := match LittleConfOptions.filenameOverride o with
           | Some s => VStr s
           | None => VUndefined
           end in
  if truthy f then f
  else
    let f := cli_argument o (str_or (LittleConfOptions.cliArgumentFile o) "c") in
    if truthy f then f
    else
      let variable := str_or (LittleConfOptions.envVariableFile o)
                             (upper_snake name ++ "_CONFIG") in
      let f := match env_lookup variable env with
               | Some s => VStr s
               | None => VUndefined
               end in
      if truthy f then f
      else
        let f := match LittleConfOptions.filename o with
                 | Some s => VStr s
                 | None => VUndefined
                 end in
        if truthy f then f
        else VArr [Some (VStr (name ++ ".conf"));
                   Some (VStr (name ++ ".conf.js"))].

(** What [_loadFile] returns for a path, apart from the log. *)
Definition file_content (h : Host) (filename : option string) : result value :=
  fst (_loadFile h filename
         {| this := new_LittleConf LittleConfOptions.empty;
            trace := []; next_oid := 0 |}).

(** Whether a key starts with the prefix of an override. *)
Definition matches (prefix key : string) : bool :=
  match exec_prefix prefix key with
  | Some _ => true
  | None => false
  end.

(** A project with a main file in [/etc] only, and one that an
    environment variable points at. *)
Definition etc_host : Host :=
  Example.host
    [("/etc/app.conf", Ok (VObj [("from", VStr "etc")]));
     ("/opt/other.conf", Ok (VObj [("from", VStr "variable")]))]
    [("APP_CONFIG", "/opt/other.conf")].

(* ================================================================= *)
(** ** Properties of objects *)

Lemma get_set_same (k : string) (v : value) (o : obj) :
  get_prop k (set_prop k v o) = Some v.
Proof.
  induction o as [|[k' v'] o IH]; simpl.
  - now rewrite String.eqb_refl.
  - destruct (k' =? k) eqn:E; simpl.
    + now rewrite String.eqb_refl.
    + now rewrite E.
Qed.

Lemma get_set_other (k k' : string) (v : value) (o : obj) :
  k <> k' -> get_prop k' (set_prop k v o) = get_prop k' o.
Proof.
  intros Hne. induction o as [|[k0 v0] o IH]; simpl.
  - destruct (k =? k') eqn:E; [apply String.eqb_eq in E; contradiction | easy].
  - destruct (k0 =? k) eqn:E; simpl.
    + apply String.eqb_eq in E; subst k0.
      destruct (k =? k') eqn:E'; [apply String.eqb_eq in E'; contradiction|easy].
    + destruct (k0 =? k'); [easy | apply IH].
Qed.

Lemma get_delete_same (k : string) (o : obj) :
  get_prop k (delete_prop k o) = None.
Proof.
  induction o as [|[k' v'] o IH]; simpl; [easy|].
  destruct (k' =? k) eqn:E; simpl; [easy | now rewrite E].
Qed.

Lemma get_delete_other (k k' : string) (o : obj) :
  k <> k' -> get_prop k' (delete_prop k o) = get_prop k' o.
Proof.
  intros Hne. induction o as [|[k0 v0] o IH]; simpl; [easy|].
  destruct (k0 =? k) eqn:E; simpl.
  - apply String.eqb_eq in E; subst k0.
    destruct (k =? k') eqn:E'; [apply String.eqb_eq in E'; contradiction|easy].
  - destruct (k0 =? k'); [easy | apply IH].
Qed.

Lemma get_prop_absent (k : string) (o : obj) :
  ~ In k (keys o) -> get_prop k o = None.
Proof.
  induction o as [|[k' v'] o IH]; simpl; [easy|].
  intros Hn. destruct (k' =? k) eqn:E.
  - apply String.eqb_eq in E. tauto.
  - apply IH. tauto.
Qed.

Lemma get_prop_present (k : string) (o : obj) (v : value) :
  get_prop k o = Some v -> In k (keys o).
Proof.
  induction o as [|[k' v'] o IH]; simpl; [discriminate|].
  destruct (k' =? k) eqn:E.
  - apply String.eqb_eq in E. now left.
  - intros H. right. now apply IH.
Qed.

Lemma removeNulls_obj (props : obj) :
  removeNulls (VObj props) = VObj (removeNulls_props props).
Proof. reflexivity. Qed.

Lemma removeNulls_arr (elems : list (option value)) :
  removeNulls (VArr elems) = VArr (removeNulls_elems elems).
Proof. reflexivity. Qed.

Lemma no_null_inside_obj (props : obj) :
  no_null_inside (VObj props) = no_null_props props.
Proof. reflexivity. Qed.

Lemma no_null_inside_arr (elems : list (option value)) :
  no_null_inside (VArr elems) = no_null_elems elems.
Proof. reflexivity. Qed.

Lemma removeNulls_props_cons (k : string) (x : value) (l : obj) :
  x <> VNull ->
  removeNulls_props ((k, x) :: l) = (k, removeNulls x) :: removeNulls_props l.
Proof. destruct x; try congruence; reflexivity. Qed.

Lemma removeNulls_elems_cons (x : value) (l : list (option value)) :
  x <> VNull ->
  removeNulls_elems (Some x :: l) = Some (removeNulls x) :: removeNulls_elems l.
Proof. destruct x; try congruence; reflexivity. Qed.

Lemma no_null_props_cons (k : string) (x : value) (l : obj) :
  x <> VNull ->
  no_null_props ((k, removeNulls x) :: l)
  = no_null_inside (removeNulls x) && no_null_props l.
Proof. destruct x; try congruence; reflexivity. Qed.

Lemma no_null_elems_cons (x : value) (l : list (option value)) :
  x <> VNull ->
  no_null_elems (Some (removeNulls x) :: l)
  = no_null_inside (removeNulls x) && no_null_elems l.
Proof. destruct x; try congruence; reflexivity. Qed.

Lemma value_null_dec (v : value) : {v = VNull} + {v <> VNull}.
Proof. destruct v; (now left) || (right; discriminate). Qed.

Lemma removeNulls_no_null (v : value) : no_null_inside (removeNulls v) = true.
Proof.
  induction v as [| | | | |elems IH|props IH] using value_ind'; try reflexivity.
  - rewrite removeNulls_arr, no_null_inside_arr.
    induction IH as [|e l He Hl IHl]; [reflexivity|].
    destruct e as [x|]; [|exact IHl].
    destruct (value_null_dec x) as [->|Hx]; [exact IHl|].
    rewrite removeNulls_elems_cons, no_null_elems_cons by assumption.
    now rewrite (He x eq_refl), IHl.
  - rewrite removeNulls_obj, no_null_inside_obj.
    induction IH as [|[k x] l Hx Hl IHl]; [reflexivity|].
    destruct (value_null_dec x) as [->|Hn]; [exact IHl|].
    rewrite removeNulls_props_cons, no_null_props_cons by assumption.
    simpl in Hx. now rewrite Hx, IHl.
Qed.

(** Pruning removes the null properties and nothing else. *)
Lemma get_removeNulls_props (k : string) (o : obj) (x : value) :
  get_prop k o = Some x -> x <> VNull ->
  get_prop k (removeNulls_props o) = Some (removeNulls x).
Proof.
  intros G Hx. induction o as [|[k' y] o IH]; simpl in G; [discriminate|].
  destruct (k' =? k) eqn:E.
  - injection G as ->. rewrite removeNulls_props_cons by assumption.
    simpl. now rewrite E.
  - destruct (value_null_dec y) as [->|Hy]; [now apply IH|].
    rewrite removeNulls_props_cons by assumption. simpl. rewrite E. now apply IH.
Qed.

Lemma get_removeNulls_props_none (k : string) (o : obj) :
  get_prop k o = None -> get_prop k (removeNulls_props o) = None.
Proof.
  induction o as [|[k' y] o IH]; intros G; simpl in G; [easy|].
  destruct (k' =? k) eqn:E; [discriminate|].
  destruct (value_null_dec y) as [->|Hy]; [now apply IH|].
  rewrite removeNulls_props_cons by assumption. simpl. rewrite E. now apply IH.
Qed.

(* ================================================================= *)
(** ** Reasoning about methods *)

Lemma bind_Ok {A B} (c : M A) (k : A -> M B) (st st' : Run) (b : B) :
  bind c k st = (Ok b, st') ->
  exists a st1, c st = (Ok a, st1) /\ k a st1 = (Ok b, st').
Proof.
  unfold bind. destruct (c st) as [[a|e] st1]; [eauto | discriminate].
Qed.

Lemma bind_Throw {A B} (c : M A) (k : A -> M B) (st st' : Run) (e : exn) :
  bind c k st = (Throw e, st') ->
  c st = (Throw e, st')
  \/ exists a st1, c st = (Ok a, st1) /\ k a st1 = (Throw e, st').
Proof.
  unfold bind. destruct (c st) as [[a|e'] st1]; [eauto | intros [= -> ->]; auto].
Qed.

Lemma bind_run_Ok {A B} (c : M A) (k : A -> M B) (st st1 : Run) (a : A) :
  c st = (Ok a, st1) -> bind c k st = k a st1.
Proof. unfold bind. now intros ->. Qed.

Lemma bind_run_Throw {A B} (c : M A) (k : A -> M B) (st st1 : Run) (e : exn) :
  c st = (Throw e, st1) -> bind c k st = (Throw e, st1).
Proof. unfold bind. now intros ->. Qed.

(** Takes a successful run apart, one [bind] at a time. *)
Ltac invert_run H :=
  let a := fresh "a" in
  let st := fresh "st" in
  let H1 := fresh "Hrun" in
  apply bind_Ok in H; destruct H as (a & st & H1 & H).

(* ================================================================= *)
(** ** The merge and its pruning pass *)

(** C3: for every list of merge inputs, no key (and no array slot) of
    the result of [_mergeConfig] holds null, at any depth.  The pruning
    is one pass of [removeNulls] over the merged object, whatever the
    sources were and whatever merge primitive built it, and it keeps
    every property that is not null. *)
Theorem mergeConfig_prunes_null `{Objtools} (configs : list value) :
  _mergeConfig configs = removeNulls (VObj (merge [] configs))
  /\ no_null_inside (_mergeConfig configs) = true
  /\ forall k x,
       get_prop k (merge [] configs) = Some x ->
       x = VNull \/
       exists props, _mergeConfig configs = VObj props
                     /\ get_prop k props = Some (removeNulls x).
Proof.
  unfold _mergeConfig. split; [reflexivity|]. split.
  - apply removeNulls_no_null.
  - intros k x G. destruct (value_null_dec x) as [->|Hx]; [now left|].
    right. rewrite removeNulls_obj. eexists; split; [reflexivity|].
    now apply get_removeNulls_props.
Qed.

(** A null in the first source, a null in the last one and a null
    inside an array all disappear. *)
Example mergeConfig_prunes_null_run :
  _mergeConfig
    [VObj [("a", VNull); ("b", VObj [("x", VNum 1); ("y", VNum 2)])];
     VObj [("c", VArr [Some (VNum 1); Some VNull])];
     VObj [("b", VObj [("x", VNull)]); ("d", VNull)]]
  = VObj [("b", VObj [("y", VNum 2)]); ("c", VArr [Some (VNum 1); None])].
Proof. reflexivity. Qed.

(* ================================================================= *)
(** ** The result of [loadConfig] *)

Lemma delete_environments_mergeConfig `{Objtools} (configs : list value) :
  exists props,
    delete_environments (_mergeConfig configs) = VObj props
    /\ has_prop "environments" props = false.
Proof.
  unfold _mergeConfig. rewrite removeNulls_obj. simpl.
  eexists; split; [reflexivity|].
  unfold has_prop. now rewrite get_delete_same.
Qed.

(** C6: whatever the files, the overrides and the merge primitive,
    the mapping that [loadConfig] returns has no [environments] key. *)
Theorem loadConfig_no_environments `{Objtools}
  (h : Host) (st st' : Run) (c : config) :
  loadConfig h st = (Ok c, st') ->
  exists props,
    content c = VObj props /\ has_prop "environments" props = false.
Proof.
  intros Hrun. unfold loadConfig in Hrun.
  do 5 invert_run Hrun.
  injection Hrun as <- _. simpl.
  apply delete_environments_mergeConfig.
Qed.

(* ================================================================= *)
(** ** The deep merge *)

Lemma merge_value_obj (t s : obj) :
  merge_value (VObj t) (VObj s) = VObj (merge_props s t).
Proof. reflexivity. Qed.

Lemma merge_value_replace (e v : value) :
  is_mapping e && is_mapping v = false -> merge_value e v = v.
Proof. destruct e, v; simpl; intros; congruence. Qed.

Lemma merge_props_cons (k : string) (v : value) (s t : obj) :
  merge_props ((k, v) :: s) t =
  merge_props s (set_prop k (match get_prop k t with
                             | Some e => merge_value e v
                             | None => v
                             end) t).
Proof. reflexivity. Qed.

(** What one merged source leaves under a key. *)
Lemma get_merge_props (k : string) (s t : obj) :
  NoDup (keys s) ->
  get_prop k (merge_props s t) =
  match get_prop k s with
  | Some y => Some (match get_prop k t with
                    | Some e => merge_value e y
                    | None => y
                    end)
  | None => get_prop k t
  end.
Proof.
  revert t. induction s as [|[k0 v] s IH]; intros t Hnd; [reflexivity|].
  inversion Hnd as [|? ? Hnotin Hnd']; subst.
  rewrite merge_props_cons, IH by assumption. simpl.
  destruct (k0 =? k) eqn:E.
  - apply String.eqb_eq in E; subst k0.
    rewrite (get_prop_absent k s Hnotin). now rewrite get_set_same.
  - assert (k0 <> k) by (intros ->; now rewrite String.eqb_refl in E).
    now rewrite get_set_other.
Qed.

(* ================================================================= *)
(** ** Path resolution *)

Lemma as_array_strings (l : list string) : as_array (strings l) = map VStr l.
Proof. unfold strings, as_array. now rewrite map_map. Qed.

Lemma find_append {A} (f : A -> bool) (l1 l2 : list A) :
  find f (l1 ++ l2) = match find f l1 with
                      | Some x => Some x
                      | None => find f l2
                      end.
Proof.
  induction l1 as [|x l1 IH]; simpl; [reflexivity|].
  now destruct (f x).
Qed.

Lemma resolve_in_strings (h : Host) (d : string) (files : list string) :
  resolve_in h (VStr d) (map VStr files)
  = Ok (find (existsSync h) (map (candidate_path h d) files)).
Proof.
  induction files as [|f files IH]; simpl; [reflexivity|].
  unfold candidate_path in *.
  destruct (path_isAbsolute f); destruct (existsSync h _); auto.
Qed.

Lemma resolve_over_strings (h : Host) (dirs files : list string) :
  resolve_over h (map VStr dirs) (map VStr files)
  = Ok (find (existsSync h) (candidates h dirs files)).
Proof.
  induction dirs as [|d dirs IH]; simpl; [reflexivity|].
  rewrite resolve_in_strings, find_append.
  destruct (find (existsSync h) (map (candidate_path h d) files)); auto.
Qed.

(** C5: [_resolvePath] takes the search directories in the given order
    and, inside each, the filename candidates in the given order, and
    returns the first absolute path that exists, or null when none
    does; a single string stands for a list of one.  With directories
    [/D1], [/D2] and candidates [f1], [f2], of which only [/D2/f1] and
    [/D1/f2] exist, the result is [/D1/f2]. *)
Theorem resolvePath_directories_first
  (h : Host) (dirs files : list string) (d f : string) :
  _resolvePath h (strings files) (strings dirs)
  = Ok (find (existsSync h) (candidates h dirs files))
  /\ _resolvePath h (VStr f) (strings dirs)
     = _resolvePath h (strings [f]) (strings dirs)
  /\ _resolvePath h (strings files) (VStr d)
     = _resolvePath h (strings files) (strings [d])
  /\ _resolvePath
       (Example.host [("/D2/f1", Ok VNull); ("/D1/f2", Ok VNull)] [])
       (strings ["f1"; "f2"]) (strings ["/D1"; "/D2"])
     = Ok (Some "/D1/f2").
Proof.
  unfold _resolvePath. rewrite !as_array_strings.
  split; [apply resolve_over_strings|].
  repeat split; reflexivity.
Qed.

(* ================================================================= *)
(** ** The configuration environment *)

Lemma nonempty_truthy (s : option string) (e : string) :
  nonempty s = Some e -> truthy (VStr e) = true.
Proof.
  destruct s as [[|a s]|]; simpl; try discriminate.
  now intros [= <-].
Qed.

Lemma str_or_truthy (s : option string) (d : string) :
  d <> "" -> truthy (VStr (str_or s d)) = true.
Proof.
  intros Hd. unfold str_or. destruct (nonempty s) as [e|] eqn:E.
  - eapply nonempty_truthy; eauto.
  - destruct d; [congruence | reflexivity].
Qed.

Lemma getCLIArgument_run (name : string) (st : Run) :
  _getCLIArgument name st = (Ok (cli_argument (options (this st)) name), st).
Proof.
  unfold _getCLIArgument, cli_argument, bind, get_this, ret.
  now destruct (LittleConfOptions.argv (options (this st))).
Qed.

(** Whatever [_findConfigEnvironment] returns passes [if (value)], so
    [getConfigEnvironment] keeps it. *)
Lemma findConfigEnvironment_truthy (h : Host) (st st' : Run) (v : value) :
  _findConfigEnvironment h st = (Ok v, st') -> truthy v = true.
Proof.
  unfold _findConfigEnvironment. unfold bind at 1. unfold get_this at 1.
  destruct (nonempty (LittleConfOptions.environmentOverride _)) as [e|] eqn:E1.
  - intros [= <- _]. eapply nonempty_truthy; eauto.
  - unfold bind at 1. rewrite getCLIArgument_run.
    destruct (truthy (cli_argument _ _)) eqn:E2; [now intros [= <- _]|].
    intros Hrun. invert_run Hrun.
    destruct (nonempty (env_lookup a _)) as [e|] eqn:E3.
    { injection Hrun as <- _. eapply nonempty_truthy; eauto. }
    destruct (nonempty (env_lookup "NODE_ENV" _)) as [e|] eqn:E4.
    { injection Hrun as <- _. eapply nonempty_truthy; eauto. }
    injection Hrun as <- _. now apply str_or_truthy.
Qed.

Lemma getConfigEnvironment_cached (h h' : Host) (st st' : Run) (v : value) :
  getConfigEnvironment h st = (Ok v, st') ->
  getConfigEnvironment h' st' = (Ok v, st').
Proof.
  unfold getConfigEnvironment. unfold bind at 1. unfold get_this at 1.
  destruct (truthy (environment (this st))) eqn:E.
  - intros [= <- <-]. unfold bind, get_this. now rewrite E.
  - intros Hrun. invert_run Hrun.
    pose proof (findConfigEnvironment_truthy _ _ _ _ Hrun0) as Ht.
    unfold bind, set_this, ret in Hrun. injection Hrun as <- <-.
    unfold bind, get_this. simpl. now rewrite Ht.
Qed.

Lemma getConfigEnvironment_fresh (h : Host) (st st1 : Run) (v : value) :
  truthy (environment (this st)) = false ->
  _findConfigEnvironment h st = (Ok v, st1) ->
  getConfigEnvironment h st
  = (Ok v, {| this := {| options := options (this st1);
                         projectName := projectName (this st1);
                         environment := v;
                         rootDir := rootDir (this st1) |};
              trace := trace st1;
              next_oid := next_oid st1 |}).
Proof.
  intros Hfresh Hfind. unfold getConfigEnvironment.
  unfold bind at 1. unfold get_this at 1. rewrite Hfresh.
  unfold bind at 1. rewrite Hfind. reflexivity.
Qed.

Lemma project_prefix_run (h : Host) (st : Run) (project : string) :
  fst (getProjectName h st) = Ok (VStr project) ->
  project_prefix h st = (Ok (upper_snake project), snd (getProjectName h st)).
Proof.
  unfold project_prefix, bind.
  destruct (getProjectName h st) as [r st1]. simpl. now intros ->.
Qed.

Lemma findConfigEnvironment_chain (h : Host) (st : Run) (project : string) :
  settled_without_project (options (this st)) = true
  \/ fst (getProjectName h st) = Ok (VStr project) ->
  fst (_findConfigEnvironment h st)
  = Ok (environment_chain (options (this st)) (process_env h) project).
Proof.
  intros Hname.
  unfold _findConfigEnvironment, environment_chain, settled_without_project in *.
  unfold bind at 1. unfold get_this at 1.
  destruct (nonempty (LittleConfOptions.environmentOverride _)) as [e|] eqn:E1;
    [reflexivity|].
  unfold bind at 1. rewrite getCLIArgument_run.
  destruct (truthy (cli_argument _ _)) eqn:E2; [reflexivity|].
  unfold str_or at 2.
  destruct (nonempty (LittleConfOptions.envVariableEnvironment _)) as [n|] eqn:E3.
  - unfold bind, ret.
    destruct (nonempty (env_lookup n _)); [reflexivity|].
    destruct (nonempty (env_lookup "NODE_ENV" _)); reflexivity.
  - destruct Hname as [Hs|Hp]; [discriminate|].
    unfold bind at 1. unfold bind at 1.
    rewrite (project_prefix_run _ _ _ Hp). unfold ret.
    destruct (nonempty (env_lookup _ _)); [reflexivity|].
    destruct (nonempty (env_lookup "NODE_ENV" _)); reflexivity.
Qed.

(** C2: on a loader that has not resolved its environment yet,
    [getConfigEnvironment] returns what the fixed priority chain gives,
    first match winning: the [environmentOverride] option; else the
    command-line argument named by [cliArgumentEnvironment] (default
    [config-env]); else the environment variable named by
    [envVariableEnvironment] or, when that is not given, by the
    upper-cased project name with every character outside [A-Z0-9]
    replaced by [_], followed by [_ENV]; else [NODE_ENV]; else the
    [defaultEnvironment] option or [local].  The result is kept on the
    instance: every later call returns it, whatever the options'
    sources have become. *)
Theorem environment_priority_chain (h : Host) (st : Run) (project : string) :
  truthy (environment (this st)) = false ->
  settled_without_project (options (this st)) = true
  \/ fst (getProjectName h st) = Ok (VStr project) ->
  fst (getConfigEnvironment h st)
  = Ok (environment_chain (options (this st)) (process_env h) project)
  /\ environment (this (snd (getConfigEnvironment h st)))
     = environment_chain (options (this st)) (process_env h) project
  /\ forall h', getConfigEnvironment h' (snd (getConfigEnvironment h st))
                = (Ok (environment_chain (options (this st)) (process_env h)
                         project),
                   snd (getConfigEnvironment h st)).
Proof.
  intros Hfresh Hname.
  pose proof (findConfigEnvironment_chain h st project Hname) as Hfind.
  assert (Hrun : fst (getConfigEnvironment h st)
                 = Ok (environment_chain (options (this st)) (process_env h)
                         project)
                 /\ environment (this (snd (getConfigEnvironment h st)))
                    = environment_chain (options (this st)) (process_env h)
                        project).
  { destruct (_findConfigEnvironment h st) as [r st1] eqn:Efind.
    simpl in Hfind. subst r.
    rewrite (getConfigEnvironment_fresh _ _ _ _ Hfresh Efind).
    split; reflexivity. }
  destruct Hrun as [Hres Hfield]. repeat split; try assumption.
  intros h'. apply (getConfigEnvironment_cached h h' st).
  destruct (getConfigEnvironment h st) as [r st1]. simpl in *. now subst r.
Qed.

Example environment_from_project_variable :
  fst (getConfigEnvironment
         (Example.host [] [("NODE_ENV", "production");
                           ("MY_APP_2_ENV", "staging")])
         {| this := new_LittleConf
                      (options_of_object (Example.named "my-app.2"));
            trace := []; next_oid := 0 |})
  = Ok (VStr "staging").
Proof. reflexivity. Qed.

Example environment_from_command_line :
  fst (getConfigEnvironment
         (Example.host [] [("APP_ENV", "staging")])
         {| this := new_LittleConf
                      (options_of_object
                         (Example.named "app"
                          ++ [("argv", VObj [("config-env", VStr "test")])])%list);
            trace := []; next_oid := 0 |})
  = Ok (VStr "test").
Proof. reflexivity. Qed.

Example environment_default :
  fst (getConfigEnvironment
         (Example.host [] [("APP_ENV", "")])
         {| this := new_LittleConf (options_of_object (Example.named "app"));
            trace := []; next_oid := 0 |})
  = Ok (VStr "local").
Proof. reflexivity. Qed.

Lemma environment_priority_chain_witness :
  fst (getConfigEnvironment
         (Example.host [] [("NODE_ENV", "production");
                           ("MY_APP_2_ENV", "staging")])
         {| this := new_LittleConf
                      (options_of_object (Example.named "my-app.2"));
            trace := []; next_oid := 0 |})
  = Ok (VStr "staging").
Proof.
  refine (proj1 (environment_priority_chain
                   (Example.host [] [("NODE_ENV", "production");
                                     ("MY_APP_2_ENV", "staging")])
                   {| this := new_LittleConf
                                (options_of_object (Example.named "my-app.2"));
                      trace := []; next_oid := 0 |}
                   "my-app.2" _ _)).
  - reflexivity.
  - right. reflexivity.
Defined.

(* ================================================================= *)
(** ** The five sources of [loadConfig] *)

(** C1: [loadConfig] merges exactly five sources, in this order, later
    sources taking precedence in the merge: the defaults file, its
    [environments.<env>] block (an empty mapping when there is none),
    the main file, its [environments.<env>] block (likewise), and the
    collected overrides; the [environments] key is then deleted.  For
    the defaults [{port:80, environments:{prod:{port:443}}}], the main
    file [{host:"x"}], the environment [prod] and no override, the
    result is [{port:443, host:"x"}]. *)
Theorem loadConfig_five_sources `{Objtools}
  (h : Host) (st st1 st2 st3 st4 : Run)
  (defaultsConfig mainConfig env : value) (overrides : obj) :
  load_defaults h st = (Ok defaultsConfig, st1) ->
  load_main h st1 = (Ok mainConfig, st2) ->
  collect_overrides h st2 = (Ok overrides, st3) ->
  getConfigEnvironment h st3 = (Ok env, st4) ->
  loadConfig h st
  = (Ok {| oid := next_oid st4;
           content :=
             delete_environments
               (_mergeConfig
                  [defaultsConfig;
                   environment_block defaultsConfig env;
                   mainConfig;
                   environment_block mainConfig env;
                   VObj overrides]) |},
     {| this := this st4; trace := trace st4; next_oid := S (next_oid st4) |})
  /\ (getPath defaultsConfig ("environments." ++ to_string env) = VUndefined ->
      environment_block defaultsConfig env = VObj [])
  /\ (getPath mainConfig ("environments." ++ to_string env) = VUndefined ->
      environment_block mainConfig env = VObj [])
  /\ fst (Example.run
            [("/srv/app/app-defaults.conf",
              Ok (VObj [("port", VNum 80);
                        ("environments",
                         VObj [("prod", VObj [("port", VNum 443)])])]));
             ("/srv/app/app.conf", Ok (VObj [("host", VStr "x")]))]
            [("NODE_ENV", "prod")]
            (Example.named "app"))
     = Ok {| oid := 0;
             content := VObj [("port", VNum 443); ("host", VStr "x")] |}.
Proof.
  intros Hd Hm Ho He. split; [|repeat split].
  - unfold loadConfig.
    rewrite (bind_run_Ok _ _ _ _ _ Hd), (bind_run_Ok _ _ _ _ _ Hm),
      (bind_run_Ok _ _ _ _ _ Ho), (bind_run_Ok _ _ _ _ _ He).
    reflexivity.
  - unfold environment_block. now intros ->.
  - unfold environment_block. now intros ->.
Qed.

Lemma loadConfig_five_sources_witness :
  exists st',
    Example.run
      [("/srv/app/app-defaults.conf",
        Ok (VObj [("port", VNum 80);
                  ("environments",
                   VObj [("prod", VObj [("port", VNum 443)])])]));
       ("/srv/app/app.conf", Ok (VObj [("host", VStr "x")]))]
      [("NODE_ENV", "prod")]
      (Example.named "app")
    = (Ok {| oid := 0;
             content := VObj [("port", VNum 443); ("host", VStr "x")] |}, st').
Proof.
  eexists. unfold Example.run.
  etransitivity.
  - refine (proj1 (loadConfig_five_sources _ _ _ _ _ _ _ _ _ _ _ _ _ _)).
    + vm_compute. reflexivity.
    + vm_compute. reflexivity.
    + vm_compute. reflexivity.
    + vm_compute. reflexivity.
  - vm_compute. reflexivity.
Defined.

Lemma loadConfig_no_environments_witness :
  exists props,
    content {| oid := 0;
               content := VObj [("port", VNum 81); ("host", VStr "x")] |}
    = VObj props
    /\ has_prop "environments" props = false.
Proof.
  refine (loadConfig_no_environments
            environments_everywhere environments_everywhere_start
            (snd (loadConfig environments_everywhere
                    environments_everywhere_start)) _ _).
  vm_compute. reflexivity.
Defined.

(* ================================================================= *)
(** ** What the methods leave untouched *)

Lemma keeps_ret (P : LittleConf -> Prop) {A} (a : A) : keeps P (ret a).
Proof. now intros st. Qed.

Lemma keeps_throw (P : LittleConf -> Prop) {A} (e : exn) :
  keeps P (@throw A e).
Proof. now intros st. Qed.

Lemma keeps_lift (P : LittleConf -> Prop) {A} (r : result A) :
  keeps P (lift r).
Proof. now intros st. Qed.

Lemma keeps_get_this (P : LittleConf -> Prop) : keeps P get_this.
Proof. now intros st. Qed.

Lemma keeps_log (P : LittleConf -> Prop) (e : event) : keeps P (log e).
Proof. now intros st. Qed.

Lemma keeps_fresh_oid (P : LittleConf -> Prop) : keeps P fresh_oid.
Proof. now intros st. Qed.

Create HintDb keeps.
#[local] Hint Resolve keeps_ret keeps_throw keeps_lift keeps_get_this
  keeps_log keeps_fresh_oid : keeps.

Lemma keeps_bind (P : LittleConf -> Prop) {A B} (c : M A) (k : A -> M B) :
  keeps P c -> (forall a, keeps P (k a)) -> keeps P (bind c k).
Proof.
  intros Hc Hk st HP. unfold bind. specialize (Hc st HP).
  destruct (c st) as [[a|e] st1]; simpl in *; [now apply Hk | assumption].
Qed.

Lemma keeps_set_this (P : LittleConf -> Prop) (f : LittleConf -> LittleConf) :
  (forall lc, P lc -> P (f lc)) -> keeps P (set_this f).
Proof. intros Hf st HP. now apply Hf. Qed.

(** [get_this] followed by a method that keeps [P] for the instance it
    was handed. *)
Lemma keeps_with_this (P : LittleConf -> Prop) {B} (k : LittleConf -> M B) :
  (forall lc, P lc -> keeps P (k lc)) -> keeps P (bind get_this k).
Proof. intros Hk st HP. unfold bind, get_this. now apply Hk. Qed.

Section of_project.
Variable h : Host.
Variable o : LittleConfOptions.t.
Variable n : string.
Hypothesis Hoption : nonempty (LittleConfOptions.projectName o) = Some n.

Local Abbreviation P := (of_project o (option_name n)).

Lemma keeps_getCLIArgument (name : string) : keeps P (_getCLIArgument name).
Proof.
  apply keeps_with_this. intros lc _.
  destruct (LittleConfOptions.argv (options lc)); auto with keeps.
Qed.

Lemma keeps_findProjectRootDir : keeps P (_findProjectRootDir h).
Proof.
  apply keeps_with_this. intros lc _.
  destruct (nonempty (LittleConfOptions.rootDir (options lc)));
    auto with keeps.
Qed.

Lemma keeps_getProjectRootDir : keeps P (getProjectRootDir h).
Proof.
  apply keeps_with_this. intros lc _.
  destruct (nonempty (rootDir lc)); [auto with keeps|].
  apply keeps_bind; [apply keeps_findProjectRootDir|].
  intros dir. apply keeps_bind; [|intros; auto with keeps].
  apply keeps_set_this. now intros lc' [Ho Hn].
Qed.

Lemma option_name_truthy : truthy (VStr n) = true.
Proof. eapply nonempty_truthy; eauto. Qed.

(** With the [projectName] option given, [_findProjectName] returns
    its name and touches nothing. *)
Lemma findProjectName_option (st : Run) :
  options (this st) = o ->
  _findProjectName h st = (Ok (VStr (option_name n)), st).
Proof.
  intros Ho. unfold _findProjectName.
  unfold bind at 1. unfold get_this at 1. rewrite Ho, Hoption.
  unfold bind, ret. rewrite option_name_truthy. simpl.
  unfold option_name. now destruct (exec_scoped n).
Qed.

Lemma getProjectName_option (st : Run) :
  P (this st) ->
  exists st', getProjectName h st = (Ok (VStr (option_name n)), st')
              /\ P (this st').
Proof.
  intros [Ho Hn]. unfold getProjectName, bind, get_this.
  destruct (truthy (projectName (this st))) eqn:E.
  - unfold ret. rewrite (Hn eq_refl). eexists; split; [reflexivity|].
    split; [assumption | intros _; now apply Hn].
  - rewrite (findProjectName_option st Ho). simpl.
    eexists; split; [reflexivity|]. simpl. split; [assumption|]. now intros _.
Qed.

Lemma keeps_getProjectName : keeps P (getProjectName h).
Proof.
  intros st HP. destruct (getProjectName_option st HP) as (st' & -> & HP').
  exact HP'.
Qed.

Lemma project_prefix_option (st : Run) :
  P (this st) ->
  exists st', project_prefix h st = (Ok (upper_snake (option_name n)), st')
              /\ P (this st').
Proof.
  intros HP. destruct (getProjectName_option st HP) as (st' & Hr & HP').
  unfold project_prefix, bind. rewrite Hr. exists st'. now split.
Qed.

Lemma keeps_project_prefix : keeps P (project_prefix h).
Proof.
  intros st HP. destruct (project_prefix_option st HP) as (st' & -> & HP').
  exact HP'.
Qed.

Lemma keeps_project_file (suffix : string) : keeps P (project_file h suffix).
Proof.
  apply keeps_bind; [apply keeps_getProjectName | intros; auto with keeps].
Qed.

Lemma keeps_loadFile (filename : option string) :
  keeps P (_loadFile h filename).
Proof.
  unfold _loadFile. destruct (nonempty filename); [|auto with keeps].
  destruct (negb (existsSync h s)); [auto with keeps|].
  destruct (ends_with ".js" s).
  - apply keeps_bind; auto with keeps.
  - apply keeps_bind.
    + apply keeps_bind; auto with keeps.
    + intros data. apply keeps_bind; [auto with keeps|].
      intros r. destruct (_ || _); auto with keeps.
Qed.

Lemma keeps_load_defaults : keeps P (load_defaults h).
Proof.
  apply keeps_with_this. intros lc _.
  apply keeps_bind.
  - destruct (nonempty (LittleConfOptions.defaultsFilename _));
      [auto with keeps|].
    apply keeps_bind; [apply keeps_project_file|]. intros a.
    apply keeps_bind; [apply keeps_project_file|]. intros b.
    auto with keeps.
  - intros f. apply keeps_bind; [apply keeps_getProjectRootDir|].
    intros root. apply keeps_bind; [auto with keeps|].
    intros p. apply keeps_loadFile.
Qed.

Lemma keeps_load_main : keeps P (load_main h).
Proof.
  apply keeps_with_this. intros lc _.
  apply keeps_bind.
  { destruct (negb _); [apply keeps_getCLIArgument | auto with keeps]. }
  intros f1. apply keeps_bind.
  { destruct (negb _); [|auto with keeps].
    apply keeps_bind; [|intros; auto with keeps].
    destruct (nonempty (LittleConfOptions.envVariableFile _));
      [auto with keeps|].
    apply keeps_bind; [apply keeps_project_prefix | intros; auto with keeps]. }
  intros f2. apply keeps_bind.
  { destruct (negb _); [|auto with keeps].
    apply keeps_bind; [apply keeps_project_file|]. intros a.
    apply keeps_bind; [apply keeps_project_file|]. intros b.
    auto with keeps. }
  intros f3. apply keeps_bind; [apply keeps_getProjectRootDir|].
  intros root. apply keeps_bind; [auto with keeps|].
  intros p. destruct (nonempty p); [apply keeps_loadFile | auto with keeps].
Qed.
End of_project.

(* ================================================================= *)
(** ** Overrides from the process environment *)

Lemma strip_prefix_app (p r : string) : strip_prefix p (p ++ r) = Some r.
Proof.
  induction p as [|a p IH]; simpl; [now destruct r|].
  now rewrite Ascii.eqb_refl.
Qed.

Lemma exec_prefix_app (p r : string) :
  string_forallb (fun a => negb (line_terminator a)) r = true ->
  exec_prefix p (p ++ r) = Some r.
Proof. intros Hr. unfold exec_prefix. now rewrite strip_prefix_app, Hr. Qed.

Lemma split_on_cons (c : ascii) (s : string) :
  exists k ks, split_on c s = k :: ks.
Proof.
  induction s as [|a s (k & ks & IH)]; simpl; [eauto|].
  destruct (Ascii.eqb a c); [eauto|]. rewrite IH. eauto.
Qed.

Section override_loops.
Context {objtools : Objtools}.
Variable prefix : string.
Variable val : string -> value.

Lemma override_loop_no_match (ks : list string) (ov : obj) :
  (forall k, In k ks -> exec_prefix prefix k = None) ->
  fold_left (override_step prefix val) ks ov = ov.
Proof.
  revert ov. induction ks as [|k ks IH]; intros ov Hno; [reflexivity|].
  simpl. unfold override_step at 2. rewrite (Hno k) by now left.
  apply IH. intros k' Hin. apply Hno. now right.
Qed.
End override_loops.

(* ----------------------------------------------------------------- *)
(** *** A dotted path through the merge *)

Lemma set_segments_more (k k' : string) (rest : list string) (x : value)
  (o : obj) :
  set_segments (k :: k' :: rest) x o
  = set_prop k (VObj (set_segments (k' :: rest) x
                        (match get_prop k o with
                         | Some (VObj child) => child
                         | _ => []
                         end))) o.
Proof. reflexivity. Qed.

Lemma get_segments_obj (k : string) (rest : list string) (o : obj) :
  get_segments (k :: rest) (VObj o) = get_segments rest (prop k o).
Proof. reflexivity. Qed.

Lemma prop_set_same (k : string) (v : value) (o : obj) :
  prop k (set_prop k v o) = v.
Proof. unfold prop. now rewrite get_set_same. Qed.

Lemma get_set_segments (segs : list string) (x : value) (o : obj) :
  segs <> [] -> get_segments segs (VObj (set_segments segs x o)) = x.
Proof.
  revert o. induction segs as [|k rest IH]; intros o Hne; [contradiction|].
  destruct rest as [|k' rest].
  - simpl. now rewrite prop_set_same.
  - rewrite set_segments_more, get_segments_obj, prop_set_same.
    apply IH. discriminate.
Qed.

(** An override that is not a mapping wins at its path against every
    earlier source. *)
Lemma merge_override_path (segs : list string) (x : value) (t : obj) :
  segs <> [] -> is_mapping x = false ->
  get_segments segs (VObj (merge_props (set_segments segs x []) t)) = x.
Proof.
  intros Hne Hx. revert t.
  induction segs as [|k rest IH]; intros t; [contradiction|].
  destruct rest as [|k' rest].
  - cbn [set_segments set_prop merge_props].
    rewrite get_segments_obj, prop_set_same. simpl.
    destruct (get_prop k t) as [e|]; [|reflexivity].
    apply merge_value_replace. rewrite Hx. apply andb_false_r.
  - rewrite set_segments_more.
    assert (Hr : k' :: rest <> []) by discriminate.
    specialize (IH Hr). revert IH Hr. generalize (k' :: rest) as segs.
    intros segs IH Hr. cbn [get_prop set_prop merge_props].
    rewrite get_segments_obj, prop_set_same.
    destruct (get_prop k t) as [e|].
    + destruct e; try (now apply get_set_segments).
      rewrite merge_value_obj. apply IH.
    + now apply get_set_segments.
Qed.

(** A string at the end of a path survives the pruning of nulls. *)
Lemma removeNulls_keeps_path (segs : list string) (x : value) (s : string) :
  get_segments segs x = VStr s -> get_segments segs (removeNulls x) = VStr s.
Proof.
  revert x. induction segs as [|k rest IH]; intros x; simpl.
  - now intros ->.
  - destruct x; try discriminate. intros G.
    rewrite removeNulls_obj. unfold prop in *.
    destruct (get_prop k props) as [y|] eqn:E.
    + destruct (value_null_dec y) as [->|Hy].
      * destruct rest; discriminate.
      * rewrite (get_removeNulls_props _ _ _ E Hy). now apply IH.
    + destruct rest; discriminate.
Qed.

Lemma delete_environments_keeps_path (segs : list string) (x : value) :
  segs <> [] -> hd "" segs <> "environments" ->
  get_segments segs (delete_environments x) = get_segments segs x.
Proof.
  destruct segs as [|k rest]; simpl.
  - congruence.
  - intros _ Hk. destruct x; simpl; try reflexivity.
    unfold prop. rewrite get_delete_other; [reflexivity | congruence].
Qed.

Lemma spec_merge_last (t : obj) (sources : list value) (s : obj) :
  spec_merge t (sources ++ [VObj s]) = merge_props s (spec_merge t sources).
Proof. unfold spec_merge. now rewrite fold_left_app. Qed.

(* ================================================================= *)
(** ** Loading one file *)

Lemma nonempty_Some (f : string) : f <> "" -> nonempty (Some f) = Some f.
Proof. destruct f; [congruence | reflexivity]. Qed.

Lemma loadFile_text (h : Host) (f data : string) (st : Run) :
  f <> "" -> existsSync h f = true -> ends_with ".js" f = false ->
  readFileSync h f = Ok data ->
  _loadFile h (Some f) st
  = match yaml_safeLoad h data with
    | Ok v => (Ok (if negb (typeof_object v) || negb (truthy v)
                   then VObj [] else v), logged (ReadFile f) st)
    | Throw e => (Throw e, logged (ReadFile f) st)
    end.
Proof.
  intros Hf He Hjs Hread. unfold _loadFile.
  rewrite (nonempty_Some f Hf), He, Hjs. simpl.
  unfold bind, read_file, bind, log, lift. rewrite Hread.
  destruct (yaml_safeLoad h data) as [v|e]; [|reflexivity].
  now destruct (negb (typeof_object v) || negb (truthy v)).
Qed.

Lemma loadFile_module (h : Host) (f : string) (st : Run) :
  f <> "" -> existsSync h f = true -> ends_with ".js" f = true ->
  _loadFile h (Some f) st = (import_default h f, logged (Import f) st).
Proof.
  intros Hf He Hjs. unfold _loadFile.
  now rewrite (nonempty_Some f Hf), He, Hjs.
Qed.

Lemma load_defaults_at (h : Host) (f root : string) (tr : list event)
  (next : nat) :
  path_isAbsolute f = true -> root <> "" -> existsSync h f = true ->
  load_defaults h {| this := new_LittleConf (defaults_at f root);
                     trace := tr; next_oid := next |}
  = _loadFile h (Some f)
      {| this := {| options := defaults_at f root;
                    projectName := VUndefined;
                    environment := VUndefined;
                    rootDir := Some root |};
         trace := tr; next_oid := next |}.
Proof.
  intros Hf Hroot He.
  assert (Hne : f <> "") by (intros ->; discriminate).
  unfold load_defaults. unfold bind at 1. unfold get_this at 1.
  cbn [this options new_LittleConf defaults_at
         LittleConfOptions.defaultsFilename].
  rewrite (nonempty_Some f Hne).
  unfold bind at 1. unfold ret at 1.
  unfold bind at 1. unfold getProjectRootDir.
  unfold bind at 1. unfold get_this at 1.
  cbn [this rootDir new_LittleConf nonempty].
  unfold bind at 1. unfold _findProjectRootDir.
  unfold bind at 1. unfold get_this at 1.
  cbn [this options new_LittleConf defaults_at LittleConfOptions.rootDir].
  rewrite (nonempty_Some root Hroot).
  unfold ret at 1. unfold bind at 1. unfold set_this at 1.
  unfold ret at 1. unfold bind at 1. unfold lift at 1.
  unfold _resolvePath. cbn [as_array resolve_over resolve_in absolutePath].
  rewrite Hf, He. reflexivity.
Qed.

Example loadConfig_main_module_fails :
  Example.run
    [("/srv/app/app.conf.js", Throw (HostError "SyntaxError"))] []
    (Example.named "app")
  = (Throw (HostError "SyntaxError"),
     {| this := {| options := options_of_object (Example.named "app");
                   projectName := VStr "app";
                   environment := VUndefined;
                   rootDir := Some "/srv/app" |};
        trace := [Import "/srv/app/app.conf.js"];
        next_oid := 0 |}).
Proof. reflexivity. Qed.

Example loadConfig_scalar_file_is_empty :
  fst (Example.run
         [("/srv/app/app-defaults.conf", Ok (VStr "just a string"));
          ("/srv/app/app.conf", Ok VUndefined)] []
         (Example.named "app"))
  = Ok {| oid := 0; content := VObj [] |}.
Proof. reflexivity. Qed.


(* ================================================================= *)
(** ** The walk up to the project root *)

Lemma split_on_no_sep (c : ascii) (s : string) :
  string_forallb (fun a => negb (Ascii.eqb a c)) s = true ->
  split_on c s = [s].
Proof.
  induction s as [|a s IH]; simpl; [reflexivity|].
  intros H. apply andb_prop in H as [Ha Hs].
  apply negb_true_iff in Ha. rewrite Ha, (IH Hs). reflexivity.
Qed.

Lemma split_on_first (c : ascii) (s t : string) :
  string_forallb (fun a => negb (Ascii.eqb a c)) s = true ->
  split_on c (s ++ String c t) = s :: split_on c t.
Proof.
  induction s as [|a s IH]; simpl.
  - intros _. now rewrite Ascii.eqb_refl.
  - intros H. apply andb_prop in H as [Ha Hs].
    apply negb_true_iff in Ha. rewrite Ha, (IH Hs). reflexivity.
Qed.

Lemma split_on_join (segs : list string) :
  segs <> [] -> forallb no_slash segs = true ->
  split_on "/" (join "/" segs) = segs.
Proof.
  induction segs as [|s segs IH]; [congruence|]. intros _ H.
  simpl in H. apply andb_prop in H as [Hs Hsegs].
  destruct segs as [|s' segs].
  - simpl. now apply split_on_no_sep.
  - change (join "/" (s :: s' :: segs)) with (s ++ String "/" (join "/" (s' :: segs))).
    rewrite split_on_first by assumption. f_equal. apply IH; [discriminate|assumption].
Qed.

Lemma clean_no_slash (s : string) : clean s = true -> no_slash s = true.
Proof.
  unfold clean. intros H.
  apply andb_prop in H as [H _]. apply andb_prop in H as [H _].
  now apply andb_prop in H as [H _].
Qed.

Lemma clean_not_special (s : string) :
  clean s = true -> (s =? "") = false /\ (s =? ".") = false /\ (s =? "..") = false.
Proof.
  unfold clean. intros H.
  apply andb_prop in H as [H H3]. apply andb_prop in H as [H H2].
  apply andb_prop in H as [_ H1].
  now rewrite negb_true_iff in H1, H2, H3.
Qed.

Lemma forallb_clean_no_slash (segs : list string) :
  forallb clean segs = true -> forallb no_slash segs = true.
Proof.
  induction segs as [|s segs IH]; simpl; [reflexivity|].
  intros H. apply andb_prop in H as [Hs Hsegs].
  now rewrite (clean_no_slash s Hs), IH.
Qed.

Lemma forallb_rev {A} (f : A -> bool) (l : list A) :
  forallb f (rev l) = forallb f l.
Proof.
  induction l as [|x l IH]; simpl; [reflexivity|].
  rewrite forallb_app, IH. simpl. rewrite andb_true_r. apply andb_comm.
Qed.

Lemma normalize_clean (above : bool) (acc segs rest : list string) :
  forallb clean segs = true ->
  normalize_segments above acc (segs ++ rest)
  = normalize_segments above (rev segs ++ acc) rest.
Proof.
  revert acc. induction segs as [|s segs IH]; intros acc H; [reflexivity|].
  simpl in H. apply andb_prop in H as [Hs Hsegs].
  destruct (clean_not_special s Hs) as (H1 & H2 & H3).
  simpl. rewrite H1, H2, H3. simpl. rewrite IH by assumption.
  now rewrite <- app_assoc.
Qed.

Lemma split_on_no_slash (s : string) :
  forallb no_slash (split_on "/" s) = true.
Proof.
  induction s as [|a s IH]; simpl; [reflexivity|].
  destruct (Ascii.eqb a "/") eqn:E; simpl; [assumption|].
  destruct (split_on "/" s) as [|p ps]; simpl in *.
  - unfold no_slash. simpl. now rewrite E.
  - apply andb_prop in IH as [Hp Hps]. unfold no_slash in *. simpl.
    now rewrite E, Hp, Hps.
Qed.

Lemma normalize_output_clean (acc segs : list string) :
  forallb no_slash segs = true -> forallb clean acc = true ->
  forallb clean (normalize_segments false acc segs) = true.
Proof.
  revert acc. induction segs as [|s segs IH]; intros acc Hs Hacc; simpl.
  - now rewrite forallb_rev.
  - simpl in Hs. apply andb_prop in Hs as [Hs Hsegs].
    destruct ((s =? "") || (s =? ".")) eqn:E1; [now apply IH|].
    apply orb_false_elim in E1 as [E1 E2].
    destruct (s =? "..") eqn:E3.
    + destruct acc as [|a acc]; [now apply IH|].
      simpl in Hacc. apply andb_prop in Hacc as [Ha Hacc].
      destruct (clean_not_special a Ha) as (_ & _ & ->). now apply IH.
    + apply IH; [assumption|]. simpl. rewrite Hacc, andb_true_r.
      unfold clean. now rewrite Hs, E1, E2, E3.
Qed.

Lemma append_assoc (a b c : string) : (a ++ b) ++ c = a ++ (b ++ c).
Proof. induction a as [|x a IH]; simpl; [reflexivity | now rewrite IH]. Qed.

Lemma join_app (sep : string) (l1 l2 : list string) :
  l1 <> [] -> l2 <> [] ->
  join sep (l1 ++ l2) = join sep l1 ++ sep ++ join sep l2.
Proof.
  intros H1 H2. induction l1 as [|s l1 IH]; [congruence|].
  destruct l1 as [|s' l1].
  - simpl. destruct l2; [congruence | reflexivity].
  - change (join sep ((s :: s' :: l1) ++ l2))
      with (s ++ sep ++ join sep ((s' :: l1) ++ l2)).
    rewrite IH by discriminate.
    change (join sep (s :: s' :: l1)) with (s ++ sep ++ join sep (s' :: l1)).
    now rewrite !append_assoc.
Qed.

Lemma rev_removelast (segs : list string) (d : string) :
  segs <> [] -> rev segs = last segs d :: rev (removelast segs).
Proof.
  intros H. rewrite (app_removelast_last d H) at 1.
  now rewrite rev_app_distr.
Qed.

Lemma last_clean (segs : list string) (d : string) :
  segs <> [] -> forallb clean segs = true -> clean (last segs d) = true.
Proof.
  intros H Hc. rewrite forallb_forall in Hc. apply Hc.
  rewrite (app_removelast_last d H) at 2. apply in_or_app. right. now left.
Qed.

Lemma removelast_clean (segs : list string) :
  forallb clean segs = true -> forallb clean (removelast segs) = true.
Proof.
  intros Hc. destruct segs as [|s segs]; [reflexivity|].
  rewrite (app_removelast_last "" (l := s :: segs)) in Hc by discriminate.
  rewrite forallb_app in Hc. now apply andb_prop in Hc as [Hc _].
Qed.

(** The parent of a normalized absolute directory is the directory
    without its last segment. *)
Lemma resolve_parent (cwd : string) (segs : list string) :
  forallb clean segs = true ->
  path_resolve cwd [abs_path segs; ".."] = abs_path (removelast segs).
Proof.
  intros Hc. destruct segs as [|s0 segs0]; [reflexivity|].
  remember (s0 :: segs0) as segs eqn:Es.
  assert (Hne : segs <> []) by (subst; discriminate).
  unfold path_resolve. cbn [rev app resolve_gather].
  change (".." =? "") with false. cbn [path_isAbsolute].
  change (abs_path segs =? "") with false.
  change (path_isAbsolute (abs_path segs)) with true. cbv iota.
  replace (abs_path segs ++ "/" ++ ".." ++ "/" ++ "")
    with ("/" ++ join "/" (segs ++ [".."; ""])).
  2:{ rewrite join_app by (assumption || discriminate).
      unfold abs_path. reflexivity. }
  change (split_on "/" ("/" ++ ?x)) with ("" :: split_on "/" x).
  rewrite split_on_join.
  2:{ now destruct segs. }
  2:{ rewrite forallb_app, (forallb_clean_no_slash _ Hc). reflexivity. }
  cbn [normalize_segments]. change ("" =? "") with true. cbn [orb].
  rewrite normalize_clean by assumption. rewrite app_nil_r.
  rewrite (rev_removelast segs "" Hne).
  cbn [normalize_segments]. change ((".." =? "") || (".." =? ".")) with false.
  change (".." =? "..") with true. cbv iota.
  destruct (clean_not_special _ (last_clean segs "" Hne Hc)) as (_ & _ & ->).
  change (("" =? "") || ("" =? ".")) with true. cbv iota.
  now rewrite rev_involutive.
Qed.

Lemma length_append (a b : string) :
  String.length (a ++ b) = String.length a + String.length b.
Proof. induction a as [|x a IH]; simpl; [reflexivity | now rewrite IH]. Qed.

Lemma clean_length (s : string) : clean s = true -> 1 <= String.length s.
Proof.
  intros H. destruct (clean_not_special s H) as (H1 & _).
  destruct s; [discriminate | simpl; lia].
Qed.

Lemma join_length (segs : list string) :
  forallb clean segs = true ->
  List.length segs <= String.length (join "/" segs).
Proof.
  induction segs as [|s segs IH]; [simpl; lia|].
  intros H. simpl in H. apply andb_prop in H as [Hs Hsegs].
  pose proof (clean_length s Hs). specialize (IH Hsegs).
  destruct segs as [|s' segs]; [simpl; lia|].
  change (join "/" (s :: s' :: segs)) with (s ++ "/" ++ join "/" (s' :: segs)).
  rewrite !length_append. simpl in *. lia.
Qed.

Lemma abs_path_length (segs : list string) :
  forallb clean segs = true ->
  List.length segs < String.length (abs_path segs).
Proof.
  intros H. pose proof (join_length segs H). unfold abs_path. simpl. lia.
Qed.

Lemma abs_path_parent_differs (segs : list string) :
  segs <> [] -> forallb clean segs = true ->
  (abs_path (removelast segs) =? abs_path segs) = false.
Proof.
  intros Hne Hc. apply String.eqb_neq. unfold abs_path. intros [= Heq].
  assert (Hlen : List.length (removelast segs) <> List.length segs).
  { rewrite (app_removelast_last "" Hne) at 2.
    rewrite length_app. simpl. lia. }
  destruct (removelast segs) as [|r rs] eqn:Er.
  - destruct segs as [|s [|s' segs]]; try congruence.
    + simpl in Heq. simpl in Hc. apply andb_prop in Hc as [Hs _].
      destruct (clean_not_special s Hs) as (H1 & _). subst s. discriminate.
    + simpl in Er. destruct segs; discriminate.
  - apply Hlen. f_equal.
    rewrite <- (split_on_join (r :: rs)), <- (split_on_join segs); try assumption.
    + now rewrite Heq.
    + now apply forallb_clean_no_slash.
    + discriminate.
    + apply forallb_clean_no_slash. rewrite <- Er. now apply removelast_clean.
Qed.

Lemma find_package_json_turns (h : Host) (m : string) (turns : nat)
  (segs : list string) :
  forallb clean segs = true -> List.length segs < turns ->
  find_package_json h turns m (abs_path segs) = first_manifest h m (rev segs).
Proof.
  revert segs. induction turns as [|turns IH]; intros segs Hc Hlen; [lia|].
  cbn [find_package_json].
  destruct segs as [|s0 segs0].
  - cbn [rev first_manifest].
    destruct (existsSync h _); [reflexivity|].
    rewrite (resolve_parent _ [] eq_refl). reflexivity.
  - remember (s0 :: segs0) as segs eqn:Es.
    assert (Hne : segs <> []) by (subst; discriminate).
    rewrite (rev_removelast segs "" Hne). cbn [first_manifest].
    rewrite <- (rev_removelast segs "" Hne), rev_involutive.
    destruct (existsSync h _); [reflexivity|].
    rewrite (resolve_parent _ segs Hc).
    rewrite (abs_path_parent_differs segs Hne Hc).
    apply IH; [now apply removelast_clean|].
    assert (List.length segs = S (List.length (removelast segs))).
    { rewrite (app_removelast_last "" Hne) at 1.
      rewrite length_app. simpl. lia. }
    lia.
Qed.

Lemma resolve_cwd (cwd : string) :
  path_isAbsolute cwd = true ->
  exists segs, forallb clean segs = true
               /\ path_resolve cwd [cwd] = abs_path segs.
Proof.
  intros Habs. unfold path_resolve. cbn [rev app resolve_gather].
  assert (Hne : (cwd =? "") = false) by (destruct cwd; [discriminate|reflexivity]).
  rewrite Hne, Habs. cbv iota. cbn [negb].
  eexists. split; [|reflexivity].
  apply normalize_output_clean; [apply split_on_no_slash | reflexivity].
Qed.

(** The loop of [_findProjectRootDir] ends within the turns it is
    given: more turns change nothing. *)
Theorem find_package_json_enough_turns (h : Host) (more : nat) :
  path_isAbsolute (process_cwd h) = true ->
  let mainModuleDir := path_resolve (process_cwd h) [process_cwd h] in
  find_package_json h (String.length mainModuleDir + more)
    mainModuleDir mainModuleDir
  = find_package_json h (String.length mainModuleDir)
      mainModuleDir mainModuleDir.
Proof.
  intros Habs m. destruct (resolve_cwd _ Habs) as (segs & Hc & Hm).
  subst m. rewrite Hm.
  pose proof (abs_path_length segs Hc).
  rewrite !find_package_json_turns by (assumption || lia). reflexivity.
Qed.

(* ================================================================= *)
(** ** The cache of [getConfig] *)

Lemma cache_lookup_store (k : string) (c : config)
  (cache : list (string * config)) :
  cache_lookup k (cache_store k c cache) = Some c.
Proof.
  induction cache as [|[k' c'] cache IH]; simpl.
  - now rewrite String.eqb_refl.
  - destruct (k' =? k) eqn:E; simpl; now rewrite E.
Qed.

(** The options [{projectName, rootDir}] and [{rootDir, projectName}]
    are deep-equal and have different serializations: the second call
    misses the cache, loads both files again and returns another
    object. *)
Lemma getConfig_key_order_misses :
  deep_equal (VObj name_then_root) (VObj root_then_name) = true
  /\ JSON_stringify (VObj name_then_root)
     <> JSON_stringify (VObj root_then_name)
  /\ fst (getConfig app_host name_then_root start)
     = Ok {| oid := 0;
             content := VObj [("port", VNum 80); ("host", VStr "x")] |}
  /\ fileLoads (snd (getConfig app_host name_then_root start))
     = [ReadFile "/srv/app/app-defaults.conf"; ReadFile "/srv/app/app.conf"]
  /\ fst (getConfig app_host root_then_name
            (snd (getConfig app_host name_then_root start)))
     = Ok {| oid := 1;
             content := VObj [("port", VNum 80); ("host", VStr "x")] |}
  /\ fileLoads (snd (getConfig app_host root_then_name
                       (snd (getConfig app_host name_then_root start))))
     = [ReadFile "/srv/app/app-defaults.conf"; ReadFile "/srv/app/app.conf";
        ReadFile "/srv/app/app-defaults.conf"; ReadFile "/srv/app/app.conf"].
Proof.
  split; [reflexivity|]. split; [discriminate|].
  repeat split; vm_compute; reflexivity.
Qed.

(** C9, as the code has it: the cache of [getConfig] is keyed by the
    SHA-1 of [JSON.stringify(options)].  When two options objects have
    the same serialization and the first call has returned, the second
    call, in whatever state the file system is by then, returns the
    identical result object and leaves the process as it was: no file
    is loaded and no object is created. *)
Theorem getConfig_cached_by_serialization `{Objtools}
  (h1 h2 : Host) (o1 o2 : obj) (p p1 : Process) (c : config) :
  JSON_stringify (VObj o1) = JSON_stringify (VObj o2) ->
  getConfig h1 o1 p = (Ok c, p1) ->
  options_hash o1 = options_hash o2
  /\ cache_lookup (options_hash o2) (configCache p1) = Some c
  /\ getConfig h2 o2 p1 = (Ok c, p1).
Proof.
  intros Hjson Hfirst.
  assert (Hhash : options_hash o1 = options_hash o2)
    by (unfold options_hash; now rewrite Hjson).
  assert (Hcached : cache_lookup (options_hash o2) (configCache p1) = Some c).
  { rewrite <- Hhash. unfold getConfig in Hfirst.
    destruct (cache_lookup (options_hash o1) (configCache p)) as [c0|] eqn:E.
    - now injection Hfirst as <- <-.
    - destruct (loadConfig h1 _) as [[c0|e] st]; [|discriminate].
      injection Hfirst as <- <-. simpl. apply cache_lookup_store. }
  repeat split; try assumption.
  unfold getConfig. now rewrite Hcached.
Qed.

Lemma getConfig_cached_by_serialization_witness :
  getConfig (Example.host [] []) name_then_root
    (snd (getConfig app_host name_then_root start))
  = (Ok {| oid := 0;
           content := VObj [("port", VNum 80); ("host", VStr "x")] |},
     snd (getConfig app_host name_then_root start)).
Proof.
  refine (proj2 (proj2 (getConfig_cached_by_serialization
                          app_host (Example.host [] [])
                          name_then_root name_then_root start _ _ _ _))).
  - reflexivity.
  - vm_compute. reflexivity.
Defined.



(* ================================================================= *)
(** ** Further properties of the loader *)

Lemma upper_snake_char (a : ascii) :
  env_name_char
    (if is_upper (upcase a) || is_digit (upcase a) then upcase a else "_"%char)
  = true.
Proof. destruct a as [[] [] [] [] [] [] [] []]; reflexivity. Qed.

Lemma upper_snake_char_fixed (a : ascii) :
  env_name_char a = true ->
  (if is_upper (upcase a) || is_digit (upcase a) then upcase a else "_"%char)
  = a.
Proof. destruct a as [[] [] [] [] [] [] [] []]; (reflexivity || discriminate). Qed.

Lemma upper_snake_cons (a : ascii) (s : string) :
  upper_snake (String a s)
  = String (if is_upper (upcase a) || is_digit (upcase a)
            then upcase a else "_"%char) (upper_snake s).
Proof. reflexivity. Qed.

(** X1: the prefix that [loadConfig] and [_findConfigEnvironment] make
    of a project name holds only characters of [A-Z0-9_] and has the
    length of the name; making it again changes nothing, and a name
    already of that alphabet is its own prefix. *)
Theorem upper_snake_name (s : string) :
  string_forallb env_name_char (upper_snake s) = true
  /\ String.length (upper_snake s) = String.length s
  /\ upper_snake (upper_snake s) = upper_snake s
  /\ (string_forallb env_name_char s = true -> upper_snake s = s).
Proof.
  assert (Hfix : forall t, string_forallb env_name_char t = true ->
                           upper_snake t = t).
  { induction t as [|a t IH]; [reflexivity|]. intros H.
    cbn [string_forallb] in H. apply andb_prop in H as [Ha Ht].
    rewrite upper_snake_cons, (upper_snake_char_fixed a Ha). now rewrite (IH Ht). }
  assert (Hset : string_forallb env_name_char (upper_snake s) = true).
  { induction s as [|a s IH]; [reflexivity|].
    rewrite upper_snake_cons. cbn [string_forallb].
    now rewrite upper_snake_char, IH. }
  split; [exact Hset|]. split; [|split; [now apply Hfix | apply Hfix]].
  clear Hset. induction s as [|a s IH]; [reflexivity|].
  rewrite upper_snake_cons. cbn [String.length]. now rewrite IH.
Qed.

Lemma removeNulls_fixed (v : value) :
  no_null_inside v = true -> removeNulls v = v.
Proof.
  induction v as [| | | | |elems IH|props IH] using value_ind'; try reflexivity.
  - rewrite removeNulls_arr, no_null_inside_arr. intros H. f_equal.
    induction IH as [|e l He Hl IHl]; [reflexivity|].
    destruct e as [x|].
    + destruct (value_null_dec x) as [->|Hx]; [discriminate|].
      rewrite removeNulls_elems_cons by assumption.
      assert (Hs : no_null_inside x && no_null_elems l = true)
        by (destruct x; congruence || exact H).
      apply andb_prop in Hs as [H1 H2].
      now rewrite (He x eq_refl H1), (IHl H2).
    + simpl in *. now rewrite IHl.
  - rewrite removeNulls_obj, no_null_inside_obj. intros H. f_equal.
    induction IH as [|[k x] l Hx Hl IHl]; [reflexivity|].
    destruct (value_null_dec x) as [->|Hn]; [discriminate|].
    rewrite removeNulls_props_cons by assumption.
    assert (Hs : no_null_inside x && no_null_props l = true)
      by (destruct x; congruence || exact H).
    apply andb_prop in Hs as [H1 H2]. simpl in Hx.
    now rewrite (Hx H1), (IHl H2).
Qed.

(** X2: [removeNulls] is idempotent, and it returns unchanged a value
    that has no null in it. *)
Theorem removeNulls_idempotent (v : value) :
  removeNulls (removeNulls v) = removeNulls v
  /\ (no_null_inside v = true -> removeNulls v = v).
Proof.
  split; [|apply removeNulls_fixed].
  apply removeNulls_fixed, removeNulls_no_null.
Qed.

Lemma resolve_gather_absolute (cwd : string) (l : list string) (acc : string) :
  path_isAbsolute cwd = true ->
  snd (resolve_gather (l ++ [cwd])%list acc) = true.
Proof.
  intros Habs. revert acc. induction l as [|p l IH]; intros acc; simpl.
  - assert ((cwd =? "") = false) as -> by (destruct cwd; [discriminate|reflexivity]).
    now rewrite Habs.
  - destruct (p =? ""); [apply IH|].
    destruct (path_isAbsolute p); [reflexivity | apply IH].
Qed.

Lemma path_resolve_absolute (cwd : string) (args : list string) :
  path_isAbsolute cwd = true -> path_isAbsolute (path_resolve cwd args) = true.
Proof.
  intros Habs. unfold path_resolve.
  pose proof (resolve_gather_absolute cwd (rev args) "" Habs) as H.
  destruct (resolve_gather (rev args ++ [cwd])%list "") as [resolved absolute].
  simpl in H. subst absolute. reflexivity.
Qed.

Lemma path_resolve_nonempty (cwd : string) (args : list string) :
  path_resolve cwd args <> "".
Proof.
  unfold path_resolve.
  destruct (resolve_gather (rev args ++ [cwd])%list "") as [resolved absolute].
  destruct absolute; [discriminate|].
  destruct (join "/" _ =? "") eqn:E; [discriminate|].
  now apply String.eqb_neq.
Qed.

Lemma absolutePath_absolute (h : Host) (d f : value) (p : string) :
  path_isAbsolute (process_cwd h) = true ->
  absolutePath h d f = Ok p -> path_isAbsolute p = true.
Proof.
  intros Habs. unfold absolutePath.
  destruct f; try discriminate.
  destruct (path_isAbsolute s) eqn:E; [now intros [= <-]|].
  destruct d; try discriminate. intros [= <-].
  now apply path_resolve_absolute.
Qed.

Lemma resolve_in_found (h : Host) (d : value) (fs : list value) (p : string) :
  resolve_in h d fs = Ok (Some p) ->
  existsSync h p = true
  /\ exists f, In f fs /\ absolutePath h d f = Ok p.
Proof.
  induction fs as [|f fs IH]; simpl; [discriminate|].
  destruct (absolutePath h d f) as [q|e] eqn:E; [|discriminate].
  destruct (existsSync h q) eqn:Ex.
  - intros [= <-]. split; [assumption|]. exists f. split; [now left | assumption].
  - intros H. destruct (IH H) as (Hp & f' & Hin & Hf).
    split; [assumption|]. exists f'. split; [now right | assumption].
Qed.

Lemma resolve_over_found (h : Host) (ds fs : list value) (p : string) :
  resolve_over h ds fs = Ok (Some p) ->
  existsSync h p = true
  /\ exists d f, In d ds /\ In f fs /\ absolutePath h d f = Ok p.
Proof.
  induction ds as [|d ds IH]; simpl; [discriminate|].
  destruct (resolve_in h d fs) as [[q|]|e] eqn:E.
  - intros [= <-]. destruct (resolve_in_found h d fs q E) as (Hp & f & Hin & Hf).
    split; [assumption|]. exists d, f. repeat split; auto.
  - intros H. destruct (IH H) as (Hp & d' & f & Hd & Hin & Hf).
    split; [assumption|]. exists d', f. repeat split; auto.
  - discriminate.
Qed.

(** X3: a path that [_resolvePath] returns exists, is not empty, is
    the absolute path of one of the candidates in one of the search
    directories, and is absolute when the working directory is, whatever
    values the candidates and the directories are. *)
Theorem resolvePath_found (h : Host) (filenames searchPaths : value)
  (p : string) :
  _resolvePath h filenames searchPaths = Ok (Some p) ->
  existsSync h p = true
  /\ p <> ""
  /\ (exists d f, In d (as_array searchPaths) /\ In f (as_array filenames)
                  /\ absolutePath h d f = Ok p)
  /\ (path_isAbsolute (process_cwd h) = true -> path_isAbsolute p = true).
Proof.
  unfold _resolvePath. intros H.
  destruct (resolve_over_found _ _ _ _ H) as (Hp & d & f & Hd & Hf & Habs).
  split; [assumption|]. split.
  - unfold absolutePath in Habs. destruct f; try discriminate.
    destruct (path_isAbsolute s) eqn:E.
    + injection Habs as <-. intros ->. discriminate.
    + destruct d; try discriminate. injection Habs as <-.
      apply path_resolve_nonempty.
  - split; [eauto|]. intros Hcwd. eapply absolutePath_absolute; eauto.
Qed.

Lemma resolvePath_found_witness :
  existsSync (Example.host [("/etc/app.conf", Ok VNull)] []) "/etc/app.conf"
  = true.
Proof.
  refine (proj1 (resolvePath_found
                   (Example.host [("/etc/app.conf", Ok VNull)] [])
                   (strings ["app.conf"; "app.conf.js"])
                   (strings ["/srv/app"; "/etc"]) "/etc/app.conf" _)).
  reflexivity.
Defined.

Lemma resolve_over_no_candidate (h : Host) (ds : list value) :
  resolve_over h ds [] = Ok None.
Proof. induction ds as [|d ds IH]; simpl; auto. Qed.

(** X4: without a candidate [_resolvePath] returns null, whatever the
    directories are; without a search directory it returns null,
    whatever the candidates are, an absolute path that exists
    included. *)
Theorem resolvePath_nothing_to_try (h : Host) (v : value) :
  _resolvePath h (VArr []) v = Ok None
  /\ _resolvePath h v (VArr []) = Ok None.
Proof.
  unfold _resolvePath. split; [apply resolve_over_no_candidate | reflexivity].
Qed.

(** What [getConfigEnvironment] does when it returns: the environment
    passes [if (env)] and is the cached one from then on. *)
Lemma getConfigEnvironment_run (h : Host) (st st' : Run) (v : value) :
  getConfigEnvironment h st = (Ok v, st') ->
  truthy v = true /\ environment (this st') = v.
Proof.
  intros Hrun. unfold getConfigEnvironment in Hrun. unfold bind at 1 in Hrun.
  unfold get_this at 1 in Hrun.
  destruct (truthy (environment (this st))) eqn:E.
  - injection Hrun as <- <-. now split.
  - apply bind_Ok in Hrun. destruct Hrun as (env & st1 & Hfind & Hrun).
    unfold bind, set_this, ret in Hrun. injection Hrun as <- <-.
    split; [eapply findConfigEnvironment_truthy; eauto | reflexivity].
Qed.

(** X5: the environment that [getConfigEnvironment] returns is never
    empty (it passes [if (env)]), and it is the one the instance holds
    afterwards. *)
Theorem getConfigEnvironment_never_empty (h : Host) (st st' : Run) (v : value) :
  getConfigEnvironment h st = (Ok v, st') ->
  truthy v = true /\ v <> VStr "" /\ environment (this st') = v.
Proof.
  intros Hrun. destruct (getConfigEnvironment_run h st st' v Hrun) as [Ht Hf].
  repeat split; auto. intros ->. discriminate.
Qed.

Lemma getConfigEnvironment_never_empty_witness :
  truthy (VStr "local") = true /\ VStr "local" <> VStr ""
  /\ environment
       (this (snd (getConfigEnvironment (Example.host [] [("NODE_ENV", "")])
                     {| this := new_LittleConf
                                  (options_of_object
                                     (Example.named "app"
                                      ++ [("environmentOverride", VStr "")])%list);
                        trace := []; next_oid := 0 |})))
     = VStr "local".
Proof.
  refine (getConfigEnvironment_never_empty
            (Example.host [] [("NODE_ENV", "")])
            {| this := new_LittleConf
                         (options_of_object
                            (Example.named "app"
                             ++ [("environmentOverride", VStr "")])%list);
               trace := []; next_oid := 0 |}
            _ (VStr "local") _).
  reflexivity.
Defined.

Lemma cache_lookup_store_other (k k' : string) (c : config)
  (cache : list (string * config)) :
  k <> k' -> cache_lookup k (cache_store k' c cache) = cache_lookup k cache.
Proof.
  intros Hne. induction cache as [|[k0 c0] cache IH]; simpl.
  - destruct (k' =? k) eqn:E; [apply String.eqb_eq in E; congruence|reflexivity].
  - destruct (k0 =? k') eqn:E; simpl.
    + apply String.eqb_eq in E. subst k0.
      destruct (k' =? k) eqn:E'; [apply String.eqb_eq in E'; congruence|].
      reflexivity.
    + destruct (k0 =? k); [reflexivity | apply IH].
Qed.

Lemma getConfig_steps `{Objtools} (h : Host) (o : obj) (p : Process) :
  getConfig h o p
  = let (w, p1) := getConfig_begin h o p in getConfig_end w p1.
Proof.
  unfold getConfig, getConfig_begin.
  destruct (cache_lookup (options_hash o) (configCache p)) as [c|];
    [reflexivity|].
  destruct (loadConfig h _) as [[c|e] st]; reflexivity.
Qed.

Lemma getConfig_keeps (h : Host) `{Objtools} (o : obj) (p : Process)
  (k : string) (c : config) :
  cache_lookup k (configCache p) = Some c ->
  cache_lookup k (configCache (snd (getConfig h o p))) = Some c.
Proof.
  intros Hk. unfold getConfig.
  destruct (cache_lookup (options_hash o) (configCache p)) as [c0|] eqn:E;
    [assumption|].
  destruct (loadConfig h _) as [[c1|e] st]; simpl; [|assumption].
  rewrite cache_lookup_store_other; [assumption|].
  intros ->. congruence.
Qed.

(** X6: a call of [getConfig] that runs to its return before another
    call starts is the test of the cache followed at once by the store,
    and it never replaces or drops a cached configuration: an entry of
    [configCache] is the same after such a call, with any options,
    whether it returns or throws.  The first half of a call stores
    nothing; the store of the second half is unconditional, so when two
    calls with the same options overlap, both miss, both load, and the
    store of the one that ends last replaces the entry of the other:
    the two callers hold different objects. *)
Theorem getConfig_keeps_cached `{Objtools} (h : Host) (o : obj) (p : Process)
  (k : string) (c : config) :
  getConfig h o p
  = (let (w, p1) := getConfig_begin h o p in getConfig_end w p1)
  /\ (cache_lookup k (configCache p) = Some c ->
      cache_lookup k (configCache (snd (getConfig h o p))) = Some c)
  /\ configCache (snd (getConfig_begin h o p)) = configCache p
  /\ cache_lookup k (configCache (snd (getConfig_end (Loaded k (Ok c)) p)))
     = Some c
  /\ (let (w1, p1) :=
        getConfig_begin (objtools := spec_objtools) app_host name_then_root
          start in
      let (w2, p2) :=
        getConfig_begin (objtools := spec_objtools) app_host name_then_root
          p1 in
      let (r1, p3) := getConfig_end w1 p2 in
      let (r2, p4) := getConfig_end w2 p3 in
      r1 = Ok {| oid := 0;
                 content := VObj [("port", VNum 80); ("host", VStr "x")] |}
      /\ cache_lookup (options_hash name_then_root) (configCache p3)
         = Some {| oid := 0;
                   content := VObj [("port", VNum 80); ("host", VStr "x")] |}
      /\ r2 = Ok {| oid := 1;
                    content := VObj [("port", VNum 80); ("host", VStr "x")] |}
      /\ cache_lookup (options_hash name_then_root) (configCache p4)
         = Some {| oid := 1;
                   content := VObj [("port", VNum 80); ("host", VStr "x")] |}).
Proof.
  split; [apply getConfig_steps|].
  split; [apply getConfig_keeps|].
  split.
  { unfold getConfig_begin.
    destruct (cache_lookup (options_hash o) (configCache p)); [reflexivity|].
    now destruct (loadConfig h _). }
  split; [apply cache_lookup_store|].
  vm_compute. repeat split; reflexivity.
Qed.

Lemma getConfig_keeps_cached_witness :
  cache_lookup (options_hash name_then_root)
    (configCache
       (snd (getConfig app_host root_then_name
               (snd (getConfig app_host name_then_root start)))))
  = Some {| oid := 0;
            content := VObj [("port", VNum 80); ("host", VStr "x")] |}.
Proof.
  refine (proj1 (proj2 (getConfig_keeps_cached app_host root_then_name
                          (snd (getConfig app_host name_then_root start))
                          (options_hash name_then_root) _)) _).
  vm_compute. reflexivity.
Defined.

(** X7: what [_loadFile] returns for a path that is not a [.js] module
    is an object (or an array), never a scalar, null or undefined. *)
Theorem loadFile_text_is_object (h : Host) (filename : option string)
  (st st' : Run) (v : value) :
  (forall f, filename = Some f -> ends_with ".js" f = false) ->
  _loadFile h filename st = (Ok v, st') ->
  typeof_object v = true /\ v <> VNull.
Proof.
  intros Hjs. unfold _loadFile.
  destruct (nonempty filename) as [f|] eqn:Ef.
  2:{ intros [= <- _]. split; [reflexivity | discriminate]. }
  assert (Hf : filename = Some f).
  { destruct filename as [[|a s]|]; simpl in Ef; congruence. }
  destruct (negb (existsSync h f)).
  { intros [= <- _]. split; [reflexivity | discriminate]. }
  rewrite (Hjs f Hf). intros Hrun.
  apply bind_Ok in Hrun. destruct Hrun as (data & st1 & _ & Hrun).
  apply bind_Ok in Hrun. destruct Hrun as (r & st2 & _ & Hrun).
  destruct (negb (typeof_object r) || negb (truthy r)) eqn:E.
  - injection Hrun as <- _. split; [reflexivity | discriminate].
  - injection Hrun as <- _. apply orb_false_elim in E as [E1 E2].
    apply negb_false_iff in E1, E2. split; [assumption|].
    intros ->. discriminate.
Qed.

Lemma loadFile_text_is_object_witness :
  typeof_object (VObj []) = true /\ VObj [] <> VNull.
Proof.
  refine (loadFile_text_is_object
            (Example.host [("/srv/app/app.conf", Ok (VNum 42))] [])
            (Some "/srv/app/app.conf")
            {| this := new_LittleConf LittleConfOptions.empty;
               trace := []; next_oid := 0 |}
            _ (VObj []) _ _).
  - intros f [= <-]. reflexivity.
  - reflexivity.
Defined.

Lemma kept_value_refl (a : value) : kept_value a a.
Proof. now intros _. Qed.

Lemma kept_value_trans (a b c : value) :
  kept_value a b -> kept_value b c -> kept_value a c.
Proof.
  unfold kept_value. intros Hab Hbc Ha.
  specialize (Hab Ha). subst b. now apply Hbc.
Qed.

Lemma kept_dir_refl (a : option string) : kept_dir a a.
Proof. now intros _. Qed.

Lemma kept_dir_trans (a b c : option string) :
  kept_dir a b -> kept_dir b c -> kept_dir a c.
Proof.
  unfold kept_dir. intros Hab Hbc Ha.
  specialize (Hab Ha). subst b. now apply Hbc.
Qed.

#[export] Instance fills_root_preorder : PreOrder fills_root.
Proof.
  split.
  - intros lc. repeat split.
  - intros a b c (H1 & H2 & H3 & H4) (K1 & K2 & K3 & K4).
    repeat split; try congruence. eapply kept_dir_trans; eauto.
Qed.

#[export] Instance fills_name_preorder : PreOrder fills_name.
Proof.
  split.
  - intros lc. repeat split.
  - intros a b c (H1 & H2 & H3 & H4) (K1 & K2 & K3 & K4).
    repeat split; try congruence.
    + eapply kept_value_trans; eauto.
    + eapply kept_dir_trans; eauto.
Qed.

#[export] Instance fills_cache_preorder : PreOrder fills_cache.
Proof.
  split.
  - intros lc. repeat split.
  - intros a b c (H1 & H2 & H3 & H4) (K1 & K2 & K3 & K4).
    repeat split; try congruence.
    + eapply kept_value_trans; eauto.
    + eapply kept_value_trans; eauto.
    + eapply kept_dir_trans; eauto.
Qed.

Lemma fills_root_name (lc lc' : LittleConf) :
  fills_root lc lc' -> fills_name lc lc'.
Proof.
  intros (H1 & H2 & H3 & H4). repeat split; auto.
  intros _. assumption.
Qed.

Lemma fills_name_cache (lc lc' : LittleConf) :
  fills_name lc lc' -> fills_cache lc lc'.
Proof.
  intros (H1 & H2 & H3 & H4). repeat split; auto.
  intros _. assumption.
Qed.

Section follows.
Context (R : LittleConf -> LittleConf -> Prop) `{!PreOrder R}.

Lemma follows_ret {A} (a : A) : follows R (ret a).
Proof. intros st. reflexivity. Qed.

Lemma follows_throw {A} (e : exn) : follows R (@throw A e).
Proof. intros st. reflexivity. Qed.

Lemma follows_lift {A} (r : result A) : follows R (lift r).
Proof. intros st. reflexivity. Qed.

Lemma follows_get_this : follows R get_this.
Proof. intros st. reflexivity. Qed.

Lemma follows_log (e : event) : follows R (log e).
Proof. intros st. reflexivity. Qed.

Lemma follows_fresh_oid : follows R fresh_oid.
Proof. intros st. reflexivity. Qed.

Lemma follows_bind {A B} (c : M A) (k : A -> M B) :
  follows R c -> (forall a, follows R (k a)) -> follows R (bind c k).
Proof.
  intros Hc Hk st. unfold bind. specialize (Hc st).
  destruct (c st) as [[a|e] st1]; simpl in *; [|assumption].
  etransitivity; [exact Hc | apply Hk].
Qed.

Lemma follows_read_file (h : Host) (path : string) :
  follows R (read_file h path).
Proof. apply follows_bind; [apply follows_log | intros; apply follows_lift]. Qed.

Lemma follows_import_module (h : Host) (path : string) :
  follows R (import_module h path).
Proof. apply follows_bind; [apply follows_log | intros; apply follows_lift]. Qed.

Lemma follows_getCLIArgument (name : string) : follows R (_getCLIArgument name).
Proof.
  apply follows_bind; [apply follows_get_this|]. intros lc.
  destruct (LittleConfOptions.argv (options lc)); apply follows_ret.
Qed.

Lemma follows_loadFile (h : Host) (filename : option string) :
  follows R (_loadFile h filename).
Proof.
  unfold _loadFile. destruct (nonempty filename) as [f|]; [|apply follows_ret].
  destruct (negb (existsSync h f)); [apply follows_ret|].
  destruct (ends_with ".js" f); [apply follows_import_module|].
  apply follows_bind; [apply follows_read_file|]. intros data.
  apply follows_bind; [apply follows_lift|]. intros r.
  destruct (_ || _); apply follows_ret.
Qed.
End follows.

Lemma follows_weaken (R R' : LittleConf -> LittleConf -> Prop) {A} (c : M A) :
  (forall lc lc', R lc lc' -> R' lc lc') -> follows R c -> follows R' c.
Proof. intros Hsub Hc st. apply Hsub, Hc. Qed.

Lemma find_package_json_nonempty (h : Host) (turns : nat) (m dir : string) :
  m <> "" -> dir <> "" -> find_package_json h turns m dir <> "".
Proof.
  intros Hm. revert dir. induction turns as [|turns IH]; intros dir Hdir; simpl.
  - now destruct (existsSync h _).
  - destruct (existsSync h _); [assumption|].
    destruct (_ =? dir); [assumption|].
    apply IH. apply path_resolve_nonempty.
Qed.

Lemma nonempty_inv (s : option string) (d : string) :
  nonempty s = Some d -> s = Some d /\ d <> "".
Proof. destruct s as [[|a s]|]; simpl; try discriminate. now intros [= <-]. Qed.

Lemma findProjectRootDir_run (h : Host) (st : Run) :
  exists d, _findProjectRootDir h st = (Ok d, st) /\ d <> "".
Proof.
  unfold _findProjectRootDir, bind, get_this, ret.
  destruct (nonempty (LittleConfOptions.rootDir _)) as [d|] eqn:E.
  - exists d. split; [reflexivity|]. now apply nonempty_inv in E.
  - eexists. split; [reflexivity|].
    apply find_package_json_nonempty; apply path_resolve_nonempty.
Qed.

(** What [getProjectRootDir] does: it returns a directory, which is
    the cached one from then on. *)
Lemma getProjectRootDir_run (h : Host) (st : Run) :
  exists d st',
    getProjectRootDir h st = (Ok d, st') /\ d <> ""
    /\ rootDir (this st') = Some d
    /\ fills_root (this st) (this st')
    /\ trace st' = trace st /\ next_oid st' = next_oid st.
Proof.
  unfold getProjectRootDir. unfold bind at 1. unfold get_this at 1.
  destruct (nonempty (rootDir (this st))) as [d|] eqn:E.
  - exists d, st. apply nonempty_inv in E as [E1 E2].
    repeat split; auto.
  - destruct (findProjectRootDir_run h st) as (d & Hd & Hne).
    unfold bind. rewrite Hd. unfold set_this, ret. simpl.
    eexists _, _. split; [reflexivity|]. simpl.
    repeat split; auto. intros Hc. congruence.
Qed.

Lemma getProjectRootDir_cached (h : Host) (st : Run) (d : string) :
  rootDir (this st) = Some d -> d <> "" ->
  getProjectRootDir h st = (Ok d, st).
Proof.
  intros Hr Hd. unfold getProjectRootDir, bind, get_this.
  rewrite Hr, (nonempty_Some d Hd). reflexivity.
Qed.

Lemma follows_getProjectRootDir (h : Host) :
  follows fills_root (getProjectRootDir h).
Proof.
  intros st. destruct (getProjectRootDir_run h st) as (d & st' & -> & _ & _ & H & _).
  exact H.
Qed.

Lemma follows_pkg_name (R : LittleConf -> LittleConf -> Prop) `{!PreOrder R}
  (pkg : value) : follows R (pkg_name pkg).
Proof. destruct pkg; (apply follows_ret || apply follows_throw); apply _. Qed.

Lemma follows_findProjectName (h : Host) :
  follows fills_root (_findProjectName h).
Proof.
  unfold _findProjectName.
  apply follows_bind; [apply _ | apply follows_get_this; apply _|]. intros lc.
  apply follows_bind; [apply _| |].
  - destruct (nonempty (LittleConfOptions.projectName _));
      [apply follows_ret; apply _|].
    apply follows_bind; [apply _ | apply follows_getProjectRootDir|].
    intros root. destruct (existsSync h _); [|apply follows_ret; apply _].
    apply follows_bind; [apply _ | apply follows_read_file; apply _|].
    intros text.
    apply follows_bind; [apply _ | apply follows_lift; apply _|]. intros pkg.
    apply follows_bind; [apply _ | apply follows_pkg_name; apply _|]. intros n.
    destruct (truthy n); apply follows_ret; apply _.
  - intros name. destruct (negb (truthy name)); [apply follows_ret; apply _|].
    destruct (exec_scoped _); apply follows_ret; apply _.
Qed.

Lemma exec_scoped_nonempty (name pkg : string) :
  exec_scoped name = Some pkg -> pkg <> "".
Proof.
  unfold exec_scoped. destruct name as [|a name]; [discriminate|].
  destruct a as [[] [] [] [] [] [] [] []]; try discriminate.
  destruct (split_on "/" name) as [|scope [|p [|? ?]]]; try discriminate.
  destruct (negb (scope =? "") && _ && negb (p =? "") && _) eqn:E;
    [|discriminate].
  intros [= <-]. apply andb_prop in E as [E _]. apply andb_prop in E as [_ E].
  apply negb_true_iff in E. now apply String.eqb_neq.
Qed.

Lemma findProjectName_truthy (h : Host) (st st' : Run) (v : value) :
  _findProjectName h st = (Ok v, st') -> truthy v = true.
Proof.
  unfold _findProjectName. intros Hrun.
  apply bind_Ok in Hrun. destruct Hrun as (lc & st1 & _ & Hrun).
  apply bind_Ok in Hrun. destruct Hrun as (name & st2 & _ & Hrun).
  destruct (truthy name) eqn:E; simpl in Hrun.
  - destruct (exec_scoped (to_string name)) as [pkg|] eqn:Es.
    + injection Hrun as <- _. apply exec_scoped_nonempty in Es.
      destruct pkg; [congruence | reflexivity].
    + now injection Hrun as <- _.
  - now injection Hrun as <- _.
Qed.

(** What [getProjectName] does when it returns: the name passes
    [if (name)] and is the cached one from then on. *)
Lemma getProjectName_run (h : Host) (st st' : Run) (v : value) :
  getProjectName h st = (Ok v, st') ->
  truthy v = true /\ projectName (this st') = v.
Proof.
  unfold getProjectName. unfold bind at 1. unfold get_this at 1.
  destruct (truthy (projectName (this st))) eqn:E.
  - intros [= <- <-]. now split.
  - intros Hrun. apply bind_Ok in Hrun. destruct Hrun as (n & st1 & Hf & Hrun).
    unfold bind, set_this, ret in Hrun. injection Hrun as <- <-.
    split; [eapply findProjectName_truthy; eauto | reflexivity].
Qed.

Lemma getProjectName_cached (h : Host) (st : Run) :
  truthy (projectName (this st)) = true ->
  getProjectName h st = (Ok (projectName (this st)), st).
Proof. intros Ht. unfold getProjectName, bind, get_this. now rewrite Ht. Qed.

Lemma follows_getProjectName (h : Host) :
  follows fills_name (getProjectName h).
Proof.
  intros st. unfold getProjectName. unfold bind at 1. unfold get_this at 1.
  destruct (truthy (projectName (this st))) eqn:E; [reflexivity|].
  unfold bind at 1.
  pose proof (follows_findProjectName h st) as Hf.
  destruct (_findProjectName h st) as [[n|e] st1]; simpl in *.
  - destruct Hf as (H1 & H2 & H3 & H4). repeat split; auto.
    intros Ht. congruence.
  - now apply fills_root_name.
Qed.

Lemma follows_project_prefix (h : Host) : follows fills_name (project_prefix h).
Proof.
  apply follows_bind; [apply _ | apply follows_getProjectName|].
  intros name. destruct name; (apply follows_ret || apply follows_throw); apply _.
Qed.

Lemma follows_project_file (h : Host) (suffix : string) :
  follows fills_name (project_file h suffix).
Proof.
  apply follows_bind; [apply _ | apply follows_getProjectName|].
  intros name. apply follows_ret; apply _.
Qed.

Lemma follows_findConfigEnvironment (h : Host) :
  follows fills_name (_findConfigEnvironment h).
Proof.
  unfold _findConfigEnvironment.
  apply follows_bind; [apply _ | apply follows_get_this; apply _|]. intros lc.
  destruct (nonempty (LittleConfOptions.environmentOverride _));
    [apply follows_ret; apply _|].
  apply follows_bind; [apply _ | apply follows_getCLIArgument; apply _|].
  intros cliEnv. destruct (truthy cliEnv); [apply follows_ret; apply _|].
  apply follows_bind; [apply _| |].
  - destruct (nonempty (LittleConfOptions.envVariableEnvironment _));
      [apply follows_ret; apply _|].
    apply follows_bind; [apply _ | apply follows_project_prefix|].
    intros p. apply follows_ret; apply _.
  - intros name. destruct (nonempty (env_lookup name _));
      [apply follows_ret; apply _|].
    destruct (nonempty (env_lookup "NODE_ENV" _)); apply follows_ret; apply _.
Qed.

Lemma follows_getConfigEnvironment (h : Host) :
  follows fills_cache (getConfigEnvironment h).
Proof.
  intros st. unfold getConfigEnvironment. unfold bind at 1. unfold get_this at 1.
  destruct (truthy (environment (this st))) eqn:E; [reflexivity|].
  unfold bind at 1.
  pose proof (follows_findConfigEnvironment h st) as Hf.
  destruct (_findConfigEnvironment h st) as [[n|e] st1]; simpl in *.
  - destruct Hf as (H1 & H2 & H3 & H4). repeat split; auto.
    intros Ht. congruence.
  - now apply fills_name_cache.
Qed.

Section follows_loadConfig.
Context {objtools : Objtools}.
Variable h : Host.

Lemma follows_load_defaults : follows fills_name (load_defaults h).
Proof.
  unfold load_defaults.
  apply follows_bind; [apply _ | apply follows_get_this; apply _|]. intros lc.
  apply follows_bind; [apply _| |].
  - destruct (nonempty (LittleConfOptions.defaultsFilename _));
      [apply follows_ret; apply _|].
    apply follows_bind; [apply _ | apply follows_project_file|]. intros a.
    apply follows_bind; [apply _ | apply follows_project_file|]. intros b.
    apply follows_ret; apply _.
  - intros f. apply follows_bind; [apply _| |].
    + apply (follows_weaken fills_root); [apply fills_root_name|].
      apply follows_getProjectRootDir.
    + intros root. apply follows_bind; [apply _ | apply follows_lift; apply _|].
      intros p. apply follows_loadFile; apply _.
Qed.

Lemma follows_load_main : follows fills_name (load_main h).
Proof.
  unfold load_main.
  apply follows_bind; [apply _ | apply follows_get_this; apply _|]. intros lc.
  apply follows_bind; [apply _| |].
  { destruct (negb _);
      [apply follows_getCLIArgument | apply follows_ret]; apply _. }
  intros f1. apply follows_bind; [apply _| |].
  { destruct (negb _); [|apply follows_ret; apply _].
    apply follows_bind; [apply _| |intros; apply follows_ret; apply _].
    destruct (nonempty (LittleConfOptions.envVariableFile _));
      [apply follows_ret; apply _|].
    apply follows_bind; [apply _ | apply follows_project_prefix|].
    intros p. apply follows_ret; apply _. }
  intros f2. apply follows_bind; [apply _| |].
  { destruct (negb _); [|apply follows_ret; apply _].
    apply follows_bind; [apply _ | apply follows_project_file|]. intros a.
    apply follows_bind; [apply _ | apply follows_project_file|]. intros b.
    apply follows_ret; apply _. }
  intros f3. apply follows_bind; [apply _| |].
  { apply (follows_weaken fills_root); [apply fills_root_name|].
    apply follows_getProjectRootDir. }
  intros root. apply follows_bind; [apply _ | apply follows_lift; apply _|].
  intros p. destruct (nonempty p);
    [apply follows_loadFile | apply follows_ret]; apply _.
Qed.

Lemma follows_collect_overrides : follows fills_name (collect_overrides h).
Proof.
  unfold collect_overrides.
  apply follows_bind; [apply _ | apply follows_project_prefix|]. intros p.
  apply follows_bind; [apply _ | apply follows_get_this; apply _|]. intros lc.
  apply follows_ret; apply _.
Qed.

Lemma follows_loadConfig : follows fills_cache (loadConfig h).
Proof.
  unfold loadConfig.
  apply follows_bind; [apply _| |].
  { apply (follows_weaken fills_name); [apply fills_name_cache|].
    apply follows_load_defaults. }
  intros d. apply follows_bind; [apply _| |].
  { apply (follows_weaken fills_name); [apply fills_name_cache|].
    apply follows_load_main. }
  intros m. apply follows_bind; [apply _| |].
  { apply (follows_weaken fills_name); [apply fills_name_cache|].
    apply follows_collect_overrides. }
  intros ov. apply follows_bind; [apply _ | apply follows_getConfigEnvironment|].
  intros env. apply follows_bind; [apply _ | apply follows_fresh_oid; apply _|].
  intros id. apply follows_ret; apply _.
Qed.
End follows_loadConfig.

Lemma first_manifest_find (h : Host) (m : string) (rs : list string) :
  first_manifest h m rs
  = match find (has_manifest h) (ancestors rs) with
    | Some d => d
    | None => m
    end.
Proof.
  induction rs as [|s rs IH]; simpl; unfold has_manifest at 1.
  - now destruct (existsSync h _).
  - destruct (existsSync h _); [reflexivity | exact IH].
Qed.

Lemma resolve_cwd_segments (h : Host) :
  path_isAbsolute (process_cwd h) = true ->
  path_resolve (process_cwd h) [process_cwd h] = abs_path (cwd_segments h)
  /\ forallb clean (cwd_segments h) = true.
Proof.
  intros Habs. split.
  - unfold path_resolve. cbn [rev app resolve_gather].
    assert (Hne : (process_cwd h =? "") = false)
      by (destruct (process_cwd h); [discriminate|reflexivity]).
    rewrite Hne, Habs. reflexivity.
  - apply normalize_output_clean; [apply split_on_no_slash | reflexivity].
Qed.

Lemma findProjectRootDir_walk (h : Host) (st : Run) :
  path_isAbsolute (process_cwd h) = true ->
  nonempty (LittleConfOptions.rootDir (options (this st))) = None ->
  _findProjectRootDir h st
  = (Ok (match find (has_manifest h) (ancestors (rev (cwd_segments h))) with
         | Some d => d
         | None => abs_path (cwd_segments h)
         end), st).
Proof.
  intros Habs Hopt. unfold _findProjectRootDir, bind, get_this, ret.
  rewrite Hopt. destruct (resolve_cwd_segments h Habs) as [-> Hc].
  rewrite find_package_json_turns
    by (assumption || apply abs_path_length; assumption).
  now rewrite first_manifest_find.
Qed.

(** X8: without a [rootDir] option, and with an absolute working
    directory, the root directory is the nearest directory that holds a
    [package.json], from the working directory up to [/], and the
    resolved working directory when none does; no file is read. *)
Theorem findProjectRootDir_nearest_manifest (h : Host) (st : Run) :
  path_isAbsolute (process_cwd h) = true ->
  nonempty (LittleConfOptions.rootDir (options (this st))) = None ->
  nonempty (rootDir (this st)) = None ->
  fst (getProjectRootDir h st)
  = Ok (match find (has_manifest h) (ancestors (rev (cwd_segments h))) with
        | Some d => d
        | None => abs_path (cwd_segments h)
        end)
  /\ trace (snd (getProjectRootDir h st)) = trace st.
Proof.
  intros Habs Hopt Hcache.
  unfold getProjectRootDir, bind, get_this. rewrite Hcache.
  rewrite (findProjectRootDir_walk h st Habs Hopt). split; reflexivity.
Qed.

Lemma findProjectRootDir_nearest_manifest_witness :
  fst (getProjectRootDir
         (in_directory "/srv/app/src/lib/"
            (Example.host [("/srv/app/package.json", Ok VNull);
                           ("/package.json", Ok VNull)] []))
         {| this := new_LittleConf LittleConfOptions.empty;
            trace := []; next_oid := 0 |})
  = Ok "/srv/app".
Proof.
  refine (proj1 (findProjectRootDir_nearest_manifest
                   (in_directory "/srv/app/src/lib/"
                      (Example.host [("/srv/app/package.json", Ok VNull);
                                     ("/package.json", Ok VNull)] []))
                   {| this := new_LittleConf LittleConfOptions.empty;
                      trace := []; next_oid := 0 |} _ _ _));
    reflexivity.
Defined.

(** X9: [getProjectRootDir] always returns, a directory that is not
    empty, without reading a file, and every later call returns the
    same directory, whatever the file system and the working directory
    have become. *)
Theorem getProjectRootDir_total_cached (h : Host) (st : Run) :
  exists d st',
    getProjectRootDir h st = (Ok d, st')
    /\ d <> ""
    /\ trace st' = trace st
    /\ forall h', getProjectRootDir h' st' = (Ok d, st').
Proof.
  destruct (getProjectRootDir_run h st) as (d & st' & Hrun & Hd & Hr & _ & Ht & _).
  exists d, st'. repeat split; auto.
  intros h'. now apply getProjectRootDir_cached.
Qed.

(** X10: the name that [getProjectName] returns passes [if (name)],
    and every later call returns it, whatever the manifest has
    become. *)
Theorem getProjectName_cached_after (h : Host) (st st' : Run) (v : value) :
  getProjectName h st = (Ok v, st') ->
  truthy v = true
  /\ forall h', getProjectName h' st' = (Ok v, st').
Proof.
  intros Hrun. destruct (getProjectName_run h st st' v Hrun) as [Ht Hc].
  split; [assumption|]. intros h'.
  rewrite <- Hc at 1. apply getProjectName_cached. now rewrite Hc.
Qed.

Lemma getProjectName_cached_after_witness :
  truthy (VStr "project") = true
  /\ forall h',
       getProjectName h'
         (snd (getProjectName (Example.host [] [])
                 {| this := new_LittleConf LittleConfOptions.empty;
                    trace := []; next_oid := 0 |}))
       = (Ok (VStr "project"),
          snd (getProjectName (Example.host [] [])
                 {| this := new_LittleConf LittleConfOptions.empty;
                    trace := []; next_oid := 0 |})).
Proof.
  refine (getProjectName_cached_after (Example.host [] [])
            {| this := new_LittleConf LittleConfOptions.empty;
               trace := []; next_oid := 0 |} _ (VStr "project") _).
  reflexivity.
Defined.

Lemma ident_char_no_slash (a : ascii) :
  ident_char a = true -> negb (Ascii.eqb a "/") = true.
Proof. destruct a as [[] [] [] [] [] [] [] []]; (reflexivity || discriminate). Qed.

Lemma ident_no_slash (s : string) :
  string_forallb ident_char s = true ->
  string_forallb (fun a => negb (Ascii.eqb a "/")) s = true.
Proof.
  induction s as [|a s IH]; [reflexivity|]. simpl. intros H.
  apply andb_prop in H as [Ha Hs].
  now rewrite (ident_char_no_slash a Ha), (IH Hs).
Qed.

Lemma exec_scoped_match (scope pkg : string) :
  scope <> "" -> pkg <> "" ->
  string_forallb ident_char scope = true ->
  string_forallb ident_char pkg = true ->
  exec_scoped ("@" ++ scope ++ "/" ++ pkg) = Some pkg.
Proof.
  intros Hs Hp Hcs Hcp. unfold exec_scoped. cbn [append].
  change (scope ++ String "/" pkg) with (scope ++ String "/" pkg).
  rewrite (split_on_first "/" scope pkg (ident_no_slash _ Hcs)).
  rewrite (split_on_no_sep "/" pkg (ident_no_slash _ Hcp)).
  apply String.eqb_neq in Hs, Hp. now rewrite Hs, Hp, Hcs, Hcp.
Qed.

Lemma join_split_on (c : ascii) (s : string) :
  join (String c "") (split_on c s) = s.
Proof.
  induction s as [|a s IH]; [reflexivity|]. simpl.
  destruct (Ascii.eqb a c) eqn:E.
  - apply Ascii.eqb_eq in E. subst a.
    destruct (split_on_cons c s) as (k & ks & Hk). rewrite Hk in *.
    change (join (String c "") ("" :: k :: ks))
      with ("" ++ String c "" ++ join (String c "") (k :: ks)).
    now rewrite IH.
  - destruct (split_on c s) as [|p ps] eqn:Es.
    + destruct (split_on_cons c s) as (k & ks & Hk). congruence.
    + destruct ps as [|p' ps].
      * simpl in *. now rewrite IH.
      * change (join (String c "") (String a p :: p' :: ps))
          with (String a (p ++ String c "" ++ join (String c "") (p' :: ps))).
        now rewrite <- IH.
Qed.

Lemma exec_scoped_inv (name pkg : string) :
  exec_scoped name = Some pkg ->
  exists scope,
    name = "@" ++ scope ++ "/" ++ pkg
    /\ scope <> "" /\ pkg <> ""
    /\ string_forallb ident_char scope = true
    /\ string_forallb ident_char pkg = true.
Proof.
  unfold exec_scoped. destruct name as [|a name]; [discriminate|].
  destruct a as [[] [] [] [] [] [] [] []]; try discriminate.
  pose proof (join_split_on "/" name) as Hj.
  destruct (split_on "/" name) as [|scope [|p [|? ?]]]; try discriminate.
  destruct (negb (scope =? "") && string_forallb ident_char scope
            && negb (p =? "") && string_forallb ident_char p) eqn:E;
    [|discriminate].
  intros [= <-]. apply andb_prop in E as [E E4]. apply andb_prop in E as [E E3].
  apply andb_prop in E as [E1 E2].
  apply negb_true_iff in E1, E3. apply String.eqb_neq in E1, E3.
  exists scope. repeat split; auto. now rewrite <- Hj.
Qed.

(** What [_findProjectName] does without a [projectName] option, once
    the root directory is known. *)
Lemma findProjectName_manifest (h : Host) (st st1 : Run) (root : string) :
  nonempty (LittleConfOptions.projectName (options (this st))) = None ->
  getProjectRootDir h st = (Ok root, st1) ->
  _findProjectName h st
  = if existsSync h (manifest root) then
      match readFileSync h (manifest root) with
      | Throw e => (Throw e, logged (ReadFile (manifest root)) st1)
      | Ok text =>
          match JSON_parse h text with
          | Throw e => (Throw e, logged (ReadFile (manifest root)) st1)
          | Ok (VObj o) =>
              (Ok (project_name_of (prop "name" o)),
               logged (ReadFile (manifest root)) st1)
          | Ok VNull | Ok VUndefined =>
              (Throw (TypeError "Cannot read properties of null"),
               logged (ReadFile (manifest root)) st1)
          | Ok _ => (Ok (VStr "project"), logged (ReadFile (manifest root)) st1)
          end
      end
    else (Ok (VStr "project"), st1).
Proof.
  intros Hopt Hroot. unfold _findProjectName.
  unfold bind at 1. unfold get_this at 1. rewrite Hopt.
  unfold bind at 1. unfold bind at 1. rewrite Hroot.
  fold (manifest root). destruct (existsSync h (manifest root)); [|reflexivity].
  unfold bind at 1. unfold read_file, bind at 1, log, lift.
  destruct (readFileSync h (manifest root)) as [text|e]; [|reflexivity].
  unfold bind at 1.
  destruct (JSON_parse h text) as [pkg|e]; [|reflexivity].
  unfold bind at 1. unfold project_name_of.
  destruct pkg; try reflexivity.
  unfold pkg_name, ret.
  destruct (truthy (prop "name" props)) eqn:E; simpl; rewrite ?E; try reflexivity.
  destruct (exec_scoped _); reflexivity.
Qed.

Lemma getProjectName_fresh (h : Host) (st : Run) :
  truthy (projectName (this st)) = false ->
  getProjectName h st
  = match _findProjectName h st with
    | (Ok name, st1) => (Ok name, named_run name st1)
    | (Throw e, st1) => (Throw e, st1)
    end.
Proof.
  intros Hf. unfold getProjectName, bind, get_this. rewrite Hf.
  destruct (_findProjectName h st) as [[name|e] st1]; reflexivity.
Qed.

(** X11: a [projectName] option of the form [@scope/name], scope and
    name made of [-_A-Za-z0-9], gives the project name [name], which
    the instance caches; the file system is not looked at. *)
Theorem project_name_scope (h : Host) (o : LittleConfOptions.t)
  (scope pkg : string) (tr : list event) (next : nat) :
  scope <> "" -> pkg <> "" ->
  string_forallb ident_char scope = true ->
  string_forallb ident_char pkg = true ->
  LittleConfOptions.projectName o = Some ("@" ++ scope ++ "/" ++ pkg) ->
  exec_scoped ("@" ++ scope ++ "/" ++ pkg) = Some pkg
  /\ getProjectName h {| this := new_LittleConf o; trace := tr;
                         next_oid := next |}
     = (Ok (VStr pkg),
        named_run (VStr pkg)
          {| this := new_LittleConf o; trace := tr; next_oid := next |}).
Proof.
  intros Hs Hp Hcs Hcp Ho.
  pose proof (exec_scoped_match scope pkg Hs Hp Hcs Hcp) as Hm.
  split; [assumption|].
  rewrite getProjectName_fresh by reflexivity.
  assert (Hn : nonempty (LittleConfOptions.projectName o)
               = Some ("@" ++ scope ++ "/" ++ pkg)) by (now rewrite Ho).
  rewrite (findProjectName_option h o _ Hn) by reflexivity.
  unfold option_name. now rewrite Hm.
Qed.

Lemma project_name_scope_witness :
  exec_scoped "@acme/web-app" = Some "web-app"
  /\ getProjectName (Example.host [] [])
       {| this := new_LittleConf
                    (options_of_object [("projectName", VStr "@acme/web-app")]);
          trace := []; next_oid := 0 |}
     = (Ok (VStr "web-app"),
        named_run (VStr "web-app")
          {| this := new_LittleConf
                       (options_of_object
                          [("projectName", VStr "@acme/web-app")]);
             trace := []; next_oid := 0 |}).
Proof.
  refine (project_name_scope (Example.host [] [])
            (options_of_object [("projectName", VStr "@acme/web-app")])
            "acme" "web-app" [] 0 _ _ _ _ _);
    (reflexivity || discriminate).
Defined.

(** X12: the scope is stripped from the names of the form
    [@scope/name], with a scope and a name that are not empty and made
    of [-_A-Za-z0-9], and from no other name. *)
Theorem exec_scoped_shape (name pkg : string) :
  exec_scoped name = Some pkg <->
  exists scope,
    name = "@" ++ scope ++ "/" ++ pkg
    /\ scope <> "" /\ pkg <> ""
    /\ string_forallb ident_char scope = true
    /\ string_forallb ident_char pkg = true.
Proof.
  split; [apply exec_scoped_inv|].
  intros (scope & -> & Hs & Hp & Hcs & Hcp). now apply exec_scoped_match.
Qed.

(** X13: without a [projectName] option, the project name is the
    [name] of the manifest of the root directory, without its scope if
    it has one ([project] if it is missing or empty); the manifest is
    read once and the name is cached. *)
Theorem project_name_from_manifest (h : Host) (st st1 : Run) (root text : string)
  (pkg : obj) :
  nonempty (LittleConfOptions.projectName (options (this st))) = None ->
  truthy (projectName (this st)) = false ->
  getProjectRootDir h st = (Ok root, st1) ->
  existsSync h (manifest root) = true ->
  readFileSync h (manifest root) = Ok text ->
  JSON_parse h text = Ok (VObj pkg) ->
  getProjectName h st
  = (Ok (project_name_of (prop "name" pkg)),
     named_run (project_name_of (prop "name" pkg))
       (logged (ReadFile (manifest root)) st1))
  /\ trace (logged (ReadFile (manifest root)) st1)
     = (trace st ++ [ReadFile (manifest root)])%list.
Proof.
  intros Hopt Hfresh Hroot He Hread Hparse.
  rewrite getProjectName_fresh by assumption.
  rewrite (findProjectName_manifest h st st1 root Hopt Hroot), He, Hread, Hparse.
  split; [reflexivity|].
  destruct (getProjectRootDir_run h st) as (d & st' & Hrun & _ & _ & _ & Ht & _).
  rewrite Hroot in Hrun. injection Hrun as _ <-. simpl. now rewrite Ht.
Qed.

Lemma project_name_from_manifest_witness :
  getProjectName
    (manifest_host (Ok (VObj [("name", VStr "@acme/web-app");
                              ("version", VStr "1.0.0")])))
    rooted
  = (Ok (VStr "web-app"),
     named_run (VStr "web-app")
       (logged (ReadFile "/srv/app/package.json")
          (snd (getProjectRootDir (manifest_host (Ok VNull)) rooted)))).
Proof.
  refine (proj1 (project_name_from_manifest
                   (manifest_host (Ok (VObj [("name", VStr "@acme/web-app");
                                             ("version", VStr "1.0.0")])))
                   rooted
                   (snd (getProjectRootDir (manifest_host (Ok VNull)) rooted))
                   "/srv/app" "/srv/app/package.json"
                   [("name", VStr "@acme/web-app"); ("version", VStr "1.0.0")]
                   _ _ _ _ _ _));
    reflexivity.
Defined.

(** X14: without a [projectName] option, the project name is
    [project] when the root directory has no manifest (no file is read
    then) and when the manifest has no name. *)
Theorem project_name_fallback (h : Host) (st st1 : Run) (root : string) :
  nonempty (LittleConfOptions.projectName (options (this st))) = None ->
  truthy (projectName (this st)) = false ->
  getProjectRootDir h st = (Ok root, st1) ->
  (existsSync h (manifest root) = false ->
   getProjectName h st = (Ok (VStr "project"), named_run (VStr "project") st1)
   /\ trace st1 = trace st)
  /\ (forall text pkg,
        existsSync h (manifest root) = true ->
        readFileSync h (manifest root) = Ok text ->
        JSON_parse h text = Ok (VObj pkg) ->
        truthy (prop "name" pkg) = false ->
        fst (getProjectName h st) = Ok (VStr "project")).
Proof.
  intros Hopt Hfresh Hroot. split.
  - intros He. rewrite getProjectName_fresh by assumption.
    rewrite (findProjectName_manifest h st st1 root Hopt Hroot), He.
    split; [reflexivity|].
    destruct (getProjectRootDir_run h st) as (d & st' & Hrun & _ & _ & _ & Ht & _).
    rewrite Hroot in Hrun. now injection Hrun as _ <-.
  - intros text pkg He Hread Hparse Hname.
    rewrite getProjectName_fresh by assumption.
    rewrite (findProjectName_manifest h st st1 root Hopt Hroot), He, Hread, Hparse.
    unfold project_name_of. now rewrite Hname.
Qed.

Lemma project_name_fallback_witness :
  getProjectName (Example.host [] []) rooted
  = (Ok (VStr "project"),
     named_run (VStr "project")
       (snd (getProjectRootDir (Example.host [] []) rooted)))
  /\ trace (snd (getProjectRootDir (Example.host [] []) rooted)) = trace rooted.
Proof.
  refine (proj1 (project_name_fallback (Example.host [] []) rooted
                   (snd (getProjectRootDir (Example.host [] []) rooted))
                   "/srv/app" _ _ _) _);
    reflexivity.
Defined.

Section invalid_manifest.
Context {objtools : Objtools}.

(** X15: a manifest that [JSON.parse] rejects is fatal:
    [getProjectName] throws the parse error and caches no name, and
    [loadConfig], which needs the name for the defaults file, throws it
    too. *)
Theorem invalid_manifest_is_fatal (h : Host) (st st1 : Run)
  (root text : string) (e : exn) :
  nonempty (LittleConfOptions.projectName (options (this st))) = None ->
  nonempty (LittleConfOptions.defaultsFilename (options (this st))) = None ->
  truthy (projectName (this st)) = false ->
  getProjectRootDir h st = (Ok root, st1) ->
  existsSync h (manifest root) = true ->
  readFileSync h (manifest root) = Ok text ->
  JSON_parse h text = Throw e ->
  getProjectName h st = (Throw e, logged (ReadFile (manifest root)) st1)
  /\ projectName (this (logged (ReadFile (manifest root)) st1)) = projectName (this st)
  /\ loadConfig h st = (Throw e, logged (ReadFile (manifest root)) st1).
Proof.
  intros Hopt Hdef Hfresh Hroot He Hread Hparse.
  assert (Hname : getProjectName h st
                  = (Throw e, logged (ReadFile (manifest root)) st1)).
  { rewrite getProjectName_fresh by assumption.
    now rewrite (findProjectName_manifest h st st1 root Hopt Hroot),
      He, Hread, Hparse. }
  split; [assumption|]. split.
  - destruct (getProjectRootDir_run h st) as (d & st' & Hrun & _ & _ & Hf & _).
    rewrite Hroot in Hrun. injection Hrun as _ <-.
    destruct Hf as (_ & Hn & _). exact Hn.
  - unfold loadConfig. apply bind_run_Throw.
    unfold load_defaults. unfold bind at 1. unfold get_this at 1.
    rewrite Hdef. apply bind_run_Throw. apply bind_run_Throw.
    unfold project_file. now apply bind_run_Throw.
Qed.
End invalid_manifest.

Lemma invalid_manifest_is_fatal_witness :
  loadConfig (manifest_host (Throw (HostError "SyntaxError"))) rooted
  = (Throw (HostError "SyntaxError"),
     logged (ReadFile "/srv/app/package.json")
       (snd (getProjectRootDir (manifest_host (Ok VNull)) rooted))).
Proof.
  refine (proj2 (proj2 (invalid_manifest_is_fatal
                          (manifest_host (Throw (HostError "SyntaxError")))
                          rooted
                          (snd (getProjectRootDir (manifest_host (Ok VNull))
                                  rooted))
                          "/srv/app" "/srv/app/package.json"
                          (HostError "SyntaxError") _ _ _ _ _ _ _)));
    reflexivity.
Defined.

Lemma loadFile_result (h : Host) (filename : option string) (st : Run) :
  fst (_loadFile h filename st) = file_content h filename.
Proof.
  unfold file_content, _loadFile.
  destruct (nonempty filename) as [f|]; [|reflexivity].
  destruct (negb (existsSync h f)); [reflexivity|].
  destruct (ends_with ".js" f); [reflexivity|].
  unfold bind, read_file, bind, log, lift.
  destruct (readFileSync h f) as [data|e]; [|reflexivity].
  destruct (yaml_safeLoad h data) as [r|e]; [|reflexivity].
  now destruct (_ || _).
Qed.

Section configured.
Variable h : Host.
Variable o : LittleConfOptions.t.
Variables n root : string.
Hypothesis Hname : nonempty (LittleConfOptions.projectName o) = Some n.
Hypothesis Hroot : nonempty (LittleConfOptions.rootDir o) = Some root.

Local Abbreviation Q := (configured o (option_name n) root).

Lemma configured_new : Q (new_LittleConf o).
Proof. repeat split; simpl; congruence. Qed.

Lemma configured_getProjectName (st : Run) :
  Q (this st) ->
  exists st', getProjectName h st = (Ok (VStr (option_name n)), st')
              /\ Q (this st').
Proof.
  intros (Ho & Hn & Hr). unfold getProjectName, bind, get_this.
  destruct (truthy (projectName (this st))) eqn:E.
  - unfold ret. rewrite (Hn eq_refl). exists st. split; [reflexivity|].
    repeat split; auto.
  - rewrite (findProjectName_option h o n Hname st Ho). simpl.
    eexists. split; [reflexivity|]. repeat split; auto.
Qed.

Lemma configured_getProjectRootDir (st : Run) :
  Q (this st) ->
  exists st', getProjectRootDir h st = (Ok root, st') /\ Q (this st').
Proof.
  intros (Ho & Hn & Hr). unfold getProjectRootDir. unfold bind at 1.
  unfold get_this at 1.
  destruct (nonempty (rootDir (this st))) as [d|] eqn:E.
  - assert (Hd : rootDir (this st) = Some root) by (apply Hr; congruence).
    rewrite Hd in E. apply nonempty_inv in E as [E _]. injection E as <-.
    exists st. split; [reflexivity|]. repeat split; auto.
  - unfold bind, _findProjectRootDir, bind, get_this, ret, set_this.
    rewrite Ho, Hroot. simpl.
    eexists. split; [reflexivity|]. repeat split; auto.
Qed.

Lemma configured_project_prefix (st : Run) :
  Q (this st) ->
  exists st', project_prefix h st = (Ok (upper_snake (option_name n)), st')
              /\ Q (this st').
Proof.
  intros HQ. destruct (configured_getProjectName st HQ) as (st' & Hr & HQ').
  unfold project_prefix, bind. rewrite Hr. exists st'. now split.
Qed.

Lemma configured_project_file (suffix : string) (st : Run) :
  Q (this st) ->
  exists st', project_file h suffix st
              = (Ok (VStr (option_name n ++ suffix)), st')
              /\ Q (this st').
Proof.
  intros HQ. destruct (configured_getProjectName st HQ) as (st' & Hr & HQ').
  unfold project_file, bind. rewrite Hr. exists st'. now split.
Qed.

Lemma load_defaults_configured (st : Run) :
  Q (this st) ->
  fst (load_defaults h st)
  = match _resolvePath h (defaults_filename o (option_name n)) (VStr root) with
    | Ok p => file_content h p
    | Throw e => Throw e
    end.
Proof.
  intros HQ. pose proof HQ as (Ho & _).
  unfold load_defaults, defaults_filename.
  unfold bind at 1. unfold get_this at 1. rewrite Ho.
  assert (Hrest : forall v st1,
             Q (this st1) ->
             fst ((root0 <- getProjectRootDir h ;;
                   p <- lift (_resolvePath h v (VStr root0)) ;;
                   _loadFile h p) st1)
             = match _resolvePath h v (VStr root) with
               | Ok p => file_content h p
               | Throw e => Throw e
               end).
  { intros v st1 HQ1.
    destruct (configured_getProjectRootDir st1 HQ1) as (st2 & Hr & HQ2).
    rewrite (bind_run_Ok _ _ _ _ _ Hr). unfold bind, lift.
    destruct (_resolvePath h v (VStr root)) as [p|e]; [|reflexivity].
    apply loadFile_result. }
  destruct (nonempty (LittleConfOptions.defaultsFilename o)) as [f|].
  - unfold bind at 1. unfold ret at 1. now apply Hrest.
  - destruct (configured_project_file "-defaults.conf" st HQ)
      as (st1 & Ha & HQ1).
    destruct (configured_project_file "-defaults.conf.js" st1 HQ1)
      as (st2 & Hb & HQ2).
    unfold bind at 1. unfold bind at 1. rewrite Ha.
    unfold bind at 1. rewrite Hb. unfold ret at 1. now apply Hrest.
Qed.

Lemma load_main_configured (st : Run) :
  Q (this st) ->
  fst (load_main h st)
  = match _resolvePath h (main_filename o (process_env h) (option_name n))
            (strings [root; "/etc"]) with
    | Ok p =>
        match nonempty p with
        | Some f => file_content h (Some f)
        | None => Ok (VObj [])
        end
    | Throw e => Throw e
    end.
Proof.
  intros HQ. pose proof HQ as (Ho & _).
  unfold load_main, main_filename.
  unfold bind at 1. unfold get_this at 1. rewrite Ho.
  change (opt_value (LittleConfOptions.filenameOverride o))
    with (match LittleConfOptions.filenameOverride o with
          | Some s => VStr s | None => VUndefined end).
  change (opt_value (LittleConfOptions.filename o))
    with (match LittleConfOptions.filename o with
          | Some s => VStr s | None => VUndefined end).
  set (f0 := match LittleConfOptions.filenameOverride o with
             | Some s => VStr s | None => VUndefined end).
  set (f3 := match LittleConfOptions.filename o with
             | Some s => VStr s | None => VUndefined end).
  assert (Hrest : forall v st1,
             Q (this st1) ->
             fst ((root0 <- getProjectRootDir h ;;
                   mainFilename <-
                     lift (_resolvePath h v
                             (VArr [Some (VStr root0); Some (VStr "/etc")])) ;;
                   match nonempty mainFilename with
                   | Some f => _loadFile h (Some f)
                   | None => ret (VObj [])
                   end) st1)
             = match _resolvePath h v (strings [root; "/etc"]) with
               | Ok p =>
                   match nonempty p with
                   | Some f => file_content h (Some f)
                   | None => Ok (VObj [])
                   end
               | Throw e => Throw e
               end).
  { intros v st1 HQ1.
    destruct (configured_getProjectRootDir st1 HQ1) as (st2 & Hr & HQ2).
    rewrite (bind_run_Ok _ _ _ _ _ Hr). unfold bind, lift.
    change (VArr [Some (VStr root); Some (VStr "/etc")])
      with (strings [root; "/etc"]).
    destruct (_resolvePath h v (strings [root; "/etc"])) as [p|e];
      [|reflexivity].
    destruct (nonempty p) as [f|]; [apply loadFile_result | reflexivity]. }
  assert (Hlast : forall v st1,
             Q (this st1) ->
             fst ((mainFilename <-
                     (if negb (truthy v) then
                        a <- project_file h ".conf" ;;
                        b <- project_file h ".conf.js" ;;
                        ret (VArr [Some a; Some b])
                      else ret v) ;;
                   root0 <- getProjectRootDir h ;;
                   mainFilename <-
                     lift (_resolvePath h mainFilename
                             (VArr [Some (VStr root0); Some (VStr "/etc")])) ;;
                   match nonempty mainFilename with
                   | Some f => _loadFile h (Some f)
                   | None => ret (VObj [])
                   end) st1)
             = match _resolvePath h
                       (if truthy v then v
                        else VArr [Some (VStr (option_name n ++ ".conf"));
                                   Some (VStr (option_name n ++ ".conf.js"))])
                       (strings [root; "/etc"]) with
               | Ok p =>
                   match nonempty p with
                   | Some f => file_content h (Some f)
                   | None => Ok (VObj [])
                   end
               | Throw e => Throw e
               end).
  { intros v st1 HQ1. destruct (truthy v); cbn [negb].
    - unfold bind at 1. unfold ret at 1. now apply Hrest.
    - destruct (configured_project_file ".conf" st1 HQ1) as (st2 & Ha & HQ2).
      destruct (configured_project_file ".conf.js" st2 HQ2) as (st3 & Hb & HQ3).
      unfold bind at 1. unfold bind at 1. rewrite Ha.
      unfold bind at 1. rewrite Hb. unfold ret at 1. now apply Hrest. }
  set (cli := cli_argument o (str_or (LittleConfOptions.cliArgumentFile o) "c")).
  set (variable := str_or (LittleConfOptions.envVariableFile o)
                          (upper_snake (option_name n) ++ "_CONFIG")).
  assert (H1 : (if negb (truthy f0)
                then _getCLIArgument
                       (str_or (LittleConfOptions.cliArgumentFile o) "c")
                else ret f0) st
               = (Ok (if truthy f0 then f0 else cli), st)).
  { destruct (truthy f0); cbn [negb]; [reflexivity|].
    rewrite getCLIArgument_run. now rewrite Ho. }
  rewrite (bind_run_Ok _ _ _ _ _ H1).
  set (f1 := if truthy f0 then f0 else cli).
  assert (H2 : exists st1,
             (if negb (truthy f1) then
                envVar <-
                  match nonempty (LittleConfOptions.envVariableFile o) with
                  | Some v => ret v
                  | None => p <- project_prefix h ;; ret (p ++ "_CONFIG")
                  end ;;
                ret (env_value h envVar)
              else ret f1) st
             = (Ok (if truthy f1 then f1 else env_value h variable), st1)
             /\ Q (this st1)).
  { destruct (truthy f1); cbn [negb]; [exists st; now split|].
    unfold variable, str_or.
    destruct (nonempty (LittleConfOptions.envVariableFile o)) as [v|].
    - exists st. now split.
    - destruct (configured_project_prefix st HQ) as (st1 & Hp & HQ1).
      exists st1. split; [|assumption].
      unfold bind at 1. unfold bind at 1. now rewrite Hp. }
  destruct H2 as (st1 & H2 & HQ1).
  rewrite (bind_run_Ok _ _ _ _ _ H2).
  cbv zeta. rewrite (Hlast _ st1 HQ1).
  fold (env_value h variable).
  subst f1.
  destruct (truthy f0) eqn:E0; cbn [negb]; rewrite ?E0; cbn [negb];
    rewrite ?E0; try reflexivity.
  destruct (truthy cli) eqn:E1; cbn [negb]; rewrite ?E1; cbn [negb];
    rewrite ?E1; try reflexivity.
  destruct (truthy (env_value h variable)) eqn:E2; cbn [negb]; rewrite ?E2;
    reflexivity.
Qed.
End configured.

(** X16: on a loader whose options give the project name and the root
    directory, the main file is the first that exists of: the
    [filenameOverride] option, the command-line argument named by
    [cliArgumentFile] (default [c]), the environment variable named by
    [envVariableFile] (default [<PROJECT>_CONFIG]), the [filename]
    option, and [<name>.conf] then [<name>.conf.js]; each is looked for
    in the root directory first and in [/etc] after.  Without such a
    file the main configuration is empty. *)
Theorem main_file_discovery (h : Host) (o : LittleConfOptions.t)
  (n root : string) (tr : list event) (next : nat) :
  nonempty (LittleConfOptions.projectName o) = Some n ->
  nonempty (LittleConfOptions.rootDir o) = Some root ->
  fst (load_main h {| this := new_LittleConf o; trace := tr;
                      next_oid := next |})
  = match _resolvePath h (main_filename o (process_env h) (option_name n))
            (strings [root; "/etc"]) with
    | Ok p =>
        match nonempty p with
        | Some f => file_content h (Some f)
        | None => Ok (VObj [])
        end
    | Throw e => Throw e
    end.
Proof.
  intros Hn Hr. apply (load_main_configured h o n root Hn Hr).
  now apply configured_new.
Qed.

Lemma main_file_discovery_witness :
  fst (load_main etc_host
         {| this := new_LittleConf (options_of_object (Example.named "app"));
            trace := []; next_oid := 0 |})
  = Ok (VObj [("from", VStr "variable")]).
Proof.
  refine (main_file_discovery etc_host
            (options_of_object (Example.named "app")) "app" "/srv/app" [] 0
            _ _);
    reflexivity.
Defined.

(** X17: on a loader whose options give the project name and the root
    directory, the defaults file is the [defaultsFilename] option, else
    [<name>-defaults.conf] then [<name>-defaults.conf.js], looked for in
    the root directory only. *)
Theorem defaults_file_discovery (h : Host) (o : LittleConfOptions.t)
  (n root : string) (tr : list event) (next : nat) :
  nonempty (LittleConfOptions.projectName o) = Some n ->
  nonempty (LittleConfOptions.rootDir o) = Some root ->
  fst (load_defaults h {| this := new_LittleConf o; trace := tr;
                          next_oid := next |})
  = match _resolvePath h (defaults_filename o (option_name n)) (VStr root) with
    | Ok p => file_content h p
    | Throw e => Throw e
    end.
Proof.
  intros Hn Hr. apply (load_defaults_configured h o n root Hn Hr).
  now apply configured_new.
Qed.

Lemma defaults_file_discovery_witness :
  fst (load_defaults
         (Example.host
            [("/etc/app-defaults.conf", Ok (VObj [("from", VStr "etc")]));
             ("/srv/app/app-defaults.conf.js",
              Ok (VObj [("from", VStr "module")]))] [])
         {| this := new_LittleConf (options_of_object (Example.named "app"));
            trace := []; next_oid := 0 |})
  = Ok (VObj [("from", VStr "module")]).
Proof.
  refine (defaults_file_discovery
            (Example.host
               [("/etc/app-defaults.conf", Ok (VObj [("from", VStr "etc")]));
                ("/srv/app/app-defaults.conf.js",
                 Ok (VObj [("from", VStr "module")]))] [])
            (options_of_object (Example.named "app")) "app" "/srv/app" [] 0
            _ _);
    reflexivity.
Defined.

Section override_filter.
Context {objtools : Objtools}.

Lemma override_loop_filter (prefix : string) (val : string -> value)
  (ks : list string) (ov : obj) :
  fold_left (override_step prefix val) ks ov
  = fold_left (override_step prefix val) (filter (matches prefix) ks) ov.
Proof.
  revert ov. induction ks as [|k ks IH]; intros ov; [reflexivity|].
  cbn [fold_left filter]. unfold matches at 1, override_step at 2.
  destruct (exec_prefix prefix k) as [rest|] eqn:E.
  - cbn [fold_left]. unfold override_step at 3. rewrite E. apply IH.
  - apply IH.
Qed.

Lemma strip_prefix_shorter (p q : string) :
  q <> "" -> strip_prefix (p ++ q) p = None.
Proof.
  intros Hq. induction p as [|a p IH]; simpl.
  - destruct q; [congruence | reflexivity].
  - now rewrite Ascii.eqb_refl.
Qed.

(** X18: the overrides are the assignments of the environment
    variables that start with [<PROJECT>_CONFIG_], in enumeration
    order, followed by those of the arguments that start with
    [config-setting-]; every other variable and argument is ignored,
    [<PROJECT>_CONFIG] and [<PROJECT>_ENV] among them.  This holds for
    every implementation of [objtools.setPath]. *)
Theorem collect_overrides_matching (h : Host) (o : LittleConfOptions.t)
  (n : string) (st : Run) :
  nonempty (LittleConfOptions.projectName o) = Some n ->
  of_project o (option_name n) (this st) ->
  let prefix := upper_snake (option_name n) ++ "_CONFIG_" in
  let args := match LittleConfOptions.argv o with
              | Some args => args
              | None => []
              end in
  fst (collect_overrides h st)
  = Ok (fold_left
          (override_step "config-setting-" (fun key => prop key args))
          (filter (matches "config-setting-") (keys args))
          (fold_left (override_step prefix (env_value h))
             (filter (matches prefix) (map fst (process_env h))) []))
  /\ matches prefix (upper_snake (option_name n) ++ "_CONFIG") = false
  /\ matches prefix (upper_snake (option_name n) ++ "_ENV") = false.
Proof.
  intros Hn HP prefix args. split.
  - unfold collect_overrides.
    destruct (project_prefix_option h o n Hn st HP) as (st1 & Hp & HP1).
    rewrite (bind_run_Ok _ _ _ _ _ Hp). unfold bind, get_this, ret.
    destruct HP1 as [-> _]. cbn [fst].
    rewrite <- !override_loop_filter. reflexivity.
  - split.
    + unfold matches, exec_prefix, prefix.
      replace (upper_snake (option_name n) ++ "_CONFIG_")
        with ((upper_snake (option_name n) ++ "_CONFIG") ++ "_")
        by (now rewrite append_assoc).
      now rewrite strip_prefix_shorter.
    + unfold matches, exec_prefix, prefix.
      generalize (upper_snake (option_name n)). intros p.
      induction p as [|a p IH]; [reflexivity|].
      simpl. now rewrite Ascii.eqb_refl.
Qed.
End override_filter.

Lemma collect_overrides_matching_witness :
  fst (collect_overrides
         (Example.host [] [("PATH", "/bin"); ("APP_CONFIG", "/opt/x.conf");
                           ("APP_CONFIG_a.b", "1"); ("APP_ENV", "prod")])
         {| this := new_LittleConf
                      (options_of_object
                         (Example.named "app"
                          ++ [("argv", VObj [("c", VStr "x.conf");
                                             ("config-setting-a.c", VNum 2)])])%list);
            trace := []; next_oid := 0 |})
  = Ok [("a", VObj [("b", VStr "1"); ("c", VNum 2)])].
Proof.
  refine (proj1 (collect_overrides_matching
                   (Example.host [] [("PATH", "/bin");
                                     ("APP_CONFIG", "/opt/x.conf");
                                     ("APP_CONFIG_a.b", "1");
                                     ("APP_ENV", "prod")])
                   (options_of_object
                      (Example.named "app"
                       ++ [("argv", VObj [("c", VStr "x.conf");
                                          ("config-setting-a.c", VNum 2)])])%list)
                   "app"
                   {| this := new_LittleConf
                                (options_of_object
                                   (Example.named "app"
                                    ++ [("argv",
                                         VObj [("c", VStr "x.conf");
                                               ("config-setting-a.c", VNum 2)])])%list);
                      trace := []; next_oid := 0 |} _ _)).
  - reflexivity.
  - split; [reflexivity | discriminate].
Defined.

Lemma follows_run (R : LittleConf -> LittleConf -> Prop) {A} (c : M A)
  (st st' : Run) (r : result A) :
  follows R c -> c st = (r, st') -> R (this st) (this st').
Proof. intros Hc Hrun. specialize (Hc st). now rewrite Hrun in Hc. Qed.

Section loadConfig_cache.
Context {objtools : Objtools}.
Variable h : Host.

(** After [load_defaults] has returned, the root directory is cached. *)
Lemma load_defaults_root (st st1 : Run) (d : value) :
  load_defaults h st = (Ok d, st1) -> nonempty (rootDir (this st1)) <> None.
Proof.
  unfold load_defaults. intros Hrun.
  apply bind_Ok in Hrun. destruct Hrun as (lc & sa & _ & Hrun).
  apply bind_Ok in Hrun. destruct Hrun as (f & sb & _ & Hrun).
  apply bind_Ok in Hrun. destruct Hrun as (root & sc & Hroot & Hrun).
  destruct (getProjectRootDir_run h sb) as (r & sc' & Hr & Hne & Hcache & _).
  rewrite Hroot in Hr. injection Hr as <- <-.
  assert (Hk : fills_root (this sc) (this st1)).
  { eapply (follows_run fills_root); [|exact Hrun].
    apply follows_bind; [apply _ | apply follows_lift; apply _|].
    intros p. apply follows_loadFile; apply _. }
  destruct Hk as (_ & _ & _ & Hk).
  assert (Hn : nonempty (rootDir (this sc)) <> None)
    by (rewrite Hcache, (nonempty_Some root Hne); discriminate).
  now rewrite (Hk Hn).
Qed.

(** After [collect_overrides] has returned, the project name is
    cached. *)
Lemma collect_overrides_name (st st1 : Run) (ov : obj) :
  collect_overrides h st = (Ok ov, st1) -> truthy (projectName (this st1)) = true.
Proof.
  unfold collect_overrides. intros Hrun.
  apply bind_Ok in Hrun. destruct Hrun as (p & sa & Hp & Hrun).
  unfold bind, get_this, ret in Hrun. injection Hrun as _ <-.
  unfold project_prefix in Hp.
  apply bind_Ok in Hp. destruct Hp as (name & sb & Hname & Hp).
  destruct (getProjectName_run h st sb name Hname) as [Ht Hc].
  destruct name; try discriminate. injection Hp as _ <-.
  now rewrite Hc.
Qed.

Lemma loadConfig_cached (st st' : Run) (c : config) :
  loadConfig h st = (Ok c, st') ->
  truthy (projectName (this st')) = true
  /\ truthy (environment (this st')) = true
  /\ nonempty (rootDir (this st')) <> None.
Proof.
  unfold loadConfig. intros Hrun.
  apply bind_Ok in Hrun. destruct Hrun as (d & s1 & Hd & Hrun).
  apply bind_Ok in Hrun. destruct Hrun as (m & s2 & Hm & Hrun).
  apply bind_Ok in Hrun. destruct Hrun as (ov & s3 & Ho & Hrun).
  apply bind_Ok in Hrun. destruct Hrun as (env & s4 & He & Hrun).
  unfold bind, fresh_oid, ret in Hrun. injection Hrun as _ <-. cbn [this].
  pose proof (load_defaults_root _ _ _ Hd) as Hroot1.
  pose proof (follows_run _ _ _ _ _ (follows_load_main h) Hm) as (_ & _ & _ & K2).
  pose proof (follows_run _ _ _ _ _ (follows_collect_overrides h) Ho)
    as (_ & _ & _ & K3).
  pose proof (follows_run _ _ _ _ _ (follows_getConfigEnvironment h) He)
    as (_ & N4 & _ & K4).
  pose proof (collect_overrides_name _ _ _ Ho) as Hname3.
  destruct (getConfigEnvironment_run h _ _ _ He) as [Het Hef].
  repeat split.
  - now rewrite (N4 Hname3).
  - now rewrite Hef.
  - assert (H2 : nonempty (rootDir (this s2)) <> None)
      by (now rewrite (K2 Hroot1)).
    assert (H3 : nonempty (rootDir (this s3)) <> None)
      by (now rewrite (K3 H2)).
    now rewrite (K4 H3).
Qed.
End loadConfig_cache.

(** X19: [loadConfig], whether it returns or throws, never changes a
    project name, an environment or a root directory that the instance
    had cached before the call. *)
Theorem loadConfig_keeps_identity `{Objtools} (h : Host) (st : Run) :
  (truthy (projectName (this st)) = true ->
   projectName (this (snd (loadConfig h st))) = projectName (this st))
  /\ (truthy (environment (this st)) = true ->
      environment (this (snd (loadConfig h st))) = environment (this st))
  /\ (nonempty (rootDir (this st)) <> None ->
      rootDir (this (snd (loadConfig h st))) = rootDir (this st)).
Proof.
  destruct (follows_loadConfig h st) as (_ & Hn & He & Hr).
  repeat split; assumption.
Qed.

(** A loader that holds the name [app] and whose main file does not
    parse: [loadConfig] throws, and the name is still there. *)
Lemma loadConfig_keeps_identity_witness :
  fst (loadConfig broken_host (named_run (VStr "app") rooted))
  = Throw (HostError "YAMLException")
  /\ projectName (this (snd (loadConfig broken_host
                               (named_run (VStr "app") rooted))))
     = VStr "app".
Proof.
  split; [reflexivity|].
  refine (proj1 (loadConfig_keeps_identity broken_host
                   (named_run (VStr "app") rooted)) _).
  reflexivity.
Defined.

(** X20: once [loadConfig] has returned, the instance holds its project
    name, its environment and its root directory, and the three getters
    return them without looking at the process environment or the file
    system again. *)
Theorem loadConfig_caches_identity `{Objtools} (h : Host) (st st' : Run)
  (c : config) :
  loadConfig h st = (Ok c, st') ->
  truthy (projectName (this st')) = true
  /\ truthy (environment (this st')) = true
  /\ forall h',
       getProjectName h' st' = (Ok (projectName (this st')), st')
       /\ getConfigEnvironment h' st' = (Ok (environment (this st')), st')
       /\ exists d, rootDir (this st') = Some d
                    /\ getProjectRootDir h' st' = (Ok d, st').
Proof.
  intros Hrun. destruct (loadConfig_cached h st st' c Hrun) as (Hn & He & Hr).
  split; [assumption|]. split; [assumption|]. intros h'. split.
  - now apply getProjectName_cached.
  - split.
    + unfold getConfigEnvironment, bind, get_this. now rewrite He.
    + destruct (nonempty (rootDir (this st'))) as [d|] eqn:E; [|congruence].
      apply nonempty_inv in E as [E Hd]. exists d. split; [assumption|].
      now apply getProjectRootDir_cached.
Qed.

Lemma loadConfig_caches_identity_witness :
  truthy (projectName (this (snd (loadConfig app_host rooted)))) = true
  /\ truthy (environment (this (snd (loadConfig app_host rooted)))) = true
  /\ forall h',
       getProjectName h' (snd (loadConfig app_host rooted))
       = (Ok (projectName (this (snd (loadConfig app_host rooted)))),
          snd (loadConfig app_host rooted))
       /\ getConfigEnvironment h' (snd (loadConfig app_host rooted))
          = (Ok (environment (this (snd (loadConfig app_host rooted)))),
             snd (loadConfig app_host rooted))
       /\ exists d,
            rootDir (this (snd (loadConfig app_host rooted))) = Some d
            /\ getProjectRootDir h' (snd (loadConfig app_host rooted))
               = (Ok d, snd (loadConfig app_host rooted)).
Proof.
  refine (loadConfig_caches_identity app_host rooted
            (snd (loadConfig app_host rooted))
            {| oid := 0; content := VObj [] |} _).
  vm_compute. reflexivity.
Defined.

(* ================================================================= *)
(** ** Overrides from the process environment, through [loadConfig] *)

Lemma env_lookup_middle (key v : string) (e1 e2 : list (string * string)) :
  ~ In key (map fst e1) ->
  env_lookup key (e1 ++ (key, v) :: e2) = Some v.
Proof.
  induction e1 as [|[k x] e1 IH]; simpl; intros Hnot.
  - now rewrite String.eqb_refl.
  - destruct (k =? key) eqn:E.
    + apply String.eqb_eq in E. elim Hnot. now left.
    + apply IH. intros Hin. apply Hnot. now right.
Qed.

Section env_loop.
Context {objtools : Objtools}.
Variable h : Host.

Lemma env_overrides_fold (prefix : string) (ov : obj) :
  env_overrides h prefix ov
  = fold_left (override_step prefix (env_value h)) (map fst (process_env h)) ov.
Proof. reflexivity. Qed.

Lemma argv_overrides_fold (args ov : obj) :
  argv_overrides args ov
  = fold_left (override_step "config-setting-" (fun key => prop key args))
      (keys args) ov.
Proof. reflexivity. Qed.

(** The loop over the process environment, cut at one variable of the
    prefix: the variables before it, its own assignment, the variables
    after it. *)
Lemma env_overrides_split (prefix rest v : string)
  (e1 e2 : list (string * string)) (ov : obj) :
  process_env h = (e1 ++ ((prefix ++ rest)%string, v) :: e2)%list ->
  ~ In (prefix ++ rest) (map fst e1) ->
  string_forallb (fun a => negb (line_terminator a)) rest = true ->
  env_overrides h prefix ov
  = fold_left (override_step prefix (env_value h)) (map fst e2)
      (setPath (fold_left (override_step prefix (env_value h)) (map fst e1) ov)
         rest (VStr v)).
Proof.
  intros Henv Hnot Hrest. rewrite env_overrides_fold.
  assert (Hval : env_value h (prefix ++ rest) = VStr v).
  { unfold env_value. rewrite Henv. now rewrite env_lookup_middle. }
  rewrite Henv, map_app, fold_left_app. cbn [map fst fold_left].
  unfold override_step at 2. rewrite (exec_prefix_app _ _ Hrest), Hval.
  reflexivity.
Qed.

Lemma collect_overrides_run (st st1 : Run) (name : string) :
  getProjectName h st = (Ok (VStr name), st1) ->
  collect_overrides h st
  = (Ok (argv_overrides (argv_or_empty (options (this st1)))
           (env_overrides h (upper_snake name ++ "_CONFIG_") [])), st1).
Proof.
  intros Hn. unfold collect_overrides, project_prefix.
  unfold bind at 1. unfold bind at 1. rewrite Hn. reflexivity.
Qed.

Lemma collect_overrides_inv (st st1 : Run) (ov : obj) :
  collect_overrides h st = (Ok ov, st1) ->
  exists name,
    getProjectName h st = (Ok (VStr name), st1)
    /\ ov = argv_overrides (argv_or_empty (options (this st1)))
              (env_overrides h (upper_snake name ++ "_CONFIG_") []).
Proof.
  intros Hrun. unfold collect_overrides in Hrun.
  apply bind_Ok in Hrun. destruct Hrun as (p & sa & Hp & Hrun).
  unfold bind, get_this, ret in Hrun. injection Hrun as <- <-.
  unfold project_prefix in Hp.
  apply bind_Ok in Hp. destruct Hp as (nm & sb & Hn & Hp).
  destruct nm; try discriminate. injection Hp as <- <-.
  exists s. split; [assumption | reflexivity].
Qed.

(** What [loadConfig] merges last: the overrides collected under the
    project name that the instance holds afterwards. *)
Lemma loadConfig_overrides (st st' : Run) (c : config) :
  loadConfig h st = (Ok c, st') ->
  exists d m env name,
    projectName (this st') = VStr name
    /\ content c
       = delete_environments
           (_mergeConfig
              [d; environment_block d env; m; environment_block m env;
               VObj (argv_overrides (argv_or_empty (options (this st)))
                       (env_overrides h (upper_snake name ++ "_CONFIG_") []))]).
Proof.
  intros Hrun. unfold loadConfig in Hrun.
  apply bind_Ok in Hrun. destruct Hrun as (d & s1 & Hd & Hrun).
  apply bind_Ok in Hrun. destruct Hrun as (m & s2 & Hm & Hrun).
  apply bind_Ok in Hrun. destruct Hrun as (ov & s3 & Ho & Hrun).
  apply bind_Ok in Hrun. destruct Hrun as (env & s4 & He & Hrun).
  unfold bind, fresh_oid, ret in Hrun. injection Hrun as <- <-.
  cbn [this content].
  destruct (collect_overrides_inv _ _ _ Ho) as (name & Hn & ->).
  destruct (getProjectName_run h _ _ _ Hn) as [Ht Hc].
  pose proof (follows_run _ _ _ _ _ (follows_load_defaults h) Hd) as (O1 & _).
  pose proof (follows_run _ _ _ _ _ (follows_load_main h) Hm) as (O2 & _).
  pose proof (follows_run _ _ _ _ _ (follows_getProjectName h) Hn) as (O3 & _).
  pose proof (follows_run _ _ _ _ _ (follows_getConfigEnvironment h) He)
    as (_ & N4 & _).
  exists d, m, env, name. split.
  - rewrite <- Hc. apply N4. now rewrite Hc.
  - now rewrite O3, O2, O1.
Qed.
End env_loop.

(* ----------------------------------------------------------------- *)
(** *** Assignments under other keys *)

Lemma In_keys_set_prop (x k : string) (v : value) (o : obj) :
  In x (keys (set_prop k v o)) -> x = k \/ In x (keys o).
Proof.
  induction o as [|[k' v'] o IH]; simpl.
  - intros [<-|[]]. now left.
  - destruct (k' =? k) eqn:E; simpl.
    + intros [<-|Hin]; auto.
    + intros [<-|Hin]; auto. destruct (IH Hin); auto.
Qed.

Lemma NoDup_keys_set_prop (k : string) (v : value) (o : obj) :
  NoDup (keys o) -> NoDup (keys (set_prop k v o)).
Proof.
  induction o as [|[k' v'] o IH]; simpl; intros Hnd.
  - constructor; [intros [] | constructor].
  - inversion Hnd as [|? ? Hnotin Hnd']; subst.
    destruct (k' =? k) eqn:E; simpl.
    + apply String.eqb_eq in E. subst k'. now constructor.
    + constructor; [|now apply IH].
      intros Hin. destruct (In_keys_set_prop _ _ _ _ Hin) as [->|Hin'].
      * now rewrite String.eqb_refl in E.
      * contradiction.
Qed.

Lemma NoDup_keys_set_segments (segs : list string) (x : value) (o : obj) :
  NoDup (keys o) -> NoDup (keys (set_segments segs x o)).
Proof.
  intros Hnd. destruct segs as [|k [|k' rest]]; [assumption| |];
    now apply NoDup_keys_set_prop.
Qed.

(** An assignment whose path starts with another key leaves the
    property [k] alone. *)
Lemma get_set_segments_other (k : string) (segs : list string) (x : value)
  (o : obj) :
  hd k segs <> k -> get_prop k (set_segments segs x o) = get_prop k o.
Proof.
  destruct segs as [|k0 [|k' rest]]; simpl; intros Hne.
  - reflexivity.
  - now apply get_set_other.
  - now apply get_set_other.
Qed.

(** On a mapping without the key [k], an assignment below [k] leaves
    under [k] what it leaves there on the empty mapping. *)
Lemma get_set_segments_new (k : string) (rest : list string) (x : value)
  (o : obj) :
  get_prop k o = None ->
  get_prop k (set_segments (k :: rest) x o)
  = get_prop k (set_segments (k :: rest) x []).
Proof.
  intros Hk. destruct rest as [|k' rest].
  - cbn [set_segments]. now rewrite !get_set_same.
  - rewrite !set_segments_more, !get_set_same, Hk. reflexivity.
Qed.

Section first_segment.
Variable prefix : string.
Variable val : string -> value.
Variable k : string.

Lemma override_loop_elsewhere (ks : list string) (ov : obj) :
  (forall key r, In key ks -> exec_prefix prefix key = Some r ->
                 first_segment r <> k) ->
  get_prop k (fold_left (override_step prefix val) ks ov) = get_prop k ov.
Proof.
  revert ov. induction ks as [|key ks IH]; intros ov Hel; [reflexivity|].
  cbn [fold_left]. rewrite IH by (intros key' r Hin; apply Hel; now right).
  unfold override_step.
  destruct (exec_prefix prefix key) as [r|] eqn:E; [|reflexivity].
  cbn [setPath spec_objtools]. unfold spec_setPath.
  apply get_set_segments_other.
  specialize (Hel key r (or_introl eq_refl) E). unfold first_segment in Hel.
  destruct (split_on_cons "." r) as (s & ss & Hs). rewrite Hs in *.
  exact Hel.
Qed.

Lemma override_loop_NoDup (ks : list string) (ov : obj) :
  NoDup (keys ov) ->
  NoDup (keys (fold_left (override_step prefix val) ks ov)).
Proof.
  revert ov. induction ks as [|key ks IH]; intros ov Hnd; [assumption|].
  cbn [fold_left]. apply IH. unfold override_step.
  destruct (exec_prefix prefix key) as [r|]; [|assumption].
  now apply NoDup_keys_set_segments.
Qed.
End first_segment.

(** Which value a merged source leaves at a path depends on what the
    source holds under the first key of the path only. *)
Lemma merge_props_same_first (k : string) (rest : list string) (s s' t : obj) :
  NoDup (keys s) -> NoDup (keys s') -> get_prop k s = get_prop k s' ->
  get_segments (k :: rest) (VObj (merge_props s t))
  = get_segments (k :: rest) (VObj (merge_props s' t)).
Proof.
  intros Hs Hs' Hk. rewrite !get_segments_obj. unfold prop.
  now rewrite !get_merge_props, Hk by assumption.
Qed.

Section override_wins.
Variable h : Host.
Variables prefix rest v : string.
Variables e1 e2 : list (string * string).
Variable args : obj.
Hypothesis Henv :
  process_env h = (e1 ++ ((prefix ++ rest)%string, v) :: e2)%list.
Hypothesis Hrest :
  string_forallb (fun a => negb (line_terminator a)) rest = true.
Hypothesis Hothers :
  forall key r, In key (map fst e1 ++ map fst e2)%list ->
                exec_prefix prefix key = Some r ->
                first_segment r <> first_segment rest.
Hypothesis Hargv :
  forall key r, In key (keys args) ->
                exec_prefix "config-setting-" key = Some r ->
                first_segment r <> first_segment rest.

Lemma override_first : ~ In (prefix ++ rest) (map fst e1).
Proof.
  intros Hin. apply (Hothers (prefix ++ rest) rest).
  - apply in_or_app. now left.
  - now apply exec_prefix_app.
  - reflexivity.
Qed.

Lemma overrides_under_first :
  NoDup (keys (argv_overrides args (env_overrides h prefix [])))
  /\ get_prop (first_segment rest)
       (argv_overrides args (env_overrides h prefix []))
     = get_prop (first_segment rest) (spec_setPath [] rest (VStr v)).
Proof.
  pose proof Hothers as Ho. split.
  - rewrite argv_overrides_fold, env_overrides_fold.
    do 2 apply override_loop_NoDup. constructor.
  - rewrite argv_overrides_fold.
    rewrite override_loop_elsewhere by exact Hargv.
    rewrite (env_overrides_split h prefix rest v e1 e2 [] Henv override_first
               Hrest).
    rewrite override_loop_elsewhere
      by (intros key r Hin; apply Ho, in_or_app; now right).
    cbn [setPath spec_objtools]. unfold spec_setPath, first_segment.
    destruct (split_on_cons "." rest) as (k & ks & Hs). rewrite Hs.
    cbn [hd]. apply get_set_segments_new.
    rewrite override_loop_elsewhere.
    + reflexivity.
    + intros key r Hin He. unfold first_segment at 2 in Ho.
      rewrite Hs in Ho. apply (Ho key r); [|assumption].
      apply in_or_app. now left.
Qed.

(** An override that no other override shares its top-level key with
    wins at its path against every earlier source of the merge. *)
Lemma override_wins (sources : list value) :
  first_segment rest <> "environments" ->
  spec_getPath
    (delete_environments
       (removeNulls
          (VObj (spec_merge []
                   (sources
                    ++ [VObj (argv_overrides args
                                (env_overrides h prefix []))])%list))))
    rest
  = VStr v.
Proof.
  intros Hhd. destruct overrides_under_first as [Hnd Hk].
  revert Hhd Hk. unfold spec_getPath, spec_setPath, first_segment.
  destruct (split_on_cons "." rest) as (k & ks & Hs). rewrite Hs.
  cbn [hd]. intros Hhd Hk.
  rewrite delete_environments_keeps_path by (simpl; congruence).
  apply removeNulls_keeps_path.
  rewrite spec_merge_last.
  rewrite (merge_props_same_first k ks _ (set_segments (k :: ks) (VStr v) []));
    auto.
  - apply merge_override_path; [discriminate | reflexivity].
  - apply NoDup_keys_set_segments. constructor.
Qed.
End override_wins.

(** C4, as the code has it: the part of the variable name after
    [<PROJECT_NAME_UPPER_SNAKE>_CONFIG_] is the dotted path itself,
    taken as it is written.  For every implementation of
    [objtools.setPath], every variable of that prefix is assigned into
    the override mapping at that path, in its turn in the enumeration
    of the process environment: after the variables before it, before
    the variables after it, and before the arguments of the command
    line.  With the assignment that the specification describes, its
    value is what the merged result holds at that path, whatever the
    files hold, when no other override is assigned under the same
    top-level key and that key is not [environments] (which is
    deleted).  [MYAPP_CONFIG_db.host=foo] with the project name [myapp]
    gives [{db:{host:"foo"}}] over a file that sets [db.host], and
    [MYAPP_CONFIG_DB_HOST=foo] sets the top-level key [DB_HOST]. *)
Theorem env_override_at_dotted_path :
  (forall (objtools : Objtools) (h : Host) (st st1 : Run)
          (name rest v : string) (e1 e2 : list (string * string)),
      getProjectName h st = (Ok (VStr name), st1) ->
      process_env h = (e1 ++ (override_variable name rest, v) :: e2)%list ->
      ~ In (override_variable name rest) (map fst e1) ->
      string_forallb (fun a => negb (line_terminator a)) rest = true ->
      let prefix := upper_snake name ++ "_CONFIG_" in
      exec_prefix prefix (override_variable name rest) = Some rest
      /\ collect_overrides h st
         = (Ok (argv_overrides (argv_or_empty (options (this st1)))
                  (fold_left (override_step prefix (env_value h)) (map fst e2)
                     (setPath
                        (fold_left (override_step prefix (env_value h))
                           (map fst e1) [])
                        rest (VStr v)))),
            st1))
  /\ (forall (h : Host) (st st' : Run) (c : config)
             (name rest v : string) (e1 e2 : list (string * string)),
         loadConfig h st = (Ok c, st') ->
         projectName (this st') = VStr name ->
         process_env h = (e1 ++ (override_variable name rest, v) :: e2)%list ->
         string_forallb (fun a => negb (line_terminator a)) rest = true ->
         (forall key r,
             In key (map fst e1 ++ map fst e2)%list ->
             exec_prefix (upper_snake name ++ "_CONFIG_") key = Some r ->
             first_segment r <> first_segment rest) ->
         (forall key r,
             In key (keys (argv_or_empty (options (this st)))) ->
             exec_prefix "config-setting-" key = Some r ->
             first_segment r <> first_segment rest) ->
         first_segment rest <> "environments" ->
         getPath (content c) rest = VStr v)
  /\ fst (Example.run myapp_files [("MYAPP_CONFIG_db.host", "foo")]
            (Example.named "myapp"))
     = Ok {| oid := 0;
             content :=
               VObj [("db", VObj [("host", VStr "foo"); ("port", VNum 5432)])] |}
  /\ fst (Example.run myapp_files [("MYAPP_CONFIG_DB_HOST", "foo")]
            (Example.named "myapp"))
     = Ok {| oid := 0;
             content :=
               VObj [("db", VObj [("host", VStr "file"); ("port", VNum 5432)]);
                     ("DB_HOST", VStr "foo")] |}.
Proof.
  split; [|split; [|split; reflexivity]].
  - intros objtools h st st1 name rest v e1 e2 Hn Henv Hnot Hrest prefix.
    split; [now apply exec_prefix_app|].
    rewrite (collect_overrides_run h st st1 name Hn).
    now rewrite (env_overrides_split h prefix rest v e1 e2 [] Henv Hnot Hrest).
  - intros h st st' c name rest v e1 e2 Hrun Hname Henv Hrest Hothers Hargv Hhd.
    destruct (loadConfig_overrides h st st' c Hrun)
      as (d & m & env & name' & Hname' & ->).
    assert (name' = name) by congruence. subst name'.
    apply (override_wins h (upper_snake name ++ "_CONFIG_") rest v e1 e2
             (argv_or_empty (options (this st))) Henv Hrest Hothers Hargv
             [d; environment_block d env; m; environment_block m env] Hhd).
Qed.

(** The variable [MYAPP_CONFIG_DB_HOST] of the specification's example
    sets the top-level key [DB_HOST]: the result holds no
    [{db:{host:"foo"}}], and the [db.host] of the file stands. *)
Lemma env_override_name_is_the_path :
  fst (Example.run myapp_files [("MYAPP_CONFIG_DB_HOST", "foo")]
         (Example.named "myapp"))
  = Ok {| oid := 0;
          content :=
            VObj [("db", VObj [("host", VStr "file"); ("port", VNum 5432)]);
                  ("DB_HOST", VStr "foo")] |}
  /\ getPath
       (VObj [("db", VObj [("host", VStr "file"); ("port", VNum 5432)]);
              ("DB_HOST", VStr "foo")])
       "db.host"
     = VStr "file"
  /\ fst (Example.run [] [("MYAPP_CONFIG_DB_HOST", "foo")]
            (Example.named "myapp"))
     = Ok {| oid := 0; content := VObj [("DB_HOST", VStr "foo")] |}.
Proof. repeat split; reflexivity. Qed.

(** A project with three override variables and an override on the
    command line: each is assigned in its turn, and [db.host], which
    the main file sets, is [foo] in the result. *)
Lemma env_override_at_dotted_path_witness :
  collect_overrides several_overrides myapp_start
  = (Ok [("log", VObj [("level", VStr "debug")]);
         ("db", VObj [("host", VStr "foo")]);
         ("cache", VStr "off");
         ("port", VNum 8080)],
     snd (getProjectName several_overrides myapp_start))
  /\ getPath (content {| oid := 0;
                         content :=
                           VObj [("db", VObj [("host", VStr "foo");
                                              ("port", VNum 5432)]);
                                 ("log", VObj [("level", VStr "debug")]);
                                 ("cache", VStr "off");
                                 ("port", VNum 8080)] |})
       "db.host"
     = VStr "foo".
Proof.
  split.
  - refine (proj2 (proj1 env_override_at_dotted_path spec_objtools
                     several_overrides myapp_start
                     (snd (getProjectName several_overrides myapp_start))
                     "myapp" "db.host" "foo"
                     [("NODE_ENV", "production");
                      ("MYAPP_CONFIG_log.level", "debug")]
                     [("MYAPP_CONFIG_cache", "off")] _ _ _ _)).
    + reflexivity.
    + reflexivity.
    + simpl. intros [H|[H|[]]]; discriminate.
    + reflexivity.
  - refine (proj1 (proj2 env_override_at_dotted_path)
              several_overrides myapp_start
              (snd (loadConfig several_overrides myapp_start)) _
              "myapp" "db.host" "foo"
              [("NODE_ENV", "production");
               ("MYAPP_CONFIG_log.level", "debug")]
              [("MYAPP_CONFIG_cache", "off")] _ _ _ _ _ _ _).
    + vm_compute. reflexivity.
    + reflexivity.
    + reflexivity.
    + reflexivity.
    + simpl. intros key r [<-|[<-|[<-|[]]]]; vm_compute; intros [= <-];
        discriminate.
    + simpl. intros key r [<-|[]]. vm_compute. intros [= <-]. discriminate.
    + vm_compute. discriminate.
Defined.

(* ================================================================= *)
(** ** Failing files, through [loadConfig] *)

Section named_loader.
Variable h : Host.
Variables st st2 : Run.
Variables name root : string.
Hypothesis Hroot : rootDir (this st) = Some root.
Hypothesis Hne : root <> "".
Hypothesis Hn : getProjectName h st = (Ok (VStr name), st2).

(** The states that the stage goes through before its load: the one it
    starts in and, once the name was asked for, the one that holds
    it. *)
Local Abbreviation W := (fun s : Run => s = st \/ s = st2).

Lemma named_options (s : Run) : W s -> options (this s) = options (this st).
Proof.
  intros [->| ->]; [reflexivity|].
  now destruct (follows_run _ _ _ _ _ (follows_getProjectName h) Hn) as (O & _).
Qed.

Lemma named_getProjectName (s : Run) :
  W s -> getProjectName h s = (Ok (VStr name), st2).
Proof.
  intros [->| ->]; [assumption|].
  destruct (getProjectName_run h _ _ _ Hn) as [Ht Hc].
  rewrite <- Hc. apply getProjectName_cached. now rewrite Hc.
Qed.

Lemma named_getProjectRootDir (s : Run) :
  W s -> getProjectRootDir h s = (Ok root, s).
Proof.
  intros [->| ->]; apply getProjectRootDir_cached; try assumption.
  destruct (follows_run _ _ _ _ _ (follows_getProjectName h) Hn)
    as (_ & _ & _ & K).
  rewrite K; [assumption|]. rewrite Hroot, (nonempty_Some root Hne).
  discriminate.
Qed.

Lemma named_project_prefix (s : Run) :
  W s -> project_prefix h s = (Ok (upper_snake name), st2).
Proof.
  intros Hs. unfold project_prefix, bind.
  now rewrite (named_getProjectName s Hs).
Qed.

Lemma named_project_file (suffix : string) (s : Run) :
  W s -> project_file h suffix s = (Ok (VStr (name ++ suffix)), st2).
Proof.
  intros Hs. unfold project_file, bind.
  now rewrite (named_getProjectName s Hs).
Qed.

(** The main stage of a loader that holds its root directory: the file
    is looked for under the name that [getProjectName] returns, and
    nothing is logged before its load. *)
Lemma load_main_named :
  exists s,
    W s
    /\ load_main h st
       = match _resolvePath h
                 (main_filename (options (this st)) (process_env h) name)
                 (strings [root; "/etc"]) with
         | Ok p =>
             match nonempty p with
             | Some f => _loadFile h (Some f) s
             | None => (Ok (VObj []), s)
             end
         | Throw e => (Throw e, s)
         end.
Proof.
  unfold load_main, main_filename.
  unfold bind at 1. unfold get_this at 1.
  set (o := options (this st)).
  change (opt_value (LittleConfOptions.filenameOverride o))
    with (match LittleConfOptions.filenameOverride o with
          | Some s => VStr s | None => VUndefined end).
  change (opt_value (LittleConfOptions.filename o))
    with (match LittleConfOptions.filename o with
          | Some s => VStr s | None => VUndefined end).
  set (f0 := match LittleConfOptions.filenameOverride o with
             | Some s => VStr s | None => VUndefined end).
  set (f3 := match LittleConfOptions.filename o with
             | Some s => VStr s | None => VUndefined end).
  assert (Hrest : forall v s1,
             W s1 ->
             (root0 <- getProjectRootDir h ;;
              mainFilename <-
                lift (_resolvePath h v
                        (VArr [Some (VStr root0); Some (VStr "/etc")])) ;;
              match nonempty mainFilename with
              | Some f => _loadFile h (Some f)
              | None => ret (VObj [])
              end) s1
             = match _resolvePath h v (strings [root; "/etc"]) with
               | Ok p =>
                   match nonempty p with
                   | Some f => _loadFile h (Some f) s1
                   | None => (Ok (VObj []), s1)
                   end
               | Throw e => (Throw e, s1)
               end).
  { intros v s1 H1.
    rewrite (bind_run_Ok _ _ _ _ _ (named_getProjectRootDir s1 H1)).
    unfold bind, lift.
    change (VArr [Some (VStr root); Some (VStr "/etc")])
      with (strings [root; "/etc"]).
    destruct (_resolvePath h v (strings [root; "/etc"])) as [p|e];
      [|reflexivity].
    now destruct (nonempty p) as [f|]. }
  assert (Hlast : forall v s1,
             W s1 ->
             exists s2,
               W s2
               /\ (mainFilename <-
                     (if negb (truthy v) then
                        a <- project_file h ".conf" ;;
                        b <- project_file h ".conf.js" ;;
                        ret (VArr [Some a; Some b])
                      else ret v) ;;
                   root0 <- getProjectRootDir h ;;
                   mainFilename <-
                     lift (_resolvePath h mainFilename
                             (VArr [Some (VStr root0); Some (VStr "/etc")])) ;;
                   match nonempty mainFilename with
                   | Some f => _loadFile h (Some f)
                   | None => ret (VObj [])
                   end) s1
                  = match _resolvePath h
                            (if truthy v then v
                             else VArr [Some (VStr (name ++ ".conf"));
                                        Some (VStr (name ++ ".conf.js"))])
                            (strings [root; "/etc"]) with
                    | Ok p =>
                        match nonempty p with
                        | Some f => _loadFile h (Some f) s2
                        | None => (Ok (VObj []), s2)
                        end
                    | Throw e => (Throw e, s2)
                    end).
  { intros v s1 H1. destruct (truthy v); cbn [negb].
    - exists s1. split; [assumption|].
      unfold bind at 1. unfold ret at 1. now apply Hrest.
    - exists st2. split; [now right|].
      unfold bind at 1. unfold bind at 1.
      rewrite (named_project_file ".conf" s1 H1).
      unfold bind at 1.
      rewrite (named_project_file ".conf.js" st2 (or_intror eq_refl)).
      unfold ret at 1. apply Hrest. now right. }
  set (cli := cli_argument o (str_or (LittleConfOptions.cliArgumentFile o) "c")).
  set (variable := str_or (LittleConfOptions.envVariableFile o)
                          (upper_snake name ++ "_CONFIG")).
  assert (H1 : (if negb (truthy f0)
                then _getCLIArgument
                       (str_or (LittleConfOptions.cliArgumentFile o) "c")
                else ret f0) st
               = (Ok (if truthy f0 then f0 else cli), st)).
  { destruct (truthy f0); cbn [negb]; [reflexivity|].
    now rewrite getCLIArgument_run. }
  rewrite (bind_run_Ok _ _ _ _ _ H1).
  set (f1 := if truthy f0 then f0 else cli).
  assert (H2 : exists s1,
             (if negb (truthy f1) then
                envVar <-
                  match nonempty (LittleConfOptions.envVariableFile o) with
                  | Some v => ret v
                  | None => p <- project_prefix h ;; ret (p ++ "_CONFIG")
                  end ;;
                ret (env_value h envVar)
              else ret f1) st
             = (Ok (if truthy f1 then f1 else env_value h variable), s1)
             /\ W s1).
  { destruct (truthy f1); cbn [negb];
      [exists st; split; [reflexivity | now left]|].
    unfold variable, str_or.
    destruct (nonempty (LittleConfOptions.envVariableFile o)) as [v|].
    - exists st. split; [reflexivity | now left].
    - exists st2. split; [|now right].
      unfold bind at 1. unfold bind at 1.
      now rewrite (named_project_prefix st (or_introl eq_refl)). }
  destruct H2 as (s1 & H2 & HW1).
  rewrite (bind_run_Ok _ _ _ _ _ H2).
  cbv zeta.
  destruct (Hlast (if negb (truthy (if truthy f1 then f1
                                    else env_value h variable))
                   then f3
                   else if truthy f1 then f1 else env_value h variable)
              s1 HW1) as (s2 & HW2 & ->).
  exists s2. split; [assumption|].
  fold (env_value h variable).
  subst f1.
  destruct (truthy f0) eqn:E0; cbn [negb]; rewrite ?E0; cbn [negb];
    rewrite ?E0; try reflexivity.
  destruct (truthy cli) eqn:E1; cbn [negb]; rewrite ?E1; cbn [negb];
    rewrite ?E1; try reflexivity.
  destruct (truthy (env_value h variable)) eqn:E2; cbn [negb]; rewrite ?E2;
    reflexivity.
Qed.
End named_loader.

(** A file that fails to load was there, and was handed to its loader
    once. *)
Lemma loadFile_throws (h : Host) (f : string) (e : exn) (st : Run) :
  file_content h (Some f) = Throw e ->
  _loadFile h (Some f) st = (Throw e, logged (load_event f) st).
Proof.
  unfold file_content, _loadFile, load_event.
  destruct (nonempty (Some f)) as [g|] eqn:Eg; [|discriminate].
  apply nonempty_inv in Eg as [Eg _]. injection Eg as <-.
  destruct (negb (existsSync h f)); [discriminate|].
  destruct (ends_with ".js" f).
  - unfold import_module, bind, log, lift. cbn [fst].
    now intros ->.
  - unfold bind, read_file, bind, log, lift.
    destruct (readFileSync h f) as [data|e0]; [|now intros [= ->]].
    destruct (yaml_safeLoad h data) as [r|e0]; [|now intros [= ->]].
    now destruct (_ || _).
Qed.

(** The defaults stage: the name is asked for when the
    [defaultsFilename] option does not give the file, the root
    directory after it, and nothing else happens before the load. *)
Lemma load_defaults_named (h : Host) (st st1 st2 : Run) (name root : string) :
  match nonempty (LittleConfOptions.defaultsFilename (options (this st))) with
  | Some _ => st1 = st
  | None => getProjectName h st = (Ok (VStr name), st1)
  end ->
  getProjectRootDir h st1 = (Ok root, st2) ->
  load_defaults h st
  = match _resolvePath h (defaults_filename (options (this st)) name)
            (VStr root) with
    | Ok p => _loadFile h p st2
    | Throw e => (Throw e, st2)
    end.
Proof.
  intros Hname Hroot. unfold load_defaults, defaults_filename.
  unfold bind at 1. unfold get_this at 1.
  assert (Hrest : forall v,
             (root0 <- getProjectRootDir h ;;
              p <- lift (_resolvePath h v (VStr root0)) ;;
              _loadFile h p) st1
             = match _resolvePath h v (VStr root) with
               | Ok p => _loadFile h p st2
               | Throw e => (Throw e, st2)
               end).
  { intros v. rewrite (bind_run_Ok _ _ _ _ _ Hroot). unfold bind, lift.
    now destruct (_resolvePath h v (VStr root)). }
  destruct (nonempty (LittleConfOptions.defaultsFilename (options (this st))))
    as [g|].
  - subst st1. unfold bind at 1. unfold ret at 1. apply Hrest.
  - destruct (getProjectName_run h _ _ _ Hname) as [Ht Hc].
    assert (Hagain : getProjectName h st1 = (Ok (VStr name), st1)).
    { rewrite <- Hc. apply getProjectName_cached. now rewrite Hc. }
    unfold bind at 1. unfold bind at 1. unfold project_file at 1.
    unfold bind at 1. rewrite Hname. unfold ret at 1.
    unfold bind at 1. unfold project_file at 1.
    unfold bind at 1. rewrite Hagain. unfold ret at 1. unfold ret at 1.
    apply Hrest.
Qed.

Section failing_files.
Context {objtools : Objtools}.
Variable h : Host.
Variable st : Run.

Lemma loadConfig_defaults_fail (name root : string) (st1 st2 : Run)
  (f : string) (e : exn) :
  match nonempty (LittleConfOptions.defaultsFilename (options (this st))) with
  | Some _ => st1 = st
  | None => getProjectName h st = (Ok (VStr name), st1)
  end ->
  getProjectRootDir h st1 = (Ok root, st2) ->
  _resolvePath h (defaults_filename (options (this st)) name) (VStr root)
  = Ok (Some f) ->
  file_content h (Some f) = Throw e ->
  loadConfig h st = (Throw e, logged (load_event f) st2).
Proof.
  intros Hname Hroot Hres Hfail. unfold loadConfig. apply bind_run_Throw.
  rewrite (load_defaults_named h st st1 st2 name root Hname Hroot), Hres.
  now apply loadFile_throws.
Qed.

Lemma loadConfig_main_fail (d : value) (st1 st2 : Run) (name root : string)
  (f : string) (e : exn) :
  load_defaults h st = (Ok d, st1) ->
  rootDir (this st1) = Some root ->
  getProjectName h st1 = (Ok (VStr name), st2) ->
  _resolvePath h (main_filename (options (this st1)) (process_env h) name)
    (strings [root; "/etc"]) = Ok (Some f) ->
  file_content h (Some f) = Throw e ->
  exists s,
    (s = st1 \/ s = st2)
    /\ loadConfig h st = (Throw e, logged (load_event f) s).
Proof.
  intros Hd Hroot Hname Hres Hfail.
  assert (Hne : root <> "").
  { pose proof (load_defaults_root h st st1 d Hd) as Hr.
    rewrite Hroot in Hr. intros ->. now apply Hr. }
  destruct (load_main_named h st1 st2 name root Hroot Hne Hname)
    as (s & Hs & Hm).
  rewrite Hres in Hm.
  assert (Hf : nonempty (Some f) = Some f).
  { unfold file_content, _loadFile in Hfail.
    destruct (nonempty (Some f)) as [g|] eqn:Eg; [|discriminate].
    now apply nonempty_inv in Eg as [-> _]. }
  rewrite Hf, (loadFile_throws h f e s Hfail) in Hm.
  exists s. split; [assumption|].
  unfold loadConfig. rewrite (bind_run_Ok _ _ _ _ _ Hd).
  now apply bind_run_Throw.
Qed.
End failing_files.

(** C8: loading a file does not fail for a path that is missing or not
    given: no path, an empty path and a path that does not exist each
    give an empty mapping, and so does a text file whose parsed content
    is not an object (a scalar, null, nothing).  A parse error of the
    text and a module that fails to load are thrown, after one attempt,
    and [loadConfig] throws them in turn, without a result and without
    another attempt.  For every loader: when the file found for the
    defaults (the [defaultsFilename] option, else the two names made
    from the project name, in the root directory) fails to load,
    [loadConfig] throws its error and stops at the state that this one
    load leaves; when the defaults have loaded and the file found for
    the main configuration (by whichever of the five ways its name is
    chosen, in the root directory or in [/etc]) fails to load,
    [loadConfig] throws its error and stops at the state that this one
    load leaves. *)
Theorem loadFile_missing_or_failing `{Objtools} (h : Host) (st : Run) :
  _loadFile h None st = (Ok (VObj []), st)
  /\ _loadFile h (Some "") st = (Ok (VObj []), st)
  /\ (forall f, existsSync h f = false ->
                _loadFile h (Some f) st = (Ok (VObj []), st))
  /\ (forall f data v,
        f <> "" -> existsSync h f = true -> ends_with ".js" f = false ->
        readFileSync h f = Ok data -> yaml_safeLoad h data = Ok v ->
        typeof_object v = false \/ v = VNull ->
        _loadFile h (Some f) st = (Ok (VObj []), logged (ReadFile f) st))
  /\ (forall f data e,
        f <> "" -> existsSync h f = true -> ends_with ".js" f = false ->
        readFileSync h f = Ok data -> yaml_safeLoad h data = Throw e ->
        _loadFile h (Some f) st = (Throw e, logged (ReadFile f) st))
  /\ (forall f e,
        f <> "" -> existsSync h f = true -> ends_with ".js" f = true ->
        import_default h f = Throw e ->
        _loadFile h (Some f) st = (Throw e, logged (Import f) st))
  /\ (forall e st1,
        load_defaults h st = (Throw e, st1) ->
        loadConfig h st = (Throw e, st1))
  /\ (forall d st1 e st2,
        load_defaults h st = (Ok d, st1) ->
        load_main h st1 = (Throw e, st2) ->
        loadConfig h st = (Throw e, st2))
  /\ (forall f root data e,
        path_isAbsolute f = true -> root <> "" ->
        existsSync h f = true -> ends_with ".js" f = false ->
        readFileSync h f = Ok data -> yaml_safeLoad h data = Throw e ->
        exists st',
          loadConfig h {| this := new_LittleConf (defaults_at f root);
                          trace := trace st; next_oid := next_oid st |}
          = (Throw e, st')
          /\ trace st' = (trace st ++ [ReadFile f])%list
          /\ next_oid st' = next_oid st)
  /\ (forall name root st1 st2 f e,
        match nonempty (LittleConfOptions.defaultsFilename
                          (options (this st))) with
        | Some _ => st1 = st
        | None => getProjectName h st = (Ok (VStr name), st1)
        end ->
        getProjectRootDir h st1 = (Ok root, st2) ->
        _resolvePath h (defaults_filename (options (this st)) name) (VStr root)
        = Ok (Some f) ->
        fst (_loadFile h (Some f) st) = Throw e ->
        loadConfig h st = (Throw e, logged (load_event f) st2))
  /\ (forall d st1 name root st2 f e,
        load_defaults h st = (Ok d, st1) ->
        rootDir (this st1) = Some root ->
        getProjectName h st1 = (Ok (VStr name), st2) ->
        _resolvePath h (main_filename (options (this st1)) (process_env h) name)
          (strings [root; "/etc"]) = Ok (Some f) ->
        fst (_loadFile h (Some f) st) = Throw e ->
        exists s,
          (s = st1 \/ s = st2)
          /\ loadConfig h st = (Throw e, logged (load_event f) s)).
Proof.
  split; [reflexivity|]. split; [reflexivity|]. split.
  { intros f Hf. unfold _loadFile.
    destruct f as [|a f]; [reflexivity|].
    cbn [nonempty]. now rewrite Hf. }
  split.
  { intros f data v Hf He Hjs Hread Hparse Hv.
    rewrite (loadFile_text h f data st Hf He Hjs Hread), Hparse.
    destruct Hv as [Hv| ->]; [now rewrite Hv | reflexivity]. }
  split.
  { intros f data e Hf He Hjs Hread Hparse.
    now rewrite (loadFile_text h f data st Hf He Hjs Hread), Hparse. }
  split.
  { intros f e Hf He Hjs Himport.
    now rewrite (loadFile_module h f st Hf He Hjs), Himport. }
  split.
  { intros e st1 Hd. unfold loadConfig. now apply bind_run_Throw. }
  split.
  { intros d st1 e st2 Hd Hm. unfold loadConfig.
    rewrite (bind_run_Ok _ _ _ _ _ Hd). now apply bind_run_Throw. }
  split.
  { intros f root data e Hf Hroot He Hjs Hread Hparse.
    assert (Hne : f <> "") by (intros ->; discriminate).
    eexists. split.
    - unfold loadConfig. apply bind_run_Throw.
      rewrite (load_defaults_at h f root _ _ Hf Hroot He).
      rewrite (loadFile_text h f data _ Hne He Hjs Hread), Hparse.
      reflexivity.
    - split; reflexivity. }
  split.
  { intros name root st1 st2 f e Hname Hroot Hres Hfail.
    rewrite loadFile_result in Hfail.
    now apply (loadConfig_defaults_fail h st name root st1 st2 f e). }
  intros d st1 name root st2 f e Hd Hroot Hname Hres Hfail.
  rewrite loadFile_result in Hfail.
  now apply (loadConfig_main_fail h st d st1 st2 name root f e).
Qed.

(** A project named by its manifest whose main file does not parse,
    and one whose defaults module fails to load: the error reaches the
    caller of [loadConfig] after one attempt at the failing file. *)
Lemma loadFile_missing_or_failing_witness :
  loadConfig unparsed_main_host fresh_loader
  = (Throw (HostError "YAMLException"),
     {| this := {| options := LittleConfOptions.empty;
                   projectName := VStr "web-app";
                   environment := VUndefined;
                   rootDir := Some "/srv/app" |};
        trace := [ReadFile "/srv/app/package.json";
                  ReadFile "/srv/app/web-app-defaults.conf";
                  ReadFile "/srv/app/web-app.conf"];
        next_oid := 0 |})
  /\ loadConfig broken_module_host
       {| this := new_LittleConf (options_of_object (Example.named "app"));
          trace := []; next_oid := 0 |}
     = (Throw (HostError "SyntaxError"),
        {| this := {| options := options_of_object (Example.named "app");
                      projectName := VStr "app";
                      environment := VUndefined;
                      rootDir := Some "/srv/app" |};
           trace := [Import "/srv/app/app-defaults.conf.js"];
           next_oid := 0 |}).
Proof.
  split.
  - destruct (loadFile_missing_or_failing unparsed_main_host fresh_loader)
      as (_ & _ & _ & _ & _ & _ & _ & _ & _ & _ & Hmain).
    destruct (Hmain (VObj [("port", VNum 80)])
                (snd (load_defaults unparsed_main_host fresh_loader))
                "web-app" "/srv/app"
                (snd (load_defaults unparsed_main_host fresh_loader))
                "/srv/app/web-app.conf" (HostError "YAMLException"))
      as (s & [-> | ->] & ->); reflexivity.
  - destruct (loadFile_missing_or_failing broken_module_host
                {| this := new_LittleConf
                             (options_of_object (Example.named "app"));
                   trace := []; next_oid := 0 |})
      as (_ & _ & _ & _ & _ & _ & _ & _ & _ & Hdefaults & _).
    rewrite (Hdefaults "app" "/srv/app"
               (snd (getProjectName broken_module_host
                       {| this := new_LittleConf
                                    (options_of_object (Example.named "app"));
                          trace := []; next_oid := 0 |}))
               (snd (getProjectRootDir broken_module_host
                       (snd (getProjectName broken_module_host
                               {| this := new_LittleConf
                                            (options_of_object
                                               (Example.named "app"));
                                  trace := []; next_oid := 0 |}))))
               "/srv/app/app-defaults.conf.js" (HostError "SyntaxError"));
      reflexivity.
Defined.
